(** * server_epoll.cpp: a single-client epoll reactor

    A shallow embedding of [src/server_epoll.cpp].  The program talks to the
    operating system only through system calls, so the embedding has two
    halves:

    - the program, written as functions that take the results of the system
      calls it makes (a script of results, one stream per kind of call) and
      return the effects it performs, in order, as a list of [event]s;
    - a kernel-side reading of such a list of events (which identifiers are
      open, which are in the epoll interest list), used to state the
      resource invariants.

    Identifiers ([int] file descriptors), return values and [errno] values are
    integers ([Z]); the program never does arithmetic on them. *)

From Stdlib Require Import ZArith List String Ascii Bool Lia.
From Stdlib Require Import DecimalString.
From stdpp Require Import base gmap sets list.
Import ListNotations.

Local Open Scope Z_scope.

#[local] Set Warnings "-clear-no-such-hyp".

(** ** Constants of the platform headers (Linux) *)

(** [<errno.h>]: on Linux both names are the same number. *)
Definition EAGAIN : Z := 11.
Definition EWOULDBLOCK : Z := 11.

(** [<signal.h>] *)
Definition SIGHUP : Z := 1.
Definition SIGTERM : Z := 15.

(** [sizeof(signalfd_siginfo)], [<sys/signalfd.h>] *)
Definition sizeof_siginfo : Z := 128.

(** [O_NONBLOCK], [<fcntl.h>] *)
Definition O_NONBLOCK : Z := 2048.

(** ** Observable effects *)

(** The lines the program writes to [std::cout]. *)
Inductive line : Type :=
  | LListening (port : Z)
  | LSigHup
  | LSigTerm
  | LSigOther (signo : Z)
  | LNewConnection
  | LActive
  | LRejected
  | LReceived (r : Z)
  | LClosed
  | LRecvError
  | LStopped.

Definition decimal (z : Z) : string := NilZero.string_of_int (Z.to_int z).

(** The text of each line, without its final newline. *)
Definition render (l : line) : string :=
  match l with
  | LListening port => "Listening on port " ++ decimal port
  | LSigHup => "[signal] SIGHUP"
  | LSigTerm => "[signal] SIGTERM -> shutdown"
  | LSigOther signo => "[signal] " ++ decimal signo
  | LNewConnection => "New connection"
  | LActive => "This connection is now the active client"
  | LRejected => "Active client already present, closing new"
  | LReceived r => "Received " ++ decimal r ++ " bytes"
  | LClosed => "Client closed connection"
  | LRecvError => "Client recv error"
  | LStopped => "Server stopped"
  end%string.

(** One effect of the program: a system call (with the result the kernel
    gave, where the call has one the program looks at or could look at) or a
    line of output. *)
Inductive event : Type :=
  | Out (l : line)
  | SysClose (fd : Z)
  | SysFcntlGetfl (fd : Z) (ret : Z)
  | SysFcntlSetfl (fd : Z) (flags : Z) (ret : Z)
  | SysEpollCreate (ret : Z)
  | SysEpollAdd (ep fd : Z)
  | SysEpollDel (ep fd : Z)
  | SysEpollWait (ep : Z) (cap : Z) (timeout : Z) (ret : Z)
  | SysSigprocmask (sigs : list Z)
  | SysSignalfd (sigs : list Z) (ret : Z)
  | SysRead (fd : Z) (ret : Z)
  | SysSocket (ret : Z)
  | SysSetsockopt (fd : Z) (ret : Z)
  | SysBind (fd : Z) (port : Z) (ret : Z)
  | SysListen (fd : Z) (ret : Z)
  | SysAccept (fd : Z) (ret : Z)
  | SysRecv (fd : Z) (cap : Z) (ret : Z).

Global Instance line_eq_dec : EqDecision line.
Proof. solve_decision. Defined.

Global Instance event_eq_dec : EqDecision event.
Proof. solve_decision. Defined.

(** ** Results handed back by the kernel *)

(** The two [fcntl] calls of [set_nonblock]. *)
Record fcntl_result : Type := { getfl_ret : Z; setfl_ret : Z }.

(** [inline void set_nonblock(int fd)]: read the flags, write them back with
    [O_NONBLOCK] or-ed in.  Neither result is checked. *)
Definition set_nonblock (k : fcntl_result) (fd : Z) : list event :=
  let flags := getfl_ret k in
  [SysFcntlGetfl fd flags; SysFcntlSetfl fd (Z.lor flags O_NONBLOCK) (setfl_ret k)].

(** ** UniqueFd *)

Module UniqueFd.

Record t : Type := mk { fd_ : Z }.

(** [UniqueFd() = default], with the member initialiser [int fd_ = -1]. *)
Definition empty : t := mk (-1).

Definition get (h : t) : Z := fd_ h.
Definition valid (h : t) : bool := negb (fd_ h =? -1).

(** [void reset(int newfd = -1)] *)
Definition reset (h : t) (newfd : Z) : t * list event :=
  (mk newfd, if negb (fd_ h =? -1) then [SysClose (fd_ h)] else []).

(** [~UniqueFd() { reset(); }]: what destroying the object does. *)
Definition destroy (h : t) : list event := snd (reset h (-1)).

(** [UniqueFd(UniqueFd&& o)]: the new object and what is left in [o]. *)
Definition move_construct (o : t) : t * t := (mk (fd_ o), mk (-1)).

End UniqueFd.

(** *** Handles as objects

    Move-assignment compares the addresses of its two operands, so the
    operations are also given on a store of handle objects, keyed by
    address.  Each returns the new store and the system calls made.  The
    class deletes its copy constructor and copy assignment: there is no
    operation that copies. *)

Module Handles.

Definition addr := nat.
Abbreviation store := (gmap nat UniqueFd.t).

(** [new (a) UniqueFd(fd)] *)
Definition construct (σ : store) (a : addr) (fd : Z) : store :=
  <[a := UniqueFd.mk fd]> σ.

(** [h.reset(newfd)] on the object at [a]. *)
Definition reset (σ : store) (a : addr) (newfd : Z) : store * list event :=
  match σ !! a with
  | Some h => let '(h', tr) := UniqueFd.reset h newfd in (<[a := h']> σ, tr)
  | None => (σ, [])
  end.

(** The destructor runs [reset()] and the object is gone. *)
Definition destroy (σ : store) (a : addr) : store * list event :=
  match σ !! a with
  | Some h => (delete a σ, UniqueFd.destroy h)
  | None => (σ, [])
  end.

(** [new (a) UniqueFd(std::move(o))] *)
Definition move_construct (σ : store) (a o : addr) : store :=
  match σ !! o with
  | Some ho =>
      let '(hnew, ho') := UniqueFd.move_construct ho in
      <[o := ho']> (<[a := hnew]> σ)
  | None => σ
  end.

(** [this = std::move(o)]:
    [if (this != &o) { reset(); fd_ = o.fd_; o.fd_ = -1; }] *)
Definition move_assign (σ : store) (this o : addr) : store * list event :=
  if decide (this = o) then (σ, [])
  else
    match σ !! this, σ !! o with
    | Some ht, Some ho =>
        let '(_, tr) := UniqueFd.reset ht (-1) in
        (<[o := UniqueFd.mk (-1)]> (<[this := UniqueFd.mk (UniqueFd.fd_ ho)]> σ), tr)
    | _, _ => (σ, [])
    end.

(** The identifier held at an address, if an object lives there. *)
Definition held (σ : store) (a : addr) : option Z := UniqueFd.fd_ <$> σ !! a.

(** No identifier has two owners. *)
Definition exclusive (σ : store) : Prop :=
  ∀ a b fd, held σ a = Some fd → held σ b = Some fd → fd ≠ -1 → a = b.

(** The operations of the class that act on a handle, as a caller can apply
    them: the default constructor, the explicit constructor from an
    identifier, [reset] with its argument ([reset()] is [OpReset a (-1)]), the
    destructor, and the two moves.  [get] and [valid] are [const] and leave
    every object as it is. *)
Inductive op : Type :=
  | OpDefault (a : addr)
  | OpConstruct (a : addr) (fd : Z)
  | OpReset (a : addr) (newfd : Z)
  | OpDestroy (a : addr)
  | OpMoveConstruct (a o : addr)
  | OpMoveAssign (this o : addr).

Definition apply (σ : store) (x : op) : store * list event :=
  match x with
  | OpDefault a => (construct σ a (-1), [])
  | OpConstruct a fd => (construct σ a fd, [])
  | OpReset a newfd => reset σ a newfd
  | OpDestroy a => destroy σ a
  | OpMoveConstruct a o => (move_construct σ a o, [])
  | OpMoveAssign this o => move_assign σ this o
  end.

(** The identifier [fd] can be given to the handle at [a]: it is the empty
    sentinel, or no other handle holds it. *)
Definition free_for (σ : store) (a : addr) (fd : Z) : Prop :=
  fd = -1 ∨ ∀ b, b ≠ a → held σ b ≠ Some fd.

(** What the class leaves to its caller.  A constructor builds a new
    object: its address is not in use.  An identifier handed to a handle, by
    the explicit constructor or by [reset], is not held by another handle;
    the class does not check this. *)
Definition applicable (σ : store) (x : op) : Prop :=
  match x with
  | OpDefault a => σ !! a = None
  | OpConstruct a fd => σ !! a = None ∧ free_for σ a fd
  | OpReset a newfd => free_for σ a newfd
  | OpMoveConstruct a o => σ !! a = None
  | OpDestroy _ | OpMoveAssign _ _ => True
  end.

End Handles.

(** ** The script of kernel results

    Each kind of call the event loop makes draws its results from a stream
    of its own.  A stream that has run dry means the kernel has nothing more
    to deliver: a non-blocking call then reports that it would block, and
    [epoll_wait] (called without a timeout) never returns. *)

(** [epoll_wait]: the return value and the [data.fd] of the entries the
    kernel wrote to the front of the output array. *)
Record wait_result : Type := { wait_ret : Z; wait_events : list Z }.

(** [read] on the signalfd: the return value and the [ssi_signo] of the
    record read. *)
Record read_result : Type := { read_ret : Z; ssi_signo : Z }.

(** [accept]: the return value, [errno], and the results of the [fcntl]
    calls made on the new identifier if it is kept. *)
Record accept_result : Type :=
  { acc_ret : Z; acc_errno : Z; acc_nonblock : fcntl_result }.

(** [recv]: the return value and [errno]. *)
Record recv_result : Type := { recv_ret : Z; recv_errno : Z }.

Record pending : Type :=
  { sigreads : list read_result;
    accepts : list accept_result;
    recvs : list recv_result }.

Definition nothing_pending : pending :=
  {| sigreads := []; accepts := []; recvs := [] |}.

(** What a non-blocking call returns when nothing is queued. *)
Definition read_would_block : read_result := {| read_ret := -1; ssi_signo := 0 |}.
Definition accept_would_block : accept_result :=
  {| acc_ret := -1; acc_errno := EAGAIN;
     acc_nonblock := {| getfl_ret := 0; setfl_ret := 0 |} |}.
Definition recv_would_block : recv_result := {| recv_ret := -1; recv_errno := EAGAIN |}.

(** How one pass through the body of a [for (;;)] or [while] loop ends. *)
Inductive flow : Type := Continue | Break.

(** ** Epoll *)

Module Epoll.

Record t : Type := mk { ep_ : UniqueFd.t }.

(** [Epoll() : ep_(::epoll_create1(EPOLL_CLOEXEC)) {}] *)
Definition create (ret : Z) : t * list event :=
  (mk (UniqueFd.mk ret), [SysEpollCreate ret]).

Definition valid (e : t) : bool := UniqueFd.valid (ep_ e).
Definition fd (e : t) : Z := UniqueFd.get (ep_ e).

Definition add_in (e : t) (x : Z) : list event := [SysEpollAdd (fd e) x].
Definition del (e : t) (x : Z) : list event := [SysEpollDel (fd e) x].

(** [int wait(epoll_event* out, int cap, int timeout_ms)]: the kernel writes
    at most [cap] entries to the front of [out]. *)
Definition wait (e : t) (w : wait_result) (out : list Z) (cap timeout : Z)
  : Z * list Z * list event :=
  let written := take (Z.to_nat cap) (wait_events w) in
  (wait_ret w,
   written ++ drop (length written) out,
   [SysEpollWait (fd e) cap timeout (wait_ret w)]).

Definition destroy (e : t) : list event := UniqueFd.destroy (ep_ e).

End Epoll.

(** ** SignalFd *)

Module SignalFd.

Record t : Type := mk { mask_ : list Z; fd_ : UniqueFd.t }.

(** The constructor: build the mask, block its signals, open the signalfd and
    store it with [fd_.reset(...)]. *)
Definition create (sigs : list Z) (ret : Z) : t * list event :=
  let '(h, tr) := UniqueFd.reset UniqueFd.empty ret in
  (mk sigs h, [SysSigprocmask sigs; SysSignalfd sigs ret] ++ tr).

Definition valid (s : t) : bool := UniqueFd.valid (fd_ s).
Definition fd (s : t) : Z := UniqueFd.get (fd_ s).

(** The body of the [while] loop of [drain_and_handle], for one record that
    was read in full. *)
Definition handle (signo : Z) (stop : bool) : bool * list event :=
  if signo =? SIGHUP then (stop, [Out LSigHup])
  else if signo =? SIGTERM then (true, [Out LSigTerm])
  else (stop, [Out (LSigOther signo)]).

(** One evaluation of the loop condition, and of the body if it holds. *)
Definition drain_step (s : t) (r : read_result) (stop : bool)
  : flow * bool * list event :=
  if read_ret r =? sizeof_siginfo then
    let '(stop', tr) := handle (ssi_signo r) stop in
    (Continue, stop', SysRead (fd s) (read_ret r) :: tr)
  else (Break, stop, [SysRead (fd s) (read_ret r)]).

Fixpoint drain_loop (s : t) (rs : list read_result) (stop : bool)
  : bool * list event * list read_result :=
  match rs with
  | [] => (stop, [SysRead (fd s) (read_ret read_would_block)], [])
  | r :: rs' =>
      match drain_step s r stop with
      | (Continue, stop', tr) =>
          let '(b, tr', rest) := drain_loop s rs' stop' in (b, tr ++ tr', rest)
      | (Break, stop', tr) => (stop', tr, rs')
      end
  end.

(** [bool drain_and_handle(std::ostream& os)] *)
Definition drain_and_handle (s : t) (rs : list read_result)
  : bool * list event * list read_result :=
  drain_loop s rs false.

Definition destroy (s : t) : list event := UniqueFd.destroy (fd_ s).

End SignalFd.

(** ** Listener *)

Module Listener.

Record t : Type := mk { fd_ : UniqueFd.t }.

(** The results of the calls the constructor makes. *)
Record boot : Type :=
  { socket_ret : Z;
    setsockopt_ret : Z;
    bind_ret : Z;
    listen_ret : Z;
    nonblock : fcntl_result }.

(** [explicit Listener(unsigned short port)] *)
Definition create (port : Z) (k : boot) : t * list event :=
  let s := socket_ret k in
  if s <? 0 then (mk UniqueFd.empty, [SysSocket s])
  else
    let tr_opt := [SysSocket s; SysSetsockopt s (setsockopt_ret k)] in
    if bind_ret k <? 0 then
      (mk UniqueFd.empty, tr_opt ++ [SysBind s port (bind_ret k); SysClose s])
    else if listen_ret k <? 0 then
      (mk UniqueFd.empty,
       tr_opt ++ [SysBind s port (bind_ret k); SysListen s (listen_ret k); SysClose s])
    else
      let '(h, tr) := UniqueFd.reset UniqueFd.empty s in
      (mk h,
       tr_opt ++ [SysBind s port (bind_ret k); SysListen s (listen_ret k)]
         ++ set_nonblock (nonblock k) s ++ tr).

Definition valid (l : t) : bool := UniqueFd.valid (fd_ l).
Definition fd (l : t) : Z := UniqueFd.get (fd_ l).

(** [int accept_one() const] *)
Definition accept_one (l : t) (a : accept_result) : Z * list event :=
  (acc_ret a, [SysAccept (fd l) (acc_ret a)]).

Definition destroy (l : t) : list event := UniqueFd.destroy (fd_ l).

End Listener.

(** ** Client *)

Module Client.

Record t : Type := mk { fd_ : UniqueFd.t }.

(** [explicit Client(int fd) : fd_(fd) { set_nonblock(fd_.get()); }] *)
Definition create (k : fcntl_result) (x : Z) : t * list event :=
  let h := UniqueFd.mk x in
  (mk h, set_nonblock k (UniqueFd.get h)).

Definition fd (c : t) : Z := UniqueFd.get (fd_ c).

(** [ssize_t recv_some(void* buf, size_t cap)] *)
Definition recv_some (c : t) (r : recv_result) (cap : Z) : Z * list event :=
  (recv_ret r, [SysRecv (fd c) cap (recv_ret r)]).

Definition destroy (c : t) : list event := UniqueFd.destroy (fd_ c).

End Client.

(** [std::optional<sys::Client>]: [reset()] and the destructor destroy the
    client if there is one. *)
Definition slot_destroy (client : option Client.t) : list event :=
  match client with
  | Some c => Client.destroy c
  | None => []
  end.

(** ** The port argument *)

Definition code (c : ascii) : Z := Z.of_N (N_of_ascii c).

(** [isspace] and [isdigit] in the C locale. *)
Definition isspace (c : ascii) : bool :=
  (code c =? 32) || ((9 <=? code c) && (code c <=? 13)).
Definition isdigit (c : ascii) : bool := (48 <=? code c) && (code c <=? 57).

Fixpoint skip_space (s : string) : string :=
  match s with
  | String c s' => if isspace c then skip_space s' else s
  | EmptyString => s
  end.

(** The value of the longest run of decimal digits at the front of [s],
    continuing from [acc]. *)
Fixpoint digits (s : string) (acc : Z) : Z :=
  match s with
  | String c s' => if isdigit c then digits s' (10 * acc + (code c - 48)) else acc
  | EmptyString => acc
  end.

Definition LONG_MAX : Z := 2 ^ 63 - 1.
Definition LONG_MIN : Z := - 2 ^ 63.

(** [strtol(s, NULL, 10)]: white space, an optional sign, digits; 0 when
    there are no digits; out-of-range values saturate. *)
Definition strtol10 (s : string) : Z :=
  let v :=
    match skip_space s with
    | String c s' =>
        if Ascii.eqb c "-" then - digits s' 0
        else if Ascii.eqb c "+" then digits s' 0
        else digits (String c s') 0
    | EmptyString => 0
    end in
  Z.max LONG_MIN (Z.min LONG_MAX v).

(** Conversion to a 32-bit [int] keeps the low 32 bits. *)
Definition to_int (z : Z) : Z := (z + 2 ^ 31) mod 2 ^ 32 - 2 ^ 31.

(** [std::atoi] of the C library, which is [(int) strtol(s, NULL, 10)].
    Where the digits do not fit an [int] the C standard leaves the result
    open, and this is what glibc returns. *)
Definition atoi (s : string) : Z := to_int (strtol10 s).

(** [static_cast<unsigned short>(p)] *)
Definition to_ushort (z : Z) : Z := z mod 2 ^ 16.

Definition default_port : Z := 12345.

(** The first lines of [main]; [argv] is the whole argument vector, program
    name included, and [argc] its length. *)
Definition select_port (argv : list string) : Z :=
  let argc := Z.of_nat (length argv) in
  if 1 <? argc then
    let p := atoi (nth 1 argv EmptyString) in
    if (0 <? p) && (p <=? 65535) then to_ushort p else default_port
  else default_port.

(** ** The event loop *)

(** The local variables of [main] that the loop changes. *)
Record loop_state : Type :=
  { client : option Client.t;
    stop : bool;
    events : list Z }.

Definition set_client (cl : option Client.t) (st : loop_state) : loop_state :=
  {| client := cl; stop := stop st; events := events st |}.
Definition set_stop (b : bool) (st : loop_state) : loop_state :=
  {| client := client st; stop := b; events := events st |}.
Definition set_events (evs : list Z) (st : loop_state) : loop_state :=
  {| client := client st; stop := stop st; events := evs |}.

(** [sizeof(buf)] in the receive loop and [events.size()]. *)
Definition buf_size : Z := 4096.
Definition events_size : Z := 8.

(** One pass through the body of the accept loop. *)
Definition accept_step (ep : Epoll.t) (lst : Listener.t) (a : accept_result)
    (cl : option Client.t) : flow * option Client.t * list event :=
  let '(nf, tr_acc) := Listener.accept_one lst a in
  if nf <? 0 then
    if (acc_errno a =? EAGAIN) || (acc_errno a =? EWOULDBLOCK)
    then (Break, cl, tr_acc)
    else (Break, cl, tr_acc)
  else
    match cl with
    | None =>
        let '(c, tr_c) := Client.create (acc_nonblock a) nf in
        (Continue, Some c,
         tr_acc ++ [Out LNewConnection] ++ tr_c
           ++ Epoll.add_in ep (Client.fd c) ++ [Out LActive])
    | Some _ =>
        (Continue, cl, tr_acc ++ [Out LNewConnection; Out LRejected; SysClose nf])
    end.

Fixpoint accept_loop (ep : Epoll.t) (lst : Listener.t) (acs : list accept_result)
    (cl : option Client.t) : option Client.t * list event * list accept_result :=
  match acs with
  | [] => (cl, snd (Listener.accept_one lst accept_would_block), [])
  | a :: acs' =>
      match accept_step ep lst a cl with
      | (Continue, cl', tr) =>
          let '(cl'', tr', rest) := accept_loop ep lst acs' cl' in
          (cl'', tr ++ tr', rest)
      | (Break, cl', tr) => (cl', tr, acs')
      end
  end.

(** One pass through the body of the receive loop, for the client [c] in
    the slot. *)
Definition recv_step (ep : Epoll.t) (c : Client.t) (r : recv_result)
  : flow * option Client.t * list event :=
  let '(n, tr) := Client.recv_some c r buf_size in
  if 0 <? n then (Continue, Some c, tr ++ [Out (LReceived n)])
  else if n =? 0 then
    (Break, None,
     tr ++ [Out LClosed] ++ Epoll.del ep (Client.fd c) ++ slot_destroy (Some c))
  else if (recv_errno r =? EAGAIN) || (recv_errno r =? EWOULDBLOCK) then
    (Break, Some c, tr)
  else
    (Break, None,
     tr ++ [Out LRecvError] ++ Epoll.del ep (Client.fd c) ++ slot_destroy (Some c)).

Fixpoint recv_loop (ep : Epoll.t) (c : Client.t) (rs : list recv_result)
  : option Client.t * list event * list recv_result :=
  match rs with
  | [] => (Some c, snd (Client.recv_some c recv_would_block buf_size), [])
  | r :: rs' =>
      match recv_step ep c r with
      | (Continue, _, tr) =>
          let '(cl, tr', rest) := recv_loop ep c rs' in (cl, tr ++ tr', rest)
      | (Break, cl, tr) => (cl, tr, rs')
      end
  end.

(** The body of the [for] loop over the ready entries, for the identifier
    [x] of one entry. *)
Definition dispatch (sfd : SignalFd.t) (lst : Listener.t) (ep : Epoll.t) (x : Z)
    (st : loop_state) (p : pending) : loop_state * pending * list event :=
  if x =? SignalFd.fd sfd then
    let '(b, tr, rest) := SignalFd.drain_and_handle sfd (sigreads p) in
    (set_stop (stop st || b) st,
     {| sigreads := rest; accepts := accepts p; recvs := recvs p |}, tr)
  else if x =? Listener.fd lst then
    let '(cl, tr, rest) := accept_loop ep lst (accepts p) (client st) in
    (set_client cl st,
     {| sigreads := sigreads p; accepts := rest; recvs := recvs p |}, tr)
  else
    match client st with
    | Some c =>
        if x =? Client.fd c then
          let '(cl, tr, rest) := recv_loop ep c (recvs p) in
          (set_client cl st,
           {| sigreads := sigreads p; accepts := accepts p; recvs := rest |}, tr)
        else (st, p, [])
    | None => (st, p, [])
    end.

(** [for (int i = ...; i < n; ++i)], with [todo] passes left. *)
Fixpoint for_loop (sfd : SignalFd.t) (lst : Listener.t) (ep : Epoll.t)
    (i todo : nat) (st : loop_state) (p : pending)
  : loop_state * pending * list event :=
  match todo with
  | O => (st, p, [])
  | S todo' =>
      let x := nth i (events st) 0 in
      let '(st1, p1, tr1) := dispatch sfd lst ep x st p in
      let '(st2, p2, tr2) := for_loop sfd lst ep (S i) todo' st1 p1 in
      (st2, p2, tr1 ++ tr2)
  end.

(** One pass through the body of [while (!stop)]. *)
Definition loop_body (sfd : SignalFd.t) (lst : Listener.t) (ep : Epoll.t)
    (w : wait_result) (st : loop_state) (p : pending)
  : loop_state * pending * list event :=
  let '(n, evs, tr_w) := Epoll.wait ep w (events st) events_size (-1) in
  let st1 := set_events evs st in
  if n <=? 0 then (st1, p, tr_w)
  else
    let '(st2, p2, tr) := for_loop sfd lst ep 0 (Z.to_nat n) st1 p in
    (st2, p2, tr_w ++ tr).

(** [while (!stop) { ... }]: [Some] of the state in which the loop was left,
    [None] if the process is still waiting when the script ends. *)
Fixpoint main_loop (sfd : SignalFd.t) (lst : Listener.t) (ep : Epoll.t)
    (ws : list wait_result) (st : loop_state) (p : pending)
  : option (loop_state * pending) * list event :=
  if stop st then (Some (st, p), [])
  else
    match ws with
    | [] => (None, [])
    | w :: ws' =>
        let '(st1, p1, tr) := loop_body sfd lst ep w st p in
        let '(r, tr') := main_loop sfd lst ep ws' st1 p1 in
        (r, tr ++ tr')
    end.

(** ** main *)

(** The results of the calls made before the loop. *)
Record boot : Type :=
  { signalfd_ret : Z;
    listener_boot : Listener.boot;
    epoll_create_ret : Z }.

(** What a run of the program amounts to: the exit code, if the process
    exits, and everything it did, in order. *)
Record run : Type := { exit_code : option Z; trace : list event }.

(** The constructors of the three objects, in declaration order. *)
Definition construct (port : Z) (k : boot)
  : SignalFd.t * Listener.t * Epoll.t * list event :=
  let '(sfd, tr_sfd) := SignalFd.create [SIGHUP; SIGTERM] (signalfd_ret k) in
  let '(lst, tr_lst) := Listener.create port (listener_boot k) in
  let '(ep, tr_ep) := Epoll.create (epoll_create_ret k) in
  (sfd, lst, ep, tr_sfd ++ tr_lst ++ tr_ep).

(** The destructors that run at a [return] of [main], in reverse order of
    declaration: the client slot (once it is in scope), the epoll object,
    the listener, the signalfd. *)
Definition teardown (sfd : SignalFd.t) (lst : Listener.t) (ep : Epoll.t)
    (cl : option Client.t) : list event :=
  slot_destroy cl ++ Epoll.destroy ep ++ Listener.destroy lst ++ SignalFd.destroy sfd.

Definition initial_state : loop_state :=
  {| client := None; stop := false; events := replicate (Z.to_nat events_size) 0 |}.

(** The two registrations and the first line of output. *)
Definition announce (sfd : SignalFd.t) (lst : Listener.t) (ep : Epoll.t)
    (port : Z) : list event :=
  Epoll.add_in ep (SignalFd.fd sfd) ++ Epoll.add_in ep (Listener.fd lst)
    ++ [Out (LListening port)].

(** How far [main] has come when it stops making progress in the script:
    the validity check failed, the loop was left, or the process is still
    waiting in [epoll_wait]. *)
Inductive phase : Type :=
  | Failed
  | Stopped (st : loop_state)
  | Waiting.

(** [main] up to its [return] statement. *)
Definition serve (argv : list string) (k : boot) (ws : list wait_result)
    (p : pending) : phase * list event :=
  let port := select_port argv in
  let '(sfd, lst, ep, tr_ctor) := construct port k in
  if negb (SignalFd.valid sfd) || negb (Listener.valid lst) || negb (Epoll.valid ep)
  then (Failed, tr_ctor)
  else
    match main_loop sfd lst ep ws initial_state p with
    | (Some (st, _), tr_loop) =>
        (Stopped st, tr_ctor ++ announce sfd lst ep port ++ tr_loop)
    | (None, tr_loop) =>
        (Waiting, tr_ctor ++ announce sfd lst ep port ++ tr_loop)
    end.

(** The [return] statement reached, if any: the exit code and what runs on
    the way out. *)
Definition leave (argv : list string) (k : boot) (ph : phase)
  : option Z * list event :=
  let '(sfd, lst, ep, _) := construct (select_port argv) k in
  match ph with
  | Failed => (Some 1, teardown sfd lst ep None)
  | Stopped st => (Some 0, [Out LStopped] ++ teardown sfd lst ep (client st))
  | Waiting => (None, [])
  end.

Definition main (argv : list string) (k : boot) (ws : list wait_result)
    (p : pending) : run :=
  let '(ph, tr) := serve argv k ws p in
  let '(code, tr') := leave argv k ph in
  {| exit_code := code; trace := tr ++ tr' |}.

(** ** Reading a trace *)

(** The lines of output in a trace. *)
Definition lines (tr : list event) : list line :=
  omap (λ e, match e with Out l => Some l | _ => None end) tr.

(** The change an event makes to the number of clients being served: the
    line that announces an active client counts one up, the two lines that
    report its removal count one down. *)
Definition delta (e : event) : Z :=
  match e with
  | Out LActive => 1
  | Out LClosed | Out LRecvError => -1
  | _ => 0
  end.

(** The number of clients being served after a trace that began with [n]. *)
Definition live_clients (n : Z) (tr : list event) : Z :=
  fold_left (λ m e, m + delta e) tr n.

(** Starting from [n], the number of clients served is 0 or 1 after every
    event of the trace. *)
Fixpoint walk (n : Z) (tr : list event) : bool :=
  match tr with
  | [] => true
  | e :: tr' =>
      let n' := n + delta e in
      (0 <=? n') && (n' <=? 1) && walk n' tr'
  end.

(** The number of clients in the slot. *)
Definition occupancy (cl : option Client.t) : Z :=
  match cl with Some _ => 1 | None => 0 end.

(** The line that [drain_and_handle] prints for a signal number. *)
Definition signal_line (signo : Z) : line :=
  if signo =? SIGHUP then LSigHup
  else if signo =? SIGTERM then LSigTerm
  else LSigOther signo.



(** ** The kernel's side of a trace

    The identifiers that are open and the interest list of the epoll
    instance [ep], as the calls in a trace change them.  Closing an
    identifier takes it out of the interest list; closing [ep] itself
    discards the list. *)

Record kernel : Type := { opened : gset Z; interest : gset Z }.

(** The result of a call that hands out an identifier. *)
Definition allocated (e : event) : option Z :=
  match e with
  | SysEpollCreate r => Some r
  | SysSignalfd _ r => Some r
  | SysSocket r => Some r
  | SysAccept _ r => Some r
  | _ => None
  end.

Definition kstep (ep : Z) (k : kernel) (e : event) : kernel :=
  match e with
  | SysClose x =>
      {| opened := opened k ∖ {[x]};
         interest := if decide (x = ep) then ∅ else interest k ∖ {[x]} |}
  | SysEpollAdd e' x =>
      if decide (e' = ep)
      then {| opened := opened k; interest := interest k ∪ {[x]} |} else k
  | SysEpollDel e' x =>
      if decide (e' = ep)
      then {| opened := opened k; interest := interest k ∖ {[x]} |} else k
  | _ =>
      match allocated e with
      | Some r =>
          if 0 <=? r
          then {| opened := opened k ∪ {[r]}; interest := interest k |} else k
      | None => k
      end
  end.

Definition kreplay (ep : Z) (k : kernel) (tr : list event) : kernel :=
  fold_left (kstep ep) tr k.

(** [ok] holds of every event of the trace, in the kernel state in which
    the event happens. *)
Fixpoint always (ok : kernel → event → bool) (ep : Z) (k : kernel)
    (tr : list event) : bool :=
  match tr with
  | [] => true
  | e :: tr' => ok k e && always ok ep (kstep ep k e) tr'
  end.

(** The kernel's rule for handing out identifiers: such a call fails with
    -1 or returns a non-negative identifier that is not open. *)
Definition allocation_ok (k : kernel) (e : event) : bool :=
  match allocated e with
  | Some r => (r =? -1) || ((0 <=? r) && bool_decide (r ∉ opened k))
  | None => true
  end.

Definition well_allocated : Z → kernel → list event → bool :=
  always allocation_ok.

(** An event that closes an identifier which is in the interest list. *)
Definition closes_registered (k : kernel) (e : event) : bool :=
  match e with
  | SysClose x => bool_decide (x ∈ interest k)
  | _ => false
  end.

(** No identifier is closed while it is in the interest list. *)
Definition disciplined : Z → kernel → list event → bool :=
  always (λ k e, negb (closes_registered k e)).

(** The kernel state a process starts in: some identifiers open, no epoll
    instance yet. *)
Definition fresh_kernel (o : gset Z) : kernel := {| opened := o; interest := ∅ |}.

(** ** The shape of a port argument *)

(** The value of a string of decimal digits. *)
Definition value (ds : string) : Z := digits ds 0.

Fixpoint all_chars (f : ascii → bool) (s : string) : bool :=
  match s with
  | String c s' => f c && all_chars f s'
  | EmptyString => true
  end.

(** The first character of the string, if there is one, satisfies [f]. *)
Definition starts_with (f : ascii → bool) (s : string) : bool :=
  match s with
  | String c _ => f c
  | EmptyString => false
  end.

Definition is_sign (c : ascii) : bool := Ascii.eqb c "+" || Ascii.eqb c "-".

(** The signs [strtol] accepts in front of the digits. *)
Inductive sign : Type := NoSign | Plus | Minus.

Definition sign_text (sg : sign) : string :=
  match sg with NoSign => EmptyString | Plus => "+" | Minus => "-" end.

Definition signed (sg : sign) (v : Z) : Z :=
  match sg with Minus => - v | _ => v end.

Definition INT_MAX : Z := 2 ^ 31 - 1.

(** The calls that only the event loop makes. *)
Definition loop_event (e : event) : bool :=
  match e with
  | SysEpollWait _ _ _ _ | SysEpollAdd _ _ | SysEpollDel _ _ => true
  | SysAccept _ _ | SysRecv _ _ _ | SysRead _ _ => true
  | _ => false
  end.

Definition outside_loop (tr : list event) : bool :=
  forallb (λ e, negb (loop_event e)) tr.

(** Everything the loop can do: its own calls, the calls made on a new or
    departing client, and the lines about signals and clients. *)
Definition loop_may_emit (e : event) : bool :=
  match e with
  | Out (LListening _) | Out LStopped => false
  | Out _ => true
  | SysClose _ | SysFcntlGetfl _ _ | SysFcntlSetfl _ _ _ => true
  | _ => loop_event e
  end.

(** What closing the client's handle amounts to. *)
Definition client_close (c : Client.t) : list event :=
  if Client.fd c =? -1 then [] else [SysClose (Client.fd c)].

Definition is_close (e : event) : bool :=
  match e with SysClose _ => true | _ => false end.

(** The calls of the three constructors. *)
Definition startup_event (e : event) : bool :=
  match e with
  | SysSigprocmask _ | SysSignalfd _ _ | SysSocket _ | SysSetsockopt _ _ => true
  | SysBind _ _ _ | SysListen _ _ | SysFcntlGetfl _ _ | SysFcntlSetfl _ _ _ => true
  | SysClose _ | SysEpollCreate _ => true
  | _ => false
  end.

(** The line that reports a termination signal occurs in the trace. *)
Definition saw_term (tr : list event) : bool :=
  existsb (λ e, bool_decide (e = Out LSigTerm)) tr.

(** A call of [accept] that returned a connection. *)
Definition accepts_connection (e : event) : bool :=
  match e with
  | SysAccept _ nf => 0 <=? nf
  | _ => false
  end.

Definition no_accept (tr : list event) : bool :=
  forallb (λ e, negb (accepts_connection e)) tr.

(** The trace begins with the admission of the connection [nf]: the line
    about a new connection, the two [fcntl]s that make it non-blocking, its
    registration with the epoll instance [ep], and the line that declares it
    the active client. *)
Definition admission (ep nf : Z) (tr : list event) : bool :=
  match tr with
  | Out LNewConnection :: SysFcntlGetfl x g :: SysFcntlSetfl y f _
      :: SysEpollAdd e z :: Out LActive :: _ =>
      (x =? nf) && (y =? nf) && (f =? Z.lor g O_NONBLOCK) && (e =? ep) && (z =? nf)
  | _ => false
  end.

(** The first connection accepted in the trace, if any, is admitted. *)
Fixpoint admits_first (ep : Z) (tr : list event) : bool :=
  match tr with
  | [] => true
  | e :: tr' =>
      match e with
      | SysAccept _ nf =>
          if 0 <=? nf then admission ep nf tr' else admits_first ep tr'
      | _ => admits_first ep tr'
      end
  end.

(** The number of registrations with an epoll instance in a trace. *)
Definition registrations (tr : list event) : nat :=
  length (List.filter (λ e, match e with SysEpollAdd _ _ => true | _ => false end) tr).

(** Watching a trace for the first connection accepted: while [watching],
    no connection has been accepted yet; the trace either accepts none, and
    the watch goes on, or admits the first one it accepts, and the watch
    ends. *)
Definition first_accept_admitted (ep : Z) (watching : bool) (tr : list event)
    (watching' : bool) : Prop :=
  if watching then
    if no_accept tr then (watching' = true)
    else (admits_first ep tr = true ∧ watching' = false)
  else (watching' = false).

(** While the watch is on, the slot is empty. *)
Definition watched_slot (watching : bool) (cl : option Client.t) (_ : bool) : Prop :=
  watching = true → cl = None.

(** The identifier in the slot, as a set. *)
Definition slot_fds (cl : option Client.t) : gset Z :=
  match cl with
  | Some c => {[Client.fd c]}
  | None => ∅
  end.

(** The kernel state fits the state of the loop: the interest list holds the
    signalfd, the listening socket and the client in the slot, if any; these
    and the epoll instance are open and are different identifiers. *)
Definition registered_as (sfd lst ep : Z) (k : kernel) (cl : option Client.t) : Prop :=
  interest k = {[sfd; lst]} ∪ slot_fds cl
  ∧ {[sfd; lst; ep]} ∪ slot_fds cl ⊆ opened k
  ∧ ep ≠ sfd ∧ ep ≠ lst ∧ (ep ∉ slot_fds cl)
  ∧ (sfd ∉ slot_fds cl) ∧ (lst ∉ slot_fds cl)
  ∧ ∀ x, x ∈ slot_fds cl → 0 ≤ x.

(** Following a trace on the kernel's side.  [None] stands for a kernel
    that has broken its allocation rule, after which nothing is claimed;
    otherwise the trace closes no registered identifier and leads to the
    replayed state. *)
Definition followed (ep : Z) (s : option kernel) (tr : list event)
    (s' : option kernel) : Prop :=
  match s with
  | Some k =>
      if well_allocated ep k tr
      then (disciplined ep k tr = true ∧ s' = Some (kreplay ep k tr))
      else (s' = None)
  | None => s' = None
  end.

Definition fits (sfd lst ep : Z) (s : option kernel) (cl : option Client.t)
    (_ : bool) : Prop :=
  match s with
  | Some k => registered_as sfd lst ep k cl
  | None => True
  end.

(** A line that reports the removal of the active client. *)
Definition is_removal (e : event) : bool :=
  match e with
  | Out LClosed | Out LRecvError => true
  | _ => false
  end.

(** An event that neither reports a removal nor accepts a connection. *)
Definition quiet (e : event) : bool :=
  negb (is_removal e) && negb (accepts_connection e).

(** Following a trace for the reuse of the slot.  [w] tells whether the
    client has been removed and no connection has been accepted since; a
    removal sets it, an accepted connection clears it.  The result is [None]
    if a connection accepted while [w] is set is not admitted, and the last
    value of [w] otherwise. *)
Fixpoint readmits (ep : Z) (w : bool) (tr : list event) : option bool :=
  match tr with
  | [] => Some w
  | e :: tr' =>
      match e with
      | Out LClosed | Out LRecvError => readmits ep true tr'
      | SysAccept _ nf =>
          if 0 <=? nf
          then (if w && negb (admission ep nf tr') then None else readmits ep false tr')
          else readmits ep w tr'
      | _ => readmits ep w tr'
      end
  end.

(** An event that leaves the kernel state as it is. *)
Definition inert (e : event) : bool :=
  match e with
  | SysClose _ | SysEpollAdd _ _ | SysEpollDel _ _ => false
  | _ => match allocated e with Some _ => false | None => true end
  end.

(** ** Sample inputs *)

Definition flags_ok : fcntl_result := {| getfl_ret := 2; setfl_ret := 0 |}.

(** A start in which every call succeeds: the signalfd is 3, the listening
    socket 4, the epoll instance 5. *)
Definition listener_ok : Listener.boot :=
  {| Listener.socket_ret := 4; Listener.setsockopt_ret := 0;
     Listener.bind_ret := 0; Listener.listen_ret := 0;
     Listener.nonblock := flags_ok |}.

Definition boot_ok : boot :=
  {| signalfd_ret := 3; listener_boot := listener_ok; epoll_create_ret := 5 |}.

(** The same start, except that [setsockopt] and the second [fcntl] fail. *)
Definition listener_options_fail : Listener.boot :=
  {| Listener.socket_ret := 4; Listener.setsockopt_ret := -1;
     Listener.bind_ret := 0; Listener.listen_ret := 0;
     Listener.nonblock := {| getfl_ret := 2; setfl_ret := -1 |} |}.

Definition boot_options_fail : boot :=
  {| signalfd_ret := 3; listener_boot := listener_options_fail;
     epoll_create_ret := 5 |}.

(** The same start, except that the port is taken. *)
Definition listener_bind_fails : Listener.boot :=
  {| Listener.socket_ret := 4; Listener.setsockopt_ret := 0;
     Listener.bind_ret := -1; Listener.listen_ret := 0;
     Listener.nonblock := flags_ok |}.

Definition boot_bind_fails : boot :=
  {| signalfd_ret := 3; listener_boot := listener_bind_fails;
     epoll_create_ret := 5 |}.

Definition accepted (x : Z) : accept_result :=
  {| acc_ret := x; acc_errno := 0; acc_nonblock := flags_ok |}.
Definition received (n : Z) : recv_result := {| recv_ret := n; recv_errno := 0 |}.
Definition recv_failed (e : Z) : recv_result := {| recv_ret := -1; recv_errno := e |}.
Definition signal (signo : Z) : read_result :=
  {| read_ret := sizeof_siginfo; ssi_signo := signo |}.
Definition ready (xs : list Z) : wait_result :=
  {| wait_ret := Z.of_nat (length xs); wait_events := xs |}.

(** A client connects and is served; the process is then told to
    terminate. *)
Definition waits_client_then_term : list wait_result := [ready [4]; ready [3]].
Definition script_client_then_term : pending :=
  {| sigreads := [signal SIGTERM]; accepts := [accepted 6]; recvs := [] |}.

Definition argv_9090 : list string := ["server"; "9090"]%string.

(** A client connects, sends ten bytes and closes the connection; a second
    client connects, and gets the identifier the first one had; the process
    is then told to terminate. *)
Definition waits_reconnect : list wait_result :=
  [ready [4]; ready [6]; ready [4]; ready [3]].
Definition script_reconnect : pending :=
  {| sigreads := [signal SIGTERM];
     accepts := [accepted 6; accept_would_block; accepted 6];
     recvs := [received 10; received 0] |}.

(** ** Further readings of streams and traces *)

(** The identifiers returned by the calls of [accept] at the front of the
    stream that succeed; the first failing call ends them. *)
Fixpoint accepted_fds (acs : list accept_result) : list Z :=
  match acs with
  | [] => []
  | a :: acs' => if acc_ret a <? 0 then [] else acc_ret a :: accepted_fds acs'
  end.

(** What is left of the stream after those and the failing call. *)
Fixpoint unaccepted (acs : list accept_result) : list accept_result :=
  match acs with
  | [] => []
  | a :: acs' => if acc_ret a <? 0 then acs' else unaccepted acs'
  end.

(** The identifiers closed in a trace, in order. *)
Definition closes (tr : list event) : list Z :=
  omap (λ e, match e with SysClose x => Some x | _ => None end) tr.

(** The identifiers registered in a trace, in order. *)
Definition adds (tr : list event) : list Z :=
  omap (λ e, match e with SysEpollAdd _ x => Some x | _ => None end) tr.

(** What the receive loop does for one chunk of data. *)
Definition chunk_events (c : Client.t) (r : recv_result) : list event :=
  [SysRecv (Client.fd c) buf_size (recv_ret r); Out (LReceived (recv_ret r))].

(** The event of a wait. *)
Definition wait_event (ep : Epoll.t) (w : wait_result) : event :=
  SysEpollWait (Epoll.fd ep) events_size (-1) (wait_ret w).

(** The array of ready entries after a sequence of waits. *)
Definition events_after (ep : Epoll.t) (ws : list wait_result) (evs : list Z) : list Z :=
  fold_left (λ out w, snd (fst (Epoll.wait ep w out events_size (-1)))) ws evs.

Definition is_wait (e : event) : bool :=
  match e with SysEpollWait _ _ _ _ => true | _ => false end.

(** No call of [epoll_wait] comes after the line that reports SIGTERM;
    [seen] tells whether that line has been written before the trace
    begins. *)
Fixpoint no_wait_after_term (seen : bool) (tr : list event) : bool :=
  match tr with
  | [] => true
  | e :: tr' =>
      negb (seen && is_wait e)
      && no_wait_after_term (seen || bool_decide (e = Out LSigTerm)) tr'
  end.

(** The body of the [for] loop applied to a list of ready identifiers, one
    after the other. *)
Fixpoint dispatch_all (sfd : SignalFd.t) (lst : Listener.t) (ep : Epoll.t)
    (xs : list Z) (st : loop_state) (p : pending)
  : loop_state * pending * list event :=
  match xs with
  | [] => (st, p, [])
  | x :: xs' =>
      let '(st1, p1, tr1) := dispatch sfd lst ep x st p in
      let '(st2, p2, tr2) := dispatch_all sfd lst ep xs' st1 p1 in
      (st2, p2, tr1 ++ tr2)
  end.

(** ** Calls and the identifiers they need *)

(** The identifiers a call operates on. *)
Definition operands (e : event) : list Z :=
  match e with
  | SysClose x => [x]
  | SysFcntlGetfl x _ | SysFcntlSetfl x _ _ => [x]
  | SysEpollAdd ep x | SysEpollDel ep x => [ep; x]
  | SysEpollWait ep _ _ _ => [ep]
  | SysRead x _ => [x]
  | SysSetsockopt x _ | SysBind x _ _ | SysListen x _ => [x]
  | SysAccept x _ => [x]
  | SysRecv x _ _ => [x]
  | _ => []
  end.

(** Every identifier the call operates on is open. *)
Definition uses_open (k : kernel) (e : event) : bool :=
  forallb (λ x, bool_decide (x ∈ opened k)) (operands e).

(** A registration is of an identifier that is not in the interest list, a
    deregistration of one that is. *)
Definition registers_properly (k : kernel) (e : event) : bool :=
  match e with
  | SysEpollAdd _ x => bool_decide (x ∉ interest k)
  | SysEpollDel _ x => bool_decide (x ∈ interest k)
  | _ => true
  end.

Definition orderly (k : kernel) (e : event) : bool :=
  uses_open k e && registers_properly k e.

(** [followed], for any check of events in place of [disciplined]. *)
Definition followed_by (ok : kernel → event → bool) (ep : Z) (s : option kernel)
    (tr : list event) (s' : option kernel) : Prop :=
  match s with
  | Some k =>
      if well_allocated ep k tr
      then (always ok ep k tr = true ∧ s' = Some (kreplay ep k tr))
      else (s' = None)
  | None => s' = None
  end.

(** The identifier a handle owns, as a set. *)
Definition owned (h : UniqueFd.t) : gset Z :=
  if UniqueFd.valid h then {[UniqueFd.get h]} else ∅.

(** [fits], with the open identifiers known exactly: those the process
    started with, [o], and the four of the program, none of which is in
    [o]. *)
Definition fits_exactly (sfd lst ep : Z) (o : gset Z) (s : option kernel)
    (cl : option Client.t) (_ : bool) : Prop :=
  match s with
  | Some k =>
      registered_as sfd lst ep k cl
      ∧ opened k = o ∪ {[sfd; lst; ep]} ∪ slot_fds cl
      ∧ (sfd ∉ o) ∧ (lst ∉ o) ∧ (ep ∉ o) ∧ (∀ x, x ∈ slot_fds cl → x ∉ o)
      ∧ sfd ≠ lst
  | None => True
  end.

(** From [k], if the kernel keeps to its allocation rule along the trace,
    every call of the trace is orderly and the trace ends in a state that
    satisfies [Q]. *)
Definition leads (ep : Z) (k : kernel) (tr : list event) (Q : kernel → Prop) : Prop :=
  well_allocated ep k tr = true →
  always orderly ep k tr = true ∧ Q (kreplay ep k tr).

(** Before the loop and after it: nothing is registered, and the
    identifiers open are those the process started with and the set [X] the
    program holds. *)
Definition holding (o X : gset Z) (k : kernel) : Prop :=
  interest k = ∅ ∧ opened k = o ∪ X ∧ X ## o.

(** * Properties *)

(** ** Handles *)

Section HandleFacts.

Import Handles.

Lemma held_insert (σ : store) (a b : addr) (h : UniqueFd.t) :
  held (<[a := h]> σ) b = if decide (a = b) then Some (UniqueFd.fd_ h) else held σ b.
Proof. unfold held. rewrite lookup_insert. by case_decide. Qed.

Lemma held_delete (σ : store) (a b : addr) :
  held (delete a σ) b = if decide (a = b) then None else held σ b.
Proof. unfold held. rewrite lookup_delete. by case_decide. Qed.

Lemma held_Some (σ : store) (a : addr) (x : Z) :
  held σ a = Some x ↔ σ !! a = Some (UniqueFd.mk x).
Proof.
  unfold held. destruct (σ !! a) as [[y]|]; simpl; split; intros H;
    by simplify_eq.
Qed.

(** Overwriting one object with the empty handle cannot create a second
    owner. *)
Lemma exclusive_release (σ : store) (a : addr) :
  exclusive σ → exclusive (<[a := UniqueFd.mk (-1)]> σ).
Proof.
  intros Hex b c x. rewrite !held_insert.
  repeat case_decide; intros; simplify_eq; eauto.
Qed.

(** Handing the identifier of [o] to [a] while emptying [o] keeps every
    identifier with one owner. *)
Lemma exclusive_transfer (σ : store) (a o : addr) (x : Z) :
  a ≠ o → held σ o = Some x → exclusive σ →
  exclusive (<[o := UniqueFd.mk (-1)]> (<[a := UniqueFd.mk x]> σ)).
Proof.
  intros Hne Ho Hex b c y. rewrite !held_insert.
  repeat case_decide; simpl; intros Hb Hc Hy; simplify_eq; try done.
  all: try pose proof (Hex o c y Ho Hc Hy).
  all: try pose proof (Hex o b y Ho Hb Hy).
  all: try pose proof (Hex b c y Hb Hc Hy).
  all: congruence.
Qed.

Lemma exclusive_delete (σ : store) (a : addr) :
  exclusive σ → exclusive (delete a σ).
Proof.
  intros Hex b c x. rewrite !held_delete.
  repeat case_decide; intros; simplify_eq; eauto.
Qed.

(** Giving the handle at [a] an identifier that no other handle holds. *)
Lemma exclusive_take (σ : store) (a : addr) (fd : Z) :
  free_for σ a fd → exclusive σ → exclusive (<[a := UniqueFd.mk fd]> σ).
Proof.
  intros Hfree Hex b c y. rewrite !held_insert.
  repeat case_decide; simpl; intros Hb Hc Hy; simplify_eq; try done.
  - destruct Hfree as [?|Hfree]; [done|]. by destruct (Hfree c).
  - destruct Hfree as [?|Hfree]; [done|]. by destruct (Hfree b).
  - by apply (Hex b c y).
Qed.

Lemma apply_exclusive (σ : store) (x : op) :
  exclusive σ → applicable σ x → exclusive (fst (apply σ x)).
Proof.
  intros Hex Happ. destruct x as [a|a fd|a newfd|a|a o|this o]; simpl.
  - by apply exclusive_release.
  - destruct Happ as [_ Hfree]. by apply exclusive_take.
  - unfold reset. destruct (σ !! a) as [h|]; simpl; [|done].
    by apply exclusive_take.
  - unfold destroy. destruct (σ !! a) as [h|]; simpl; [|done].
    by apply exclusive_delete.
  - unfold move_construct. destruct (σ !! o) as [[x]|] eqn:Ho; simpl; [|done].
    apply exclusive_transfer; [|by apply held_Some|done].
    simpl in Happ. intros ->. congruence.
  - unfold move_assign. case_decide; [done|].
    destruct (σ !! this) as [ht|]; [|done].
    destruct (σ !! o) as [[x]|] eqn:Ho; simpl; [|done].
    apply exclusive_transfer; [done|by apply held_Some|done].
Qed.

End HandleFacts.

Lemma exclusive_single (a : Handles.addr) (x : Z) :
  Handles.exclusive (Handles.construct ∅ a x).
Proof.
  intros b c y. unfold Handles.construct. rewrite !held_insert.
  unfold Handles.held. rewrite !lookup_empty.
  repeat case_decide; simpl; intros; simplify_eq; done.
Qed.

Lemma move_assign_distinct (σ : Handles.store) (this o : Handles.addr) (old x : Z) :
  this ≠ o → Handles.held σ this = Some old → Handles.held σ o = Some x →
  Handles.held (fst (Handles.move_assign σ this o)) this = Some x
  ∧ Handles.held (fst (Handles.move_assign σ this o)) o = Some (-1)
  ∧ snd (Handles.move_assign σ this o)
    = (if decide (old = -1) then [] else [SysClose old]).
Proof.
  intros Hne Ht Ho. apply held_Some in Ht, Ho.
  unfold Handles.move_assign. rewrite decide_False by done.
  rewrite Ht, Ho. simpl. rewrite !held_insert.
  rewrite decide_False by done. rewrite !decide_True by done.
  repeat split. case_decide as Hold.
  - subst old. reflexivity.
  - destruct (Z.eqb_spec old (-1)); [done|reflexivity].
Qed.

Lemma move_construct_transfers (σ : Handles.store) (a o : Handles.addr) (x : Z) :
  σ !! a = None → Handles.held σ o = Some x →
  Handles.held (Handles.move_construct σ a o) a = Some x
  ∧ Handles.held (Handles.move_construct σ a o) o = Some (-1).
Proof.
  intros Ha Ho. apply held_Some in Ho.
  assert (a ≠ o) by (intros ->; congruence).
  unfold Handles.move_construct. rewrite Ho. simpl. rewrite !held_insert.
  rewrite decide_False by done. by rewrite !decide_True by done.
Qed.

Lemma reset_empty (σ : Handles.store) (a : Handles.addr) :
  Handles.held σ a = Some (-1) → Handles.reset σ a (-1) = (σ, []).
Proof.
  intros Ha. apply held_Some in Ha. unfold Handles.reset. rewrite Ha. simpl.
  by rewrite insert_id.
Qed.

Lemma reset_twice (σ : Handles.store) (a : Handles.addr) :
  Handles.reset (fst (Handles.reset σ a (-1))) a (-1)
  = (fst (Handles.reset σ a (-1)), []).
Proof.
  unfold Handles.reset at 2 3. destruct (σ !! a) as [h|] eqn:Ha; simpl.
  - apply reset_empty. by rewrite held_insert, decide_True.
  - unfold Handles.reset. by rewrite Ha.
Qed.

Lemma destroy_closes_once (σ : Handles.store) (a : Handles.addr) (x : Z) :
  Handles.held σ a = Some x → x ≠ -1 →
  Handles.destroy σ a = (delete a σ, [SysClose x]).
Proof.
  intros Ha Hx. apply held_Some in Ha. unfold Handles.destroy. rewrite Ha.
  unfold UniqueFd.destroy. simpl.
  destruct (Z.eqb_spec x (-1)); [done|reflexivity].
Qed.

Lemma free_for_single (a b : Handles.addr) (x y : Z) :
  x ≠ y → Handles.free_for (Handles.construct ∅ a x) b y.
Proof.
  intros Hne. right. intros c _. unfold Handles.construct.
  rewrite held_insert. unfold Handles.held. rewrite lookup_empty.
  case_decide; simpl; congruence.
Qed.

(** C8, as stated, fails in two places.  Move-assigning a handle to itself
    leaves the source holding its identifier, not the empty sentinel.  And
    the explicit constructor takes whatever identifier it is given: a second
    handle constructed from an identifier that a live handle holds owns it
    too, and destroying the two closes the identifier twice. *)
Lemma handle_discipline_fails :
  let σ := Handles.construct ∅ 0%nat 7 in
  let σ2 := fst (Handles.apply σ (Handles.OpConstruct 1%nat 7)) in
  (Handles.held (fst (Handles.move_assign σ 0%nat 0%nat)) 0%nat = Some 7
   ∧ Handles.held (fst (Handles.move_assign σ 0%nat 0%nat)) 0%nat ≠ Some (-1)
   ∧ snd (Handles.move_assign σ 0%nat 0%nat) = [])
  ∧ (Handles.exclusive σ
     ∧ Handles.held σ2 0%nat = Some 7
     ∧ Handles.held σ2 1%nat = Some 7
     ∧ ¬ Handles.exclusive σ2
     ∧ snd (Handles.destroy σ2 0%nat) = [SysClose 7]
     ∧ snd (Handles.destroy (fst (Handles.destroy σ2 0%nat)) 1%nat) = [SysClose 7]).
Proof.
  intros σ σ2. split; [by vm_compute|].
  split; [apply exclusive_single|].
  assert (Handles.held σ2 0%nat = Some 7) as H0 by (vm_compute; reflexivity).
  assert (Handles.held σ2 1%nat = Some 7) as H1 by (vm_compute; reflexivity).
  split_and!; try done; try (vm_compute; reflexivity).
  intros Hex. by pose proof (Hex 0%nat 1%nat 7 H0 H1 ltac:(lia)).
Qed.

(** C8 (amended): an identifier never has more than one live owner, provided
    every identifier handed to a handle by the explicit constructor or by
    [reset(newfd)] is not held by another handle at that moment, which the
    class leaves to its caller; this holds over every operation of the
    class.  Move-construction, and move-assignment from a different object,
    leave the source holding -1 and the destination holding the source's
    identifier (move-assignment first closing what the destination held);
    move-assignment of an object to itself changes nothing; [reset()] on an
    empty handle does nothing, so a second [reset()] never closes again;
    destroying a non-empty handle closes its identifier once.  The class has
    no copy operation. *)
Theorem handle_ownership :
  (∀ σ x, Handles.exclusive σ → Handles.applicable σ x →
     Handles.exclusive (fst (Handles.apply σ x)))
  ∧ (∀ σ a o x, σ !! a = None → Handles.held σ o = Some x →
       Handles.held (Handles.move_construct σ a o) a = Some x
       ∧ Handles.held (Handles.move_construct σ a o) o = Some (-1))
  ∧ (∀ σ this o old x,
       this ≠ o → Handles.held σ this = Some old → Handles.held σ o = Some x →
       Handles.held (fst (Handles.move_assign σ this o)) this = Some x
       ∧ Handles.held (fst (Handles.move_assign σ this o)) o = Some (-1)
       ∧ snd (Handles.move_assign σ this o)
         = (if decide (old = -1) then [] else [SysClose old]))
  ∧ (∀ σ a, Handles.move_assign σ a a = (σ, []))
  ∧ (∀ σ a, Handles.held σ a = Some (-1) → Handles.reset σ a (-1) = (σ, []))
  ∧ (∀ σ a, Handles.reset (fst (Handles.reset σ a (-1))) a (-1)
            = (fst (Handles.reset σ a (-1)), []))
  ∧ (∀ σ a x, Handles.held σ a = Some x → x ≠ -1 →
       Handles.destroy σ a = (delete a σ, [SysClose x])).
Proof.
  split_and!.
  - apply apply_exclusive.
  - apply move_construct_transfers.
  - apply move_assign_distinct.
  - intros σ a. unfold Handles.move_assign. by rewrite decide_True.
  - apply reset_empty.
  - apply reset_twice.
  - apply destroy_closes_once.
Qed.

Lemma handle_ownership_witness :
  let σ := Handles.construct (Handles.construct ∅ 0%nat 7) 1%nat 9 in
  Handles.exclusive
    (fst (Handles.apply (Handles.construct ∅ 0%nat 7)
            (Handles.OpMoveConstruct 1%nat 0%nat)))
  ∧ Handles.exclusive
      (fst (Handles.apply (Handles.construct ∅ 0%nat 7)
              (Handles.OpConstruct 1%nat 9)))
  ∧ Handles.exclusive
      (fst (Handles.apply (Handles.construct ∅ 0%nat 7) (Handles.OpReset 0%nat 9)))
  ∧ Handles.held (fst (Handles.move_assign σ 0%nat 1%nat)) 1%nat = Some (-1)
  ∧ Handles.destroy σ 1%nat = (delete 1%nat σ, [SysClose 9]).
Proof.
  intros σ. split_and!.
  - apply (proj1 handle_ownership).
    + apply exclusive_single.
    + reflexivity.
  - apply (proj1 handle_ownership).
    + apply exclusive_single.
    + split; [reflexivity|]. apply free_for_single. lia.
  - apply (proj1 handle_ownership).
    + apply exclusive_single.
    + apply free_for_single. lia.
  - apply (proj1 (proj2 (proj2 handle_ownership)) σ 0%nat 1%nat 7 9).
    + lia.
    + reflexivity.
    + reflexivity.
  - apply (proj2 (proj2 (proj2 (proj2 (proj2 (proj2 handle_ownership))))) σ 1%nat 9).
    + reflexivity.
    + lia.
Defined.

(** ** Listener construction *)

Lemma listener_create_socket_fails (port : Z) (k : Listener.boot) :
  Listener.socket_ret k < 0 →
  Listener.create port k
  = (Listener.mk UniqueFd.empty, [SysSocket (Listener.socket_ret k)]).
Proof. intros H. unfold Listener.create. by rewrite (proj2 (Z.ltb_lt _ _) H). Qed.

Lemma listener_create_bind_fails (port : Z) (k : Listener.boot) :
  0 ≤ Listener.socket_ret k → Listener.bind_ret k < 0 →
  Listener.create port k
  = (Listener.mk UniqueFd.empty,
     [SysSocket (Listener.socket_ret k);
      SysSetsockopt (Listener.socket_ret k) (Listener.setsockopt_ret k);
      SysBind (Listener.socket_ret k) port (Listener.bind_ret k);
      SysClose (Listener.socket_ret k)]).
Proof.
  intros Hs Hb. unfold Listener.create.
  rewrite (proj2 (Z.ltb_ge _ _) Hs). by rewrite (proj2 (Z.ltb_lt _ _) Hb).
Qed.

Lemma listener_create_listen_fails (port : Z) (k : Listener.boot) :
  0 ≤ Listener.socket_ret k → 0 ≤ Listener.bind_ret k → Listener.listen_ret k < 0 →
  Listener.create port k
  = (Listener.mk UniqueFd.empty,
     [SysSocket (Listener.socket_ret k);
      SysSetsockopt (Listener.socket_ret k) (Listener.setsockopt_ret k);
      SysBind (Listener.socket_ret k) port (Listener.bind_ret k);
      SysListen (Listener.socket_ret k) (Listener.listen_ret k);
      SysClose (Listener.socket_ret k)]).
Proof.
  intros Hs Hb Hl. unfold Listener.create.
  rewrite (proj2 (Z.ltb_ge _ _) Hs), (proj2 (Z.ltb_ge _ _) Hb).
  by rewrite (proj2 (Z.ltb_lt _ _) Hl).
Qed.

Lemma listener_create_succeeds (port : Z) (k : Listener.boot) :
  0 ≤ Listener.socket_ret k → 0 ≤ Listener.bind_ret k → 0 ≤ Listener.listen_ret k →
  Listener.create port k
  = (Listener.mk (UniqueFd.mk (Listener.socket_ret k)),
     [SysSocket (Listener.socket_ret k);
      SysSetsockopt (Listener.socket_ret k) (Listener.setsockopt_ret k);
      SysBind (Listener.socket_ret k) port (Listener.bind_ret k);
      SysListen (Listener.socket_ret k) (Listener.listen_ret k);
      SysFcntlGetfl (Listener.socket_ret k) (getfl_ret (Listener.nonblock k));
      SysFcntlSetfl (Listener.socket_ret k)
        (Z.lor (getfl_ret (Listener.nonblock k)) O_NONBLOCK)
        (setfl_ret (Listener.nonblock k))]).
Proof.
  intros Hs Hb Hl. unfold Listener.create.
  rewrite (proj2 (Z.ltb_ge _ _) Hs), (proj2 (Z.ltb_ge _ _) Hb).
  by rewrite (proj2 (Z.ltb_ge _ _) Hl).
Qed.

(** The listener is invalid exactly when [socket], [bind] or [listen]
    failed. *)
Lemma listener_valid_iff (port : Z) (k : Listener.boot) :
  Listener.valid (fst (Listener.create port k)) = true
  ↔ 0 ≤ Listener.socket_ret k ∧ 0 ≤ Listener.bind_ret k ∧ 0 ≤ Listener.listen_ret k.
Proof.
  destruct (Z.lt_ge_cases (Listener.socket_ret k) 0) as [Hs|Hs].
  { rewrite listener_create_socket_fails by done. simpl. split; [done|lia]. }
  destruct (Z.lt_ge_cases (Listener.bind_ret k) 0) as [Hb|Hb].
  { rewrite listener_create_bind_fails by done. simpl. split; [done|lia]. }
  destruct (Z.lt_ge_cases (Listener.listen_ret k) 0) as [Hl|Hl].
  { rewrite listener_create_listen_fails by done. simpl. split; [done|lia]. }
  rewrite listener_create_succeeds by done.
  unfold Listener.valid, UniqueFd.valid. simpl. split; [done|intros _].
  destruct (Z.eqb_spec (Listener.socket_ret k) (-1)); [lia|done].
Qed.

(** A start in which an object is invalid never reaches the loop. *)
Lemma serve_failed (argv : list string) (k : boot) (ws : list wait_result) (p : pending) :
  let '(sfd, lst, ep, tr) := construct (select_port argv) k in
  SignalFd.valid sfd && Listener.valid lst && Epoll.valid ep = false →
  serve argv k ws p = (Failed, tr).
Proof.
  unfold serve. destruct (construct _ _) as [[[sfd lst] ep] tr].
  intros H.
  destruct (SignalFd.valid sfd), (Listener.valid lst), (Epoll.valid ep);
    simpl in *; congruence.
Qed.

Lemma construct_fst (port : Z) (k : boot) :
  fst (construct port k)
  = (fst (SignalFd.create [SIGHUP; SIGTERM] (signalfd_ret k)),
     fst (Listener.create port (listener_boot k)),
     fst (Epoll.create (epoll_create_ret k))).
Proof.
  unfold construct. destruct (SignalFd.create _ _), (Listener.create _ _).
  reflexivity.
Qed.

Lemma main_unfold (argv : list string) (k : boot) (ws : list wait_result) (p : pending) :
  main argv k ws p
  = {| exit_code := fst (leave argv k (fst (serve argv k ws p)));
       trace := snd (serve argv k ws p)
                  ++ snd (leave argv k (fst (serve argv k ws p))) |}.
Proof.
  unfold main. destruct (serve argv k ws p) as [ph tr]. simpl.
  by destruct (leave argv k ph).
Qed.

Lemma leave_code (argv : list string) (k : boot) (ph : phase) :
  fst (leave argv k ph)
  = match ph with Failed => Some 1 | Stopped _ => Some 0 | Waiting => None end.
Proof.
  unfold leave. destruct (construct _ _) as [[[sfd lst] ep] tr]. by destruct ph.
Qed.

Lemma exit_code_phase (argv : list string) (k : boot) (ws : list wait_result) (p : pending) :
  exit_code (main argv k ws p)
  = match fst (serve argv k ws p) with
    | Failed => Some 1
    | Stopped _ => Some 0
    | Waiting => None
    end.
Proof. rewrite main_unfold. simpl. apply leave_code. Qed.

Lemma outside_loop_app (tr1 tr2 : list event) :
  outside_loop (tr1 ++ tr2) = outside_loop tr1 && outside_loop tr2.
Proof. apply forallb_app. Qed.

Lemma destroy_outside_loop (h : UniqueFd.t) : outside_loop (UniqueFd.destroy h) = true.
Proof. unfold UniqueFd.destroy. simpl. by destruct (negb _). Qed.

Lemma construct_outside_loop (port : Z) (k : boot) :
  outside_loop (snd (construct port k)) = true.
Proof.
  unfold construct, SignalFd.create, Listener.create, Epoll.create. simpl.
  repeat match goal with |- context [if ?b then _ else _] => destruct b end;
    reflexivity.
Qed.

Lemma teardown_outside_loop sfd lst ep cl :
  outside_loop (teardown sfd lst ep cl) = true.
Proof.
  unfold teardown. rewrite !outside_loop_app.
  unfold Epoll.destroy, Listener.destroy, SignalFd.destroy.
  rewrite !destroy_outside_loop.
  destruct cl as [c|]; simpl; [|done].
  unfold Client.destroy. by rewrite destroy_outside_loop.
Qed.

(** When an object is invalid, [main] returns 1 and has done nothing but
    construct and destroy, whatever the script. *)
Lemma main_failed (argv : list string) (k : boot) (ws : list wait_result) (p : pending) :
  fst (serve argv k ws p) = Failed →
  exit_code (main argv k ws p) = Some 1
  ∧ outside_loop (trace (main argv k ws p)) = true
  ∧ main argv k ws p = main argv k [] nothing_pending.
Proof.
  intros Hph. split_and!.
  - by rewrite exit_code_phase, Hph.
  - rewrite main_unfold. simpl. rewrite Hph.
    revert Hph. unfold serve, leave.
    pose proof (construct_outside_loop (select_port argv) k) as Hc.
    destruct (construct _ _) as [[[sfd lst] ep] tr]. simpl in Hc.
    destruct (_ || _); simpl.
    + intros _. by rewrite outside_loop_app, Hc, teardown_outside_loop.
    + destruct (main_loop _ _ _ _ _ _) as [[[st q]|] tr']; discriminate.
  - revert Hph. unfold main, serve.
    destruct (construct _ _) as [[[sfd lst] ep] tr].
    destruct (_ || _); simpl; [done|].
    destruct (main_loop _ _ _ _ _ _) as [[[st q]|] tr']; discriminate.
Qed.

Lemma serve_failed_iff (argv : list string) (k : boot) (ws : list wait_result) (p : pending) :
  fst (serve argv k ws p) = Failed
  ↔ SignalFd.valid (fst (SignalFd.create [SIGHUP; SIGTERM] (signalfd_ret k)))
    && Listener.valid (fst (Listener.create (select_port argv) (listener_boot k)))
    && Epoll.valid (fst (Epoll.create (epoll_create_ret k))) = false.
Proof.
  pose proof (construct_fst (select_port argv) k) as Hc.
  unfold serve. destruct (construct _ _) as [[[sfd lst] ep] tr].
  simpl in Hc. inversion Hc; subst; clear Hc.
  destruct (SignalFd.valid _), (Listener.valid _), (Epoll.valid _); simpl;
    try (split; [done|discriminate]); try (split; done).
  destruct (main_loop _ _ _ _ _ _) as [[[st q]|] tr']; simpl; split; discriminate.
Qed.

(** C7, as stated, fails: when only the address-reuse option and the
    non-blocking mark fail, the listener is valid and the process goes on to
    the loop. *)
Lemma listener_valid_despite_failed_options :
  Listener.create 9090 listener_options_fail
  = (Listener.mk (UniqueFd.mk 4),
     [SysSocket 4; SysSetsockopt 4 (-1); SysBind 4 9090 0; SysListen 4 0;
      SysFcntlGetfl 4 2; SysFcntlSetfl 4 2050 (-1)])
  ∧ Listener.valid (fst (Listener.create 9090 listener_options_fail)) = true
  ∧ exit_code (main argv_9090 boot_options_fail [] nothing_pending) = None
  ∧ lines (trace (main argv_9090 boot_options_fail [] nothing_pending))
    = [LListening 9090].
Proof. by vm_compute. Qed.

(** C7 (amended): the constructor calls [socket], [setsockopt], [bind],
    [listen] and the two [fcntl]s of [set_nonblock], in that order.  If
    [socket], [bind] or [listen] fails, the calls stop there, the socket (if
    one was obtained) is closed, the handle stays unset, and [main] returns 1
    without a single call of the loop.  The results of [setsockopt] and
    [fcntl] are not looked at. *)
Theorem listener_construction (port : Z) (k : Listener.boot) :
  let s := Listener.socket_ret k in
  let l := fst (Listener.create port k) in
  let tr := snd (Listener.create port k) in
  (s < 0 → l = Listener.mk UniqueFd.empty ∧ tr = [SysSocket s])
  ∧ (0 ≤ s → Listener.bind_ret k < 0 →
       l = Listener.mk UniqueFd.empty
       ∧ tr = [SysSocket s; SysSetsockopt s (Listener.setsockopt_ret k);
               SysBind s port (Listener.bind_ret k); SysClose s])
  ∧ (0 ≤ s → 0 ≤ Listener.bind_ret k → Listener.listen_ret k < 0 →
       l = Listener.mk UniqueFd.empty
       ∧ tr = [SysSocket s; SysSetsockopt s (Listener.setsockopt_ret k);
               SysBind s port (Listener.bind_ret k);
               SysListen s (Listener.listen_ret k); SysClose s])
  ∧ (0 ≤ s → 0 ≤ Listener.bind_ret k → 0 ≤ Listener.listen_ret k →
       Listener.valid l = true ∧ Listener.fd l = s
       ∧ tr = [SysSocket s; SysSetsockopt s (Listener.setsockopt_ret k);
               SysBind s port (Listener.bind_ret k);
               SysListen s (Listener.listen_ret k);
               SysFcntlGetfl s (getfl_ret (Listener.nonblock k));
               SysFcntlSetfl s (Z.lor (getfl_ret (Listener.nonblock k)) O_NONBLOCK)
                 (setfl_ret (Listener.nonblock k))])
  ∧ (Listener.valid l = false
     ↔ s < 0 ∨ Listener.bind_ret k < 0 ∨ Listener.listen_ret k < 0)
  ∧ (∀ argv b ws p,
       listener_boot b = k → port = select_port argv → Listener.valid l = false →
       exit_code (main argv b ws p) = Some 1
       ∧ outside_loop (trace (main argv b ws p)) = true
       ∧ main argv b ws p = main argv b [] nothing_pending).
Proof.
  intros s l tr. subst s l tr. split_and!.
  - intros H. by rewrite listener_create_socket_fails.
  - intros Hs Hb. by rewrite listener_create_bind_fails.
  - intros Hs Hb Hl. by rewrite listener_create_listen_fails.
  - intros Hs Hb Hl. rewrite listener_create_succeeds by done. simpl.
    split_and!; try done.
    unfold Listener.valid, UniqueFd.valid. simpl.
    destruct (Z.eqb_spec (Listener.socket_ret k) (-1)); [lia|done].
  - pose proof (listener_valid_iff port k) as Hv.
    destruct (Listener.valid _).
    + split; [done|]. intros H. pose proof (proj1 Hv eq_refl). lia.
    + split; [intros _|done].
      destruct (Z.lt_ge_cases (Listener.socket_ret k) 0); [lia|].
      destruct (Z.lt_ge_cases (Listener.bind_ret k) 0); [lia|].
      destruct (Z.lt_ge_cases (Listener.listen_ret k) 0); [lia|].
      assert (false = true); [apply Hv; lia|done].
  - intros argv b ws p Hb -> Hv. apply main_failed.
    apply serve_failed_iff. rewrite Hb, Hv.
    by destruct (SignalFd.valid _).
Qed.

Lemma listener_construction_witness :
  exit_code (main argv_9090 boot_bind_fails waits_client_then_term
               script_client_then_term) = Some 1
  ∧ snd (Listener.create 9090 listener_bind_fails)
    = [SysSocket 4; SysSetsockopt 4 0; SysBind 4 9090 (-1); SysClose 4].
Proof.
  pose proof (listener_construction 9090 listener_bind_fails) as H.
  simpl in H. destruct H as (_ & Hbind & _ & _ & _ & Hmain). split.
  - apply (Hmain argv_9090 boot_bind_fails); reflexivity.
  - apply Hbind; simpl; lia.
Defined.

(** ** Following a run of the loop

    Most properties of the loop have the same shape: some reading [J] of
    traces that composes along concatenation, related by [R] to the client
    slot and the stop flag.  If every primitive step of the loop (a wait, a
    signal read, one pass of the accept loop, one pass of the receive loop)
    keeps the relation, so do the loops built from them. *)

Lemma handle_eq (signo : Z) (b : bool) :
  SignalFd.handle signo b = (b || (signo =? SIGTERM), [Out (signal_line signo)]).
Proof.
  unfold SignalFd.handle, signal_line.
  destruct (Z.eqb_spec signo SIGHUP) as [->|_]; [by rewrite orb_false_r|].
  destruct (signo =? SIGTERM); [by rewrite orb_true_r|by rewrite orb_false_r].
Qed.

Lemma recv_step_continue (ep : Epoll.t) (c : Client.t) (r : recv_result) :
  fst (fst (recv_step ep c r)) = Continue → snd (fst (recv_step ep c r)) = Some c.
Proof.
  unfold recv_step. simpl. destruct (0 <? recv_ret r); [done|].
  destruct (recv_ret r =? 0); [done|]. by destruct (_ || _).
Qed.

Section Simulation.

Context {M : Type}.
Variable J : M → list event → M → Prop.
Variable R : M → option Client.t → bool → Prop.
Variables (sfd : SignalFd.t) (lst : Listener.t) (ep : Epoll.t).

Hypothesis J_nil : ∀ s, J s [] s.
Hypothesis J_app : ∀ s1 s2 s3 t1 t2, J s1 t1 s2 → J s2 t2 s3 → J s1 (t1 ++ t2) s3.

(** The trace [tr] can be followed from [s], to a state related to the slot
    [cl] and the flag [b]. *)
Let sim (s : M) (tr : list event) (cl : option Client.t) (b : bool) : Prop :=
  ∃ s', J s tr s' ∧ R s' cl b.

Hypothesis sim_wait : ∀ s cl b w out,
  R s cl b → sim s (snd (Epoll.wait ep w out events_size (-1))) cl b.
Hypothesis sim_read_end : ∀ s cl b ret,
  ret ≠ sizeof_siginfo → R s cl b → sim s [SysRead (SignalFd.fd sfd) ret] cl b.
Hypothesis sim_signal : ∀ s cl b signo,
  R s cl b →
  sim s [SysRead (SignalFd.fd sfd) sizeof_siginfo; Out (signal_line signo)]
    cl (b || (signo =? SIGTERM)).
Hypothesis sim_accept : ∀ s cl b a,
  R s cl b →
  sim s (snd (accept_step ep lst a cl)) (snd (fst (accept_step ep lst a cl))) b.
Hypothesis sim_recv : ∀ s c b r,
  R s (Some c) b →
  sim s (snd (recv_step ep c r)) (snd (fst (recv_step ep c r))) b.

Lemma sim_seq s tr1 cl1 b1 tr2 cl2 b2 :
  sim s tr1 cl1 b1 → (∀ s', R s' cl1 b1 → sim s' tr2 cl2 b2) →
  sim s (tr1 ++ tr2) cl2 b2.
Proof.
  intros (s1 & HJ1 & HR1) H2. destruct (H2 s1 HR1) as (s2 & HJ2 & HR2).
  exists s2. split; [by eapply J_app|done].
Qed.

Lemma sim_skip s cl b : R s cl b → sim s [] cl b.
Proof. intros HR. exists s. split; [apply J_nil|done]. Qed.

Lemma drain_loop_sim (rs : list read_result) s cl b b0 :
  R s cl (b || b0) →
  sim s (snd (fst (SignalFd.drain_loop sfd rs b0))) cl
    (b || fst (fst (SignalFd.drain_loop sfd rs b0))).
Proof.
  revert s b0. induction rs as [|r rs IH]; intros s b0 HR; simpl.
  - by apply sim_read_end.
  - unfold SignalFd.drain_step.
    destruct (Z.eqb_spec (read_ret r) sizeof_siginfo) as [Hr|Hr].
    + rewrite handle_eq, Hr.
      destruct (SignalFd.drain_loop sfd rs _) as [[bl tr] rest] eqn:Hd. simpl.
      apply (sim_seq _ [_; _] cl (b || (b0 || (ssi_signo r =? SIGTERM)))).
      * rewrite orb_assoc. by apply sim_signal.
      * intros s' HR'. specialize (IH s' _ HR'). by rewrite Hd in IH.
    + simpl. by apply sim_read_end.
Qed.

Lemma accept_loop_sim (acs : list accept_result) s cl b :
  R s cl b →
  sim s (snd (fst (accept_loop ep lst acs cl)))
    (fst (fst (accept_loop ep lst acs cl))) b.
Proof.
  revert s cl. induction acs as [|a acs IH]; intros s cl HR; simpl.
  - apply (sim_accept _ _ _ accept_would_block) in HR. exact HR.
  - pose proof (sim_accept _ _ _ a HR) as Hstep.
    destruct (accept_step ep lst a cl) as [[[|] cl'] tr]; simpl in *; [|done].
    destruct (accept_loop ep lst acs cl') as [[cl'' tr'] rest] eqn:Hl. simpl.
    eapply sim_seq; [exact Hstep|].
    intros s' HR'. specialize (IH s' cl' HR'). by rewrite Hl in IH.
Qed.

Lemma recv_loop_sim (rs : list recv_result) s c b :
  R s (Some c) b →
  sim s (snd (fst (recv_loop ep c rs))) (fst (fst (recv_loop ep c rs))) b.
Proof.
  revert s. induction rs as [|r rs IH]; intros s HR; simpl.
  - apply (sim_recv _ _ _ recv_would_block) in HR. exact HR.
  - pose proof (sim_recv _ _ _ r HR) as Hstep.
    pose proof (recv_step_continue ep c r) as Hc.
    destruct (recv_step ep c r) as [[[|] cl1] tr]; simpl in Hstep, Hc |- *;
      [|done].
    rewrite (Hc eq_refl) in Hstep.
    destruct (recv_loop ep c rs) as [[cl' tr'] rest] eqn:Hl. simpl.
    eapply sim_seq; [exact Hstep|].
    intros s' HR'. exact (IH s' HR').
Qed.

Lemma dispatch_sim (x : Z) (st : loop_state) (p : pending) s :
  R s (client st) (stop st) →
  sim s (snd (dispatch sfd lst ep x st p))
    (client (fst (fst (dispatch sfd lst ep x st p))))
    (stop (fst (fst (dispatch sfd lst ep x st p)))).
Proof.
  intros HR. unfold dispatch.
  destruct (x =? SignalFd.fd sfd).
  { unfold SignalFd.drain_and_handle.
    pose proof (drain_loop_sim (sigreads p) s (client st) (stop st) false) as H.
    rewrite orb_false_r in H. specialize (H HR).
    by destruct (SignalFd.drain_loop sfd (sigreads p) false) as [[b tr] rest]. }
  destruct (x =? Listener.fd lst).
  { pose proof (accept_loop_sim (accepts p) s _ _ HR) as H.
    by destruct (accept_loop ep lst (accepts p) (client st)) as [[cl tr] rest]. }
  destruct (client st) as [c|] eqn:Hc;
    [|simpl; rewrite Hc; by apply sim_skip].
  destruct (x =? Client.fd c); [|simpl; rewrite Hc; by apply sim_skip].
  pose proof (recv_loop_sim (recvs p) s _ _ HR) as H.
  by destruct (recv_loop ep c (recvs p)) as [[cl tr] rest].
Qed.

Lemma for_loop_sim (todo i : nat) (st : loop_state) (p : pending) s :
  R s (client st) (stop st) →
  sim s (snd (for_loop sfd lst ep i todo st p))
    (client (fst (fst (for_loop sfd lst ep i todo st p))))
    (stop (fst (fst (for_loop sfd lst ep i todo st p)))).
Proof.
  revert i st p s. induction todo as [|todo IH]; intros i st p s HR; simpl.
  - by apply sim_skip.
  - pose proof (dispatch_sim (nth i (events st) 0) st p s HR) as Hd.
    destruct (dispatch _ _ _ _ _ _) as [[st1 p1] tr1]. simpl in Hd.
    destruct (for_loop sfd lst ep (S i) todo st1 p1)
      as [[st2 p2] tr2] eqn:Hf. simpl.
    eapply sim_seq; [exact Hd|].
    intros s' HR'. specialize (IH (S i) st1 p1 s' HR').
    by rewrite Hf in IH.
Qed.

Lemma loop_body_sim (w : wait_result) (st : loop_state) (p : pending) s :
  R s (client st) (stop st) →
  sim s (snd (loop_body sfd lst ep w st p))
    (client (fst (fst (loop_body sfd lst ep w st p))))
    (stop (fst (fst (loop_body sfd lst ep w st p)))).
Proof.
  intros HR. unfold loop_body.
  pose proof (sim_wait _ _ _ w (events st) HR) as Hw.
  destruct (Epoll.wait ep w (events st) events_size (-1)) as [[n evs] tr_w].
  simpl in Hw. destruct (n <=? 0); [done|].
  destruct (for_loop _ _ _ _ _ _ _) as [[st2 p2] tr] eqn:Hf. simpl.
  eapply sim_seq; [exact Hw|].
  intros s' HR'.
  pose proof (for_loop_sim (Z.to_nat n) 0 (set_events evs st) p s' HR') as H.
  by rewrite Hf in H.
Qed.

Lemma main_loop_sim (ws : list wait_result) (st : loop_state) (p : pending) s :
  R s (client st) (stop st) →
  ∃ s', J s (snd (main_loop sfd lst ep ws st p)) s'
        ∧ match fst (main_loop sfd lst ep ws st p) with
          | Some (st', _) => R s' (client st') (stop st') ∧ stop st' = true
          | None => ∃ cl, R s' cl false
          end.
Proof.
  revert st p s. induction ws as [|w ws IH]; intros st p s HR; simpl.
  - destruct (stop st) eqn:Hs; simpl; exists s; (split; [apply J_nil|]);
      [by rewrite Hs|by exists (client st)].
  - destruct (stop st) eqn:Hs; simpl.
    { exists s. split; [apply J_nil|]. by rewrite Hs. }
    pose proof (loop_body_sim w st p s) as Hb. rewrite Hs in Hb.
    specialize (Hb HR).
    destruct (loop_body sfd lst ep w st p) as [[st1 p1] tr]. simpl in Hb.
    destruct Hb as (s1 & HJ1 & HR1).
    destruct (IH st1 p1 s1 HR1) as (s2 & HJ2 & HR2).
    destruct (main_loop sfd lst ep ws st1 p1) as [r tr']. simpl in *.
    exists s2. split; [by eapply J_app|done].
Qed.

End Simulation.

(** ** What the loop can emit *)

Lemma accept_step_cases (ep : Epoll.t) (lst : Listener.t) (a : accept_result)
    (cl : option Client.t) :
  (acc_ret a < 0
   ∧ accept_step ep lst a cl = (Break, cl, [SysAccept (Listener.fd lst) (acc_ret a)]))
  ∨ (0 ≤ acc_ret a ∧ cl = None
     ∧ accept_step ep lst a cl
       = (Continue, Some (Client.mk (UniqueFd.mk (acc_ret a))),
          [SysAccept (Listener.fd lst) (acc_ret a); Out LNewConnection;
           SysFcntlGetfl (acc_ret a) (getfl_ret (acc_nonblock a));
           SysFcntlSetfl (acc_ret a) (Z.lor (getfl_ret (acc_nonblock a)) O_NONBLOCK)
             (setfl_ret (acc_nonblock a));
           SysEpollAdd (Epoll.fd ep) (acc_ret a); Out LActive]))
  ∨ (0 ≤ acc_ret a ∧ (∃ c, cl = Some c)
     ∧ accept_step ep lst a cl
       = (Continue, cl,
          [SysAccept (Listener.fd lst) (acc_ret a); Out LNewConnection;
           Out LRejected; SysClose (acc_ret a)])).
Proof.
  unfold accept_step. simpl.
  destruct (Z.ltb_spec (acc_ret a) 0) as [Hlt|Hge].
  - left. split; [done|]. by destruct (_ || _).
  - right. destruct cl as [c|]; [right|left]; eauto.
Qed.

Lemma slot_destroy_Some (c : Client.t) : slot_destroy (Some c) = client_close c.
Proof.
  unfold slot_destroy, Client.destroy, UniqueFd.destroy, client_close, Client.fd.
  simpl. unfold UniqueFd.get. by destruct (_ =? _).
Qed.

Lemma recv_step_cases (ep : Epoll.t) (c : Client.t) (r : recv_result) :
  let call := SysRecv (Client.fd c) buf_size (recv_ret r) in
  (0 < recv_ret r
   ∧ recv_step ep c r = (Continue, Some c, [call; Out (LReceived (recv_ret r))]))
  ∨ (recv_ret r = 0
     ∧ recv_step ep c r
       = (Break, None,
          [call; Out LClosed; SysEpollDel (Epoll.fd ep) (Client.fd c)]
            ++ client_close c))
  ∨ (recv_ret r < 0 ∧ (recv_errno r = EAGAIN ∨ recv_errno r = EWOULDBLOCK)
     ∧ recv_step ep c r = (Break, Some c, [call]))
  ∨ (recv_ret r < 0 ∧ recv_errno r ≠ EAGAIN ∧ recv_errno r ≠ EWOULDBLOCK
     ∧ recv_step ep c r
       = (Break, None,
          [call; Out LRecvError; SysEpollDel (Epoll.fd ep) (Client.fd c)]
            ++ client_close c)).
Proof.
  intros call. unfold recv_step. rewrite slot_destroy_Some. simpl.
  destruct (Z.ltb_spec 0 (recv_ret r)) as [Hpos|Hle]; [by left|right].
  destruct (Z.eqb_spec (recv_ret r) 0) as [H0|Hne]; [by left|right].
  destruct (Z.eqb_spec (recv_errno r) EAGAIN) as [He|He]; simpl.
  { left. split_and!; [lia|by left|done]. }
  destruct (Z.eqb_spec (recv_errno r) EWOULDBLOCK) as [He'|He'].
  { left. split_and!; [lia|by right|done]. }
  right. split_and!; [lia|done|done|done].
Qed.

Lemma signal_line_emitted (signo : Z) : loop_may_emit (Out (signal_line signo)) = true.
Proof. unfold signal_line. by repeat destruct (_ =? _). Qed.

Lemma main_loop_emits (sfd : SignalFd.t) (lst : Listener.t) (ep : Epoll.t)
    (ws : list wait_result) (st : loop_state) (p : pending) :
  forallb loop_may_emit (snd (main_loop sfd lst ep ws st p)) = true.
Proof.
  destruct (main_loop_sim
              (λ (_ : unit) tr _, forallb loop_may_emit tr = true)
              (λ _ _ _, True) sfd lst ep) with (ws := ws) (st := st) (p := p)
              (s := tt) as (_ & H & _); try done.
  - intros _ _ _ t1 t2 H1 H2. by rewrite forallb_app, H1, H2.
  - intros _ cl b signo _. exists tt. split; [|done].
    apply forallb_forall. intros e [<-|[<-|[]]]; [done|].
    apply signal_line_emitted.
  - intros _ cl b a _. exists tt. split; [|done].
    destruct (accept_step_cases ep lst a cl)
      as [(_ & ->)|[(_ & _ & ->)|(_ & _ & ->)]]; done.
  - intros _ c b r _. exists tt. split; [|done].
    destruct (recv_step_cases ep c r)
      as [(_ & ->)|[(_ & ->)|[(_ & _ & ->)|(_ & _ & _ & ->)]]]; try done.
    all: simpl; unfold client_close; by destruct (_ =? _).
Qed.

(** ** The shape of a run *)

Lemma destroy_all_close (h : UniqueFd.t) : forallb is_close (UniqueFd.destroy h) = true.
Proof. unfold UniqueFd.destroy. simpl. by destruct (negb _). Qed.

Lemma teardown_all_close sfd lst ep cl : forallb is_close (teardown sfd lst ep cl) = true.
Proof.
  unfold teardown. rewrite !forallb_app.
  unfold Epoll.destroy, Listener.destroy, SignalFd.destroy.
  rewrite !destroy_all_close.
  destruct cl as [c|]; simpl; [|done].
  unfold Client.destroy. by rewrite destroy_all_close.
Qed.

Lemma construct_startup_events (port : Z) (k : boot) :
  forallb startup_event (snd (construct port k)) = true.
Proof.
  unfold construct, SignalFd.create, Listener.create, Epoll.create. simpl.
  repeat match goal with |- context [if ?b then _ else _] => destruct b end;
    reflexivity.
Qed.

(** The only [bind] of the constructors is the listener's, on the given
    port. *)
Lemma construct_bind (port : Z) (k : boot) (s q r : Z) :
  In (SysBind s q r) (snd (construct port k)) → q = port.
Proof.
  unfold construct, SignalFd.create, Listener.create, Epoll.create. simpl.
  repeat match goal with |- context [if ?b then _ else _] => destruct b end;
    simpl; intros H; repeat (destruct H as [H|H]; [by inversion H|]); done.
Qed.

(** The three ways a run can go. *)
Lemma main_cases (argv : list string) (k : boot) (ws : list wait_result) (p : pending) :
  ∃ sfd lst ep tr_ctor,
    construct (select_port argv) k = (sfd, lst, ep, tr_ctor)
    ∧ ((SignalFd.valid sfd && Listener.valid lst && Epoll.valid ep = false
        ∧ serve argv k ws p = (Failed, tr_ctor)
        ∧ main argv k ws p
          = {| exit_code := Some 1; trace := tr_ctor ++ teardown sfd lst ep None |})
       ∨ (SignalFd.valid sfd && Listener.valid lst && Epoll.valid ep = true
          ∧ ∃ tr_loop,
              let tr_run := tr_ctor ++ announce sfd lst ep (select_port argv) ++ tr_loop in
              (∃ st q,
                  main_loop sfd lst ep ws initial_state p = (Some (st, q), tr_loop)
                  ∧ stop st = true
                  ∧ serve argv k ws p = (Stopped st, tr_run)
                  ∧ main argv k ws p
                    = {| exit_code := Some 0;
                         trace := tr_run ++ [Out LStopped]
                                    ++ teardown sfd lst ep (client st) |})
              ∨ (main_loop sfd lst ep ws initial_state p = (None, tr_loop)
                 ∧ serve argv k ws p = (Waiting, tr_run)
                 ∧ main argv k ws p = {| exit_code := None; trace := tr_run |}))).
Proof.
  unfold main, serve, leave.
  destruct (construct (select_port argv) k) as [[[sfd lst] ep] tr_ctor].
  exists sfd, lst, ep, tr_ctor. split; [done|].
  destruct (SignalFd.valid sfd && Listener.valid lst && Epoll.valid ep) eqn:Hv.
  - right. split; [done|].
    apply andb_prop in Hv as [Hv ->]. apply andb_prop in Hv as [-> ->]. simpl.
    destruct (main_loop_sim (λ (_ : unit) _ _, True) (λ _ _ _, True) sfd lst ep)
      with (ws := ws) (st := initial_state) (p := p) (s := tt) as (_ & _ & Hs);
      try done; try (intros; by exists tt).
    destruct (main_loop sfd lst ep ws initial_state p) as [[[st q]|] tr_loop].
    + exists tr_loop. left. exists st, q. simpl in Hs.
      rewrite <- !app_assoc. by destruct Hs.
    + exists tr_loop. right. by rewrite app_nil_r.
  - left. split; [done|].
    destruct (SignalFd.valid sfd), (Listener.valid lst), (Epoll.valid ep);
      simpl in *; done.
Qed.

(** ** The port *)

Lemma select_port_eq (argv : list string) :
  select_port argv
  = match argv with
    | _ :: a :: _ => if decide (1 ≤ atoi a ≤ 65535) then atoi a else 12345
    | _ => 12345
    end.
Proof.
  unfold select_port, default_port.
  destruct argv as [|a0 [|a rest]]; [done..|].
  replace (1 <? Z.of_nat (length (a0 :: a :: rest))) with true
    by (symmetry; apply Z.ltb_lt; simpl length; lia).
  cbn [nth].
  destruct (Z.ltb_spec 0 (atoi a)), (Z.leb_spec (atoi a) 65535);
    case_decide; simpl; try lia; try done.
  unfold to_ushort. apply Z.mod_small. lia.
Qed.

Lemma main_port_events (argv : list string) (k : boot) (ws : list wait_result)
    (p : pending) (e : event) :
  In e (trace (main argv k ws p)) →
  match e with
  | SysBind _ port _ | Out (LListening port) => port = select_port argv
  | _ => True
  end.
Proof.
  destruct (main_cases argv k ws p) as (sfd & lst & ep & tr_ctor & Hc & Hm).
  assert (Hctor : In e tr_ctor →
    match e with
    | SysBind _ port _ | Out (LListening port) => port = select_port argv
    | _ => True
    end).
  { intros Hin. destruct e as [[]| | | | | | | | | | | | | | | | ]; try done.
    - pose proof (construct_startup_events (select_port argv) k) as Hs.
      rewrite Hc in Hs. simpl in Hs.
      by apply (proj1 (forallb_forall _ _) Hs) in Hin.
    - apply (construct_bind (select_port argv) k fd port ret). by rewrite Hc. }
  assert (Hclose : ∀ cl, In e (teardown sfd lst ep cl) →
    match e with
    | SysBind _ port _ | Out (LListening port) => port = select_port argv
    | _ => True
    end).
  { intros cl Hin.
    apply (proj1 (forallb_forall _ _) (teardown_all_close sfd lst ep cl)) in Hin.
    by destruct e as [[]| | | | | | | | | | | | | | | | ]. }
  assert (Hloop : ∀ st tr, snd (main_loop sfd lst ep ws st p) = tr → In e tr →
    match e with
    | SysBind _ port _ | Out (LListening port) => port = select_port argv
    | _ => True
    end).
  { intros st tr <- Hin.
    apply (proj1 (forallb_forall _ _) (main_loop_emits sfd lst ep ws st p)) in Hin.
    by destruct e as [[]| | | | | | | | | | | | | | | | ]. }
  assert (Hann : In e (announce sfd lst ep (select_port argv)) →
    match e with
    | SysBind _ port _ | Out (LListening port) => port = select_port argv
    | _ => True
    end).
  { unfold announce. simpl. intros [<-|[<-|[<-|[]]]]; done. }
  destruct Hm as [(_ & _ & ->)|(_ & tr_loop & [(st & q & Hl & _ & _ & ->)|(Hl & _ & ->)])];
    cbn [trace]; rewrite ?in_app_iff; intros H;
    repeat (destruct H as [H|H]);
    first [ by apply Hctor | by apply Hann | by eapply Hclose
          | by apply (Hloop initial_state tr_loop); [rewrite Hl|]
          | by subst e | done ].
Qed.

(** C9: the port is the value [atoi] gives for the first argument when
    there is one and that value lies in 1..65535, and 12345 otherwise; nothing
    else enters into it, and it is the port the listener binds to and the
    port announced. *)
Theorem port_selection (argv : list string) :
  select_port argv
  = match argv with
    | _ :: a :: _ => if decide (1 ≤ atoi a ≤ 65535) then atoi a else 12345
    | _ => 12345
    end
  ∧ default_port = 12345
  ∧ ∀ k ws p,
      (∀ s port r, In (SysBind s port r) (trace (main argv k ws p)) →
                   port = select_port argv)
      ∧ (∀ port, In (Out (LListening port)) (trace (main argv k ws p)) →
                 port = select_port argv).
Proof.
  split_and!; [apply select_port_eq|done|].
  intros k ws p. split.
  - intros s port r Hin. exact (main_port_events argv k ws p _ Hin).
  - intros port Hin. exact (main_port_events argv k ws p _ Hin).
Qed.

Lemma port_selection_witness :
  select_port argv_9090 = 9090
  ∧ 9090 = select_port argv_9090.
Proof.
  split.
  - rewrite (proj1 (port_selection argv_9090)). reflexivity.
  - apply (proj1 (proj2 (proj2 (port_selection argv_9090)) boot_ok [] nothing_pending)
             4 9090 0).
    vm_compute. tauto.
Defined.

Lemma skip_space_spaces (ws s : string) :
  all_chars isspace ws = true → skip_space (ws ++ s) = skip_space s.
Proof.
  induction ws as [|c ws IH]; simpl; [done|].
  intros H. apply andb_prop in H as [Hc Hws]. rewrite Hc. by apply IH.
Qed.

Lemma skip_space_none (s : string) :
  starts_with isspace s = false → skip_space s = s.
Proof. destruct s as [|c s]; simpl; [done|]. by intros ->. Qed.

Lemma digits_app (ds tail : string) (acc : Z) :
  all_chars isdigit ds = true → starts_with isdigit tail = false →
  digits (ds ++ tail) acc = digits ds acc.
Proof.
  revert acc. induction ds as [|c ds IH]; simpl; intros acc Hds Htail.
  - destruct tail as [|c tail]; simpl in *; [done|]. by rewrite Htail.
  - apply andb_prop in Hds as [Hc Hds]. rewrite Hc. by apply IH.
Qed.

Lemma digits_nonneg (s : string) (acc : Z) : 0 ≤ acc → 0 ≤ digits s acc.
Proof.
  revert acc. induction s as [|c s IH]; simpl; intros acc Hacc; [done|].
  destruct (isdigit c) eqn:Hc; [|done].
  apply IH. unfold isdigit in Hc. lia.
Qed.

Lemma to_int_small (v : Z) : - INT_MAX ≤ v ≤ INT_MAX → to_int v = v.
Proof.
  unfold INT_MAX, to_int. intros H. rewrite Z.mod_small by lia. lia.
Qed.

Lemma sign_not_space (c : ascii) : is_sign c = true → isspace c = false.
Proof.
  unfold is_sign. intros H. apply orb_prop in H as [H|H];
    apply Ascii.eqb_eq in H; by subst c.
Qed.

Lemma digit_not_space (c : ascii) : isdigit c = true → isspace c = false.
Proof. unfold isdigit, isspace. lia. Qed.

Lemma digit_not_sign (c : ascii) : isdigit c = true → is_sign c = false.
Proof.
  intros H. destruct (is_sign c) eqn:Hs; [|done].
  unfold is_sign in Hs. apply orb_prop in Hs as [Hs|Hs];
    apply Ascii.eqb_eq in Hs; by subst c.
Qed.

(** [atoi] on a string taken apart into white space, sign, digits and what
    follows them. *)
Lemma atoi_parts (ws ds tail : string) (sg : sign) :
  all_chars isspace ws = true →
  all_chars isdigit ds = true →
  starts_with isdigit tail = false →
  (sg = NoSign → starts_with (λ c, isspace c || is_sign c) (ds ++ tail) = false) →
  value ds ≤ INT_MAX →
  atoi (ws ++ sign_text sg ++ ds ++ tail) = signed sg (value ds).
Proof.
  intros Hws Hds Htail Hsg Hv.
  pose proof (digits_nonneg ds 0 (Z.le_refl 0)) as Hnn. fold (value ds) in Hnn.
  assert (Hfit : ∀ v, - INT_MAX ≤ v ≤ INT_MAX →
            to_int (Z.max LONG_MIN (Z.min LONG_MAX v)) = v).
  { intros v Hb. rewrite <- (to_int_small v Hb) at 2. f_equal.
    unfold INT_MAX, LONG_MAX, LONG_MIN in *. lia. }
  unfold atoi, strtol10. rewrite skip_space_spaces by done.
  destruct sg; unfold sign_text, signed.
  - change (skip_space (EmptyString ++ (ds ++ tail)))
      with (skip_space (ds ++ tail)).
    specialize (Hsg eq_refl).
    destruct (ds ++ tail)%string as [|c s] eqn:Hbody.
    + destruct ds; [|done]. apply (Hfit 0). unfold INT_MAX. lia.
    + simpl in Hsg. apply orb_false_elim in Hsg as [Hsp Hsig].
      cbn [skip_space]. rewrite Hsp.
      unfold is_sign in Hsig. apply orb_false_elim in Hsig as [Hplus Hminus].
      rewrite Hplus, Hminus.
      rewrite <- Hbody, digits_app by done. apply Hfit. unfold value in *. lia.
  - change (skip_space ("+" ++ (ds ++ tail)))
      with (String "+" (ds ++ tail)).
    change (Ascii.eqb "+" "-") with false. change (Ascii.eqb "+" "+") with true.
    cbv iota. rewrite digits_app by done. apply Hfit. unfold value in *. lia.
  - change (skip_space ("-" ++ (ds ++ tail)))
      with (String "-" (ds ++ tail)).
    change (Ascii.eqb "-" "-") with true.
    cbv iota. rewrite digits_app by done. apply Hfit. unfold value in *. lia.
Qed.

Lemma main_port_only (argv argv' : list string) (k : boot) (ws : list wait_result)
    (p : pending) :
  select_port argv = select_port argv' → main argv k ws p = main argv' k ws p.
Proof. unfold main, serve, leave. by intros ->. Qed.

(** C10, as stated, fails: an argument that begins with a sign or with
    white space has no digit at its front, yet its number is taken as the
    port. *)
Lemma signed_argument_is_parsed :
  starts_with isdigit "+80" = false
  ∧ select_port ["server"; "+80"]%string = 80
  ∧ starts_with isdigit " 80" = false
  ∧ select_port ["server"; " 80"]%string = 80
  ∧ 80 ≠ default_port.
Proof. by vm_compute. Qed.

(** C10 (amended): [atoi] skips leading white space, takes an optional sign
    and then the longest run of decimal digits, and ignores whatever
    follows.  For an argument of that form whose digits fit an [int], the
    port is the signed value when it lies in 1..65535 (so [80abc], [+80] and
    [ 80] all select port 80), and 12345 otherwise, which covers arguments
    without digits (value 0) and negative ones; in that case the run is the
    same as a run without the argument. *)
Theorem port_argument_parsing (prog ws ds tail : string) (sg : sign) :
  all_chars isspace ws = true →
  all_chars isdigit ds = true →
  starts_with isdigit tail = false →
  (sg = NoSign → starts_with (λ c, isspace c || is_sign c) (ds ++ tail) = false) →
  value ds ≤ INT_MAX →
  let arg := (ws ++ sign_text sg ++ ds ++ tail)%string in
  let v := signed sg (value ds) in
  atoi arg = v
  ∧ select_port [prog; arg] = (if decide (1 ≤ v ≤ 65535) then v else 12345)
  ∧ (¬ (1 ≤ v ≤ 65535) →
     ∀ k ws' p, main [prog; arg] k ws' p = main [prog] k ws' p).
Proof.
  intros Hws Hds Htail Hsg Hv arg v.
  assert (Ha : atoi arg = v) by by apply atoi_parts.
  assert (Hp : select_port [prog; arg] = if decide (1 ≤ v ≤ 65535) then v else 12345).
  { by rewrite select_port_eq, Ha. }
  split_and!; [done..|].
  intros Hout k ws' p. apply main_port_only.
  rewrite Hp, decide_False by done. reflexivity.
Qed.

Lemma port_argument_parsing_witness :
  atoi "80abc" = 80
  ∧ select_port ["server"; "80abc"]%string = 80
  ∧ select_port ["server"; "  -7x"]%string = 12345.
Proof.
  destruct (port_argument_parsing "server" EmptyString "80" "abc" NoSign)
    as (Ha & Hp & _).
  - reflexivity.
  - reflexivity.
  - reflexivity.
  - intros _. reflexivity.
  - apply Z.leb_le. reflexivity.
  - destruct (port_argument_parsing "server" "  " "7" "x" Minus)
      as (_ & Hq & _).
    + reflexivity.
    + reflexivity.
    + reflexivity.
    + discriminate.
    + apply Z.leb_le. reflexivity.
    + split_and!; [exact Ha|exact Hp|exact Hq].
Defined.

(** ** The receive loop *)

Lemma recv_loop_cons (ep : Epoll.t) (c : Client.t) (r : recv_result)
    (rs : list recv_result) :
  recv_loop ep c (r :: rs)
  = match recv_step ep c r with
    | (Continue, _, tr) =>
        let '(cl, tr', rest) := recv_loop ep c rs in (cl, tr ++ tr', rest)
    | (Break, cl, tr) => (cl, tr, rs)
    end.
Proof. reflexivity. Qed.

Lemma client_close_valid (c : Client.t) :
  Client.fd c ≠ -1 → client_close c = [SysClose (Client.fd c)].
Proof. unfold client_close. intros H. by destruct (Z.eqb_spec (Client.fd c) (-1)). Qed.

(** C2: in the receive loop, a positive result is logged with its byte
    count and the loop goes on; a zero result and an error other than
    would-block are each logged, the client's identifier is deregistered and
    then closed as the slot is emptied, once, and the loop ends; would-block
    ends the loop with nothing but the call, the client still in the slot and
    registered. *)
Theorem receive_classification (ep : Epoll.t) (c : Client.t) (r : recv_result)
    (rs : list recv_result) :
  let call := SysRecv (Client.fd c) buf_size (recv_ret r) in
  let gone := SysEpollDel (Epoll.fd ep) (Client.fd c) :: client_close c in
  (0 < recv_ret r →
     recv_step ep c r = (Continue, Some c, [call; Out (LReceived (recv_ret r))])
     ∧ recv_loop ep c (r :: rs)
       = (fst (fst (recv_loop ep c rs)),
          [call; Out (LReceived (recv_ret r))] ++ snd (fst (recv_loop ep c rs)),
          snd (recv_loop ep c rs)))
  ∧ (recv_ret r = 0 →
       recv_loop ep c (r :: rs) = (None, [call; Out LClosed] ++ gone, rs))
  ∧ (recv_ret r < 0 → recv_errno r = EAGAIN ∨ recv_errno r = EWOULDBLOCK →
       recv_loop ep c (r :: rs) = (Some c, [call], rs))
  ∧ (recv_ret r < 0 → recv_errno r ≠ EAGAIN → recv_errno r ≠ EWOULDBLOCK →
       recv_loop ep c (r :: rs) = (None, [call; Out LRecvError] ++ gone, rs))
  ∧ (Client.fd c ≠ -1 →
       gone = [SysEpollDel (Epoll.fd ep) (Client.fd c); SysClose (Client.fd c)])
  ∧ recv_loop ep c [] = (Some c, [SysRecv (Client.fd c) buf_size (-1)], []).
Proof.
  intros call gone. subst call gone. rewrite recv_loop_cons.
  destruct (recv_step_cases ep c r)
    as [(H & ->)|[(H & ->)|[(H & He & ->)|(H & He & He' & ->)]]];
    split_and!; try (intros; lia); try done.
  all: try (intros ? [?|?]; done).
  all: try (intros ? [?|?]; lia).
  all: try (intros Hc; by rewrite client_close_valid).
  all: intros _; split; [done|]; by destruct (recv_loop ep c rs) as [[? ?] ?].
Qed.

Lemma receive_classification_witness :
  let ep := Epoll.mk (UniqueFd.mk 5) in
  let c := Client.mk (UniqueFd.mk 6) in
  recv_loop ep c [received 5; received 0; received 7]
  = (None,
     [SysRecv 6 4096 5; Out (LReceived 5); SysRecv 6 4096 0; Out LClosed;
      SysEpollDel 5 6; SysClose 6],
     [received 7])
  ∧ recv_loop ep c [recv_failed EAGAIN; received 7] = (Some c, [SysRecv 6 4096 (-1)], [received 7])
  ∧ recv_loop ep c [recv_failed 104; received 7]
    = (None, [SysRecv 6 4096 (-1); Out LRecvError; SysEpollDel 5 6; SysClose 6],
       [received 7]).
Proof.
  intros ep c. split_and!.
  - destruct (receive_classification ep c (received 5) [received 0; received 7])
      as ((_ & ->) & _); [reflexivity|].
    destruct (receive_classification ep c (received 0) [received 7])
      as (_ & -> & _); reflexivity.
  - apply (receive_classification ep c (recv_failed EAGAIN) [received 7]).
    + reflexivity.
    + left. reflexivity.
  - apply (receive_classification ep c (recv_failed 104) [received 7]).
    + reflexivity.
    + discriminate.
    + discriminate.
Defined.

(** ** Signals *)

Lemma saw_term_app (tr1 tr2 : list event) :
  saw_term (tr1 ++ tr2) = saw_term tr1 || saw_term tr2.
Proof. apply existsb_app. Qed.

Lemma saw_term_In (tr : list event) : saw_term tr = true ↔ In (Out LSigTerm) tr.
Proof.
  unfold saw_term. rewrite existsb_exists. split.
  - intros (e & Hin & He). apply bool_decide_eq_true in He. by subst e.
  - intros Hin. exists (Out LSigTerm). split; [done|]. by apply bool_decide_eq_true.
Qed.

Lemma signal_line_term (signo : Z) :
  bool_decide (Out (signal_line signo) = Out LSigTerm) = (signo =? SIGTERM).
Proof.
  unfold signal_line.
  destruct (Z.eqb_spec signo SIGHUP) as [->|_]; [done|].
  by destruct (signo =? SIGTERM).
Qed.

Lemma saw_term_false (P : event → bool) (tr : list event) :
  P (Out LSigTerm) = false → forallb P tr = true → saw_term tr = false.
Proof.
  intros HP Hall. destruct (saw_term tr) eqn:Hs; [|done].
  apply saw_term_In in Hs.
  apply (proj1 (forallb_forall _ _) Hall) in Hs. congruence.
Qed.

(** The stop flag is set exactly when the line about SIGTERM has been
    written. *)
Lemma main_loop_stop (sfd : SignalFd.t) (lst : Listener.t) (ep : Epoll.t)
    (ws : list wait_result) (st : loop_state) (p : pending) :
  stop st = false →
  match fst (main_loop sfd lst ep ws st p) with
  | Some (st', _) =>
      stop st' = true ∧ saw_term (snd (main_loop sfd lst ep ws st p)) = true
  | None => saw_term (snd (main_loop sfd lst ep ws st p)) = false
  end.
Proof.
  intros Hstop.
  destruct (main_loop_sim
              (λ (b : bool) tr b', b' = b || saw_term tr)
              (λ b _ flag, flag = b) sfd lst ep) with (ws := ws) (st := st) (p := p)
              (s := false) as (b' & HJ & HR); try done.
  - intros b. by rewrite orb_false_r.
  - intros b1 b2 b3 t1 t2 -> ->. by rewrite saw_term_app, orb_assoc.
  - intros b cl flag w out ->. exists b. simpl. by rewrite orb_false_r.
  - intros b cl flag ret _ ->. exists b. simpl. by rewrite orb_false_r.
  - intros b cl flag signo ->. exists (b || (signo =? SIGTERM)). split; [|done].
    unfold saw_term. cbn [existsb]. rewrite signal_line_term.
    rewrite bool_decide_eq_false_2 by done. by rewrite orb_false_r.
  - intros b cl flag a ->. exists b. split; [|done].
    destruct (accept_step_cases ep lst a cl)
      as [(_ & ->)|[(_ & _ & ->)|(_ & _ & ->)]]; simpl; by rewrite orb_false_r.
  - intros b c flag r ->. exists b. split; [|done].
    destruct (recv_step_cases ep c r)
      as [(_ & ->)|[(_ & ->)|[(_ & _ & ->)|(_ & _ & _ & ->)]]];
      cbn [snd]; rewrite ?saw_term_app; unfold client_close;
      try destruct (_ =? _); simpl; by rewrite orb_false_r.
  - destruct (fst (main_loop sfd lst ep ws st p)) as [[st' q]|].
    + destruct HR as [HR Ht]. split; [done|]. simpl in HJ. by rewrite <- HJ, <- HR.
    + destruct HR as [_ HR]. simpl in HJ. by rewrite <- HJ, HR.
Qed.







(** ** Exit codes *)

Lemma signalfd_valid (sigs : list Z) (ret : Z) :
  SignalFd.valid (fst (SignalFd.create sigs ret)) = true ↔ ret ≠ -1.
Proof.
  unfold SignalFd.valid, UniqueFd.valid. simpl.
  by destruct (Z.eqb_spec ret (-1)).
Qed.

Lemma epoll_valid (ret : Z) : Epoll.valid (fst (Epoll.create ret)) = true ↔ ret ≠ -1.
Proof.
  unfold Epoll.valid, UniqueFd.valid. simpl.
  by destruct (Z.eqb_spec ret (-1)).
Qed.

(** The start fails: one of the calls whose result the constructors look at
    has failed. *)
Lemma startup_fails_iff (port : Z) (k : boot) :
  SignalFd.valid (fst (SignalFd.create [SIGHUP; SIGTERM] (signalfd_ret k)))
  && Listener.valid (fst (Listener.create port (listener_boot k)))
  && Epoll.valid (fst (Epoll.create (epoll_create_ret k))) = false
  ↔ signalfd_ret k = -1
    ∨ (Listener.socket_ret (listener_boot k) < 0
       ∨ Listener.bind_ret (listener_boot k) < 0
       ∨ Listener.listen_ret (listener_boot k) < 0)
    ∨ epoll_create_ret k = -1.
Proof.
  pose proof (signalfd_valid [SIGHUP; SIGTERM] (signalfd_ret k)) as Hs.
  pose proof (listener_valid_iff port (listener_boot k)) as Hl.
  pose proof (epoll_valid (epoll_create_ret k)) as He.
  rewrite !andb_false_iff.
  assert (SignalFd.valid (fst (SignalFd.create [SIGHUP; SIGTERM] (signalfd_ret k)))
          = false ↔ signalfd_ret k = -1) as ->.
  { destruct (SignalFd.valid _).
    - pose proof (proj1 Hs eq_refl). split; [done|lia].
    - split; [intros _|done]. destruct (Z.eq_dec (signalfd_ret k) (-1)); [done|].
      assert (false = true) by by apply Hs. done. }
  assert (Epoll.valid (fst (Epoll.create (epoll_create_ret k))) = false
          ↔ epoll_create_ret k = -1) as ->.
  { destruct (Epoll.valid _).
    - pose proof (proj1 He eq_refl). split; [done|lia].
    - split; [intros _|done]. destruct (Z.eq_dec (epoll_create_ret k) (-1)); [done|].
      assert (false = true) by by apply He. done. }
  assert (Listener.valid (fst (Listener.create port (listener_boot k))) = false
          ↔ Listener.socket_ret (listener_boot k) < 0
            ∨ Listener.bind_ret (listener_boot k) < 0
            ∨ Listener.listen_ret (listener_boot k) < 0) as ->.
  { destruct (Listener.valid _).
    - pose proof (proj1 Hl eq_refl). split; [done|lia].
    - split; [intros _|done].
      destruct (Z.lt_ge_cases (Listener.socket_ret (listener_boot k)) 0); [by left|].
      destruct (Z.lt_ge_cases (Listener.bind_ret (listener_boot k)) 0);
        [by right; left|].
      destruct (Z.lt_ge_cases (Listener.listen_ret (listener_boot k)) 0);
        [by right; right|].
      assert (false = true) by (apply Hl; lia). done. }
  tauto.
Qed.

(** C4: [main] returns 1 exactly when the signalfd, the listener or the
    epoll instance is invalid after construction, and then it has made no
    call of the loop; it returns 0 exactly when the loop is left, which
    happens only with the stop flag set; there is no third exit code, and no
    exit at all while the process waits for events. *)
Theorem exit_codes (argv : list string) (k : boot) (ws : list wait_result)
    (p : pending) :
  let r := main argv k ws p in
  let sfd := fst (SignalFd.create [SIGHUP; SIGTERM] (signalfd_ret k)) in
  let lst := fst (Listener.create (select_port argv) (listener_boot k)) in
  let ep := fst (Epoll.create (epoll_create_ret k)) in
  let failed :=
    signalfd_ret k = -1
    ∨ (Listener.socket_ret (listener_boot k) < 0
       ∨ Listener.bind_ret (listener_boot k) < 0
       ∨ Listener.listen_ret (listener_boot k) < 0)
    ∨ epoll_create_ret k = -1 in
  (exit_code r = Some 1 ↔ failed)
  ∧ (exit_code r = Some 1 → outside_loop (trace r) = true)
  ∧ (exit_code r = Some 0
     ↔ ¬ failed
       ∧ ∃ st q tr, main_loop sfd lst ep ws initial_state p = (Some (st, q), tr)
                    ∧ stop st = true)
  ∧ (exit_code r = None
     ↔ ¬ failed ∧ fst (main_loop sfd lst ep ws initial_state p) = None)
  ∧ (exit_code r = None ∨ exit_code r = Some 0 ∨ exit_code r = Some 1).
Proof.
  intros r sfd lst ep failed. subst r.
  pose proof (startup_fails_iff (select_port argv) k) as Hf.
  fold sfd lst ep failed in Hf.
  pose proof (construct_fst (select_port argv) k) as Hfst.
  fold sfd lst ep in Hfst.
  destruct (main_cases argv k ws p) as (sfd' & lst' & ep' & tr_ctor & Hc & Hm).
  rewrite Hc in Hfst. simpl in Hfst. inversion Hfst; subst sfd' lst' ep'.
  destruct Hm as [(Hv & Hs & Hmain)|(Hv & tr_loop & [(st & q & Hl & Hstop & _ & Hmain)|(Hl & _ & Hmain)])].
  - assert (failed) as Hfailed by by apply Hf.
    split_and!.
    + rewrite Hmain. split; done.
    + intros _. apply main_failed. by rewrite Hs.
    + rewrite Hmain. split; [done|]. by intros [? _].
    + rewrite Hmain. split; [done|]. by intros [? _].
    + rewrite Hmain. by right; right.
  - assert (¬ failed) as Hok by (rewrite <- Hf, Hv; done).
    split_and!.
    + rewrite Hmain. split; [done|]. intros ?. done.
    + by rewrite Hmain.
    + rewrite Hmain. split; [|done]. intros _. split; [done|]. by exists st, q, tr_loop.
    + rewrite Hmain, Hl. split; [done|]. by intros [_ ?].
    + rewrite Hmain. by right; left.
  - assert (¬ failed) as Hok by (rewrite <- Hf, Hv; done).
    split_and!.
    + rewrite Hmain. split; [done|]. intros ?. done.
    + by rewrite Hmain.
    + rewrite Hmain, Hl. split; [done|]. by intros (_ & ? & ? & ? & ? & _).
    + rewrite Hmain, Hl. split; done.
    + rewrite Hmain. by left.
Qed.

Lemma exit_codes_witness :
  exit_code (main argv_9090 boot_bind_fails waits_client_then_term
               script_client_then_term) = Some 1
  ∧ outside_loop (trace (main argv_9090 boot_bind_fails waits_client_then_term
                           script_client_then_term)) = true.
Proof.
  pose proof (exit_codes argv_9090 boot_bind_fails waits_client_then_term
                script_client_then_term) as (H1 & H2 & _).
  assert (exit_code (main argv_9090 boot_bind_fails waits_client_then_term
                       script_client_then_term) = Some 1) as He.
  { apply H1. right. left. right. left. reflexivity. }
  split; [exact He|exact (H2 He)].
Defined.

(** ** Admission *)

Lemma live_clients_app (n : Z) (tr1 tr2 : list event) :
  live_clients n (tr1 ++ tr2) = live_clients (live_clients n tr1) tr2.
Proof. apply fold_left_app. Qed.

Lemma walk_app (n : Z) (tr1 tr2 : list event) :
  walk n (tr1 ++ tr2) = walk n tr1 && walk (live_clients n tr1) tr2.
Proof.
  revert n. induction tr1 as [|e tr1 IH]; intros n; simpl; [done|].
  rewrite IH. by rewrite andb_assoc.
Qed.

Lemma walk_range (n : Z) (tr : list event) :
  0 ≤ n ≤ 1 → walk n tr = true → 0 ≤ live_clients n tr ≤ 1.
Proof.
  revert n. induction tr as [|e tr IH]; intros n Hn; simpl; [done|].
  intros H. apply andb_prop in H as [H Hw]. apply andb_prop in H as [H1 H2].
  apply IH; [lia|done].
Qed.

Lemma walk_silent (n : Z) (tr : list event) :
  0 ≤ n ≤ 1 → Forall (λ e, delta e = 0) tr →
  walk n tr = true ∧ live_clients n tr = n.
Proof.
  intros Hn Hall. revert n Hn. induction Hall as [|e tr He _ IH]; intros n Hn;
    simpl; [done|].
  rewrite He, Z.add_0_r. destruct (IH n Hn) as [-> ->].
  split; [|done]. rewrite andb_true_r. apply andb_true_intro. lia.
Qed.

Lemma silent_of (P : event → bool) (tr : list event) :
  (∀ e, P e = true → delta e = 0) → forallb P tr = true →
  Forall (λ e, delta e = 0) tr.
Proof.
  intros HP Hall. apply List.Forall_forall. intros e Hin. apply HP.
  by apply (proj1 (forallb_forall _ _) Hall).
Qed.

Lemma occupancy_range (cl : option Client.t) : 0 ≤ occupancy cl ≤ 1.
Proof. destruct cl; simpl; lia. Qed.

(** The loop keeps the count of lines in step with the slot. *)
Lemma main_loop_walk (sfd : SignalFd.t) (lst : Listener.t) (ep : Epoll.t)
    (ws : list wait_result) (st : loop_state) (p : pending) :
  walk (occupancy (client st)) (snd (main_loop sfd lst ep ws st p)) = true
  ∧ match fst (main_loop sfd lst ep ws st p) with
    | Some (st', _) =>
        live_clients (occupancy (client st)) (snd (main_loop sfd lst ep ws st p))
        = occupancy (client st')
    | None => True
    end.
Proof.
  destruct (main_loop_sim
              (λ (n : Z) tr n', walk n tr = true ∧ n' = live_clients n tr)
              (λ n cl _, n = occupancy cl) sfd lst ep) with (ws := ws) (st := st)
              (p := p) (s := occupancy (client st)) as (n' & [Hw Hn] & HR); try done.
  - intros n1 n2 n3 t1 t2 [Hw1 ->] [Hw2 ->].
    by rewrite walk_app, Hw1, Hw2, live_clients_app.
  - intros n cl b w out ->. exists (occupancy cl). by destruct cl.
  - intros n cl b ret _ ->. exists (occupancy cl). by destruct cl.
  - intros n cl b signo ->. exists (occupancy cl). split; [|done].
    unfold signal_line. destruct cl; by repeat destruct (_ =? _).
  - intros n cl b a ->.
    destruct (accept_step_cases ep lst a cl)
      as [(_ & ->)|[(_ & -> & ->)|(_ & [c ->] & ->)]]; simpl.
    + exists (occupancy cl). by destruct cl.
    + by exists 1.
    + by exists 1.
  - intros n c b r ->.
    destruct (recv_step_cases ep c r)
      as [(_ & ->)|[(_ & ->)|[(_ & _ & ->)|(_ & _ & _ & ->)]]]; cbn [fst snd].
    + by exists 1.
    + exists 0. unfold client_close. by destruct (_ =? _).
    + by exists 1.
    + exists 0. unfold client_close. by destruct (_ =? _).
  - split; [done|]. destruct (fst (main_loop sfd lst ep ws st p)) as [[st' q]|];
      [|done]. destruct HR as [HR _]. by rewrite <- Hn, HR.
Qed.

Lemma main_walk (argv : list string) (k : boot) (ws : list wait_result) (p : pending) :
  walk 0 (trace (main argv k ws p)) = true.
Proof.
  destruct (main_cases argv k ws p) as (sfd & lst & ep & tr_ctor & Hc & Hm).
  pose proof (construct_startup_events (select_port argv) k) as Hctor.
  rewrite Hc in Hctor. simpl in Hctor.
  apply (silent_of startup_event) in Hctor; [|by intros []].
  assert (Hdown : ∀ cl, Forall (λ e, delta e = 0) (teardown sfd lst ep cl)).
  { intros cl. apply (silent_of is_close); [by intros []|].
    apply teardown_all_close. }
  assert (Hann : Forall (λ e, delta e = 0) (announce sfd lst ep (select_port argv))).
  { unfold announce. simpl. by repeat constructor. }
  pose proof (main_loop_walk sfd lst ep ws initial_state p) as [Hw Hl].
  simpl occupancy in Hw, Hl.
  destruct (walk_silent 0 tr_ctor) as [Hw1 Hn1]; [lia|done|].
  destruct (walk_silent 0 _ ltac:(lia) Hann) as [Hw2 Hn2].
  destruct Hm as [(_ & _ & ->)|(_ & tr_loop & [(st & q & Hloop & _ & _ & ->)|(Hloop & _ & ->)])];
    cbn [trace]; try (rewrite Hloop in Hw, Hl; simpl in Hw, Hl);
    rewrite ?walk_app, ?live_clients_app, ?Hw1, ?Hn1, ?Hw2, ?Hn2, ?Hw, ?Hl.
  - simpl. by apply walk_silent; [lia|].
  - destruct (walk_silent (occupancy (client st)) [Out LStopped])
      as [-> ->]; [apply occupancy_range|by repeat constructor|].
    simpl. by apply walk_silent; [apply occupancy_range|].
  - done.
Qed.

Lemma accept_loop_occupied (ep : Epoll.t) (lst : Listener.t)
    (acs : list accept_result) (c : Client.t) :
  fst (fst (accept_loop ep lst acs (Some c))) = Some c
  ∧ registrations (snd (fst (accept_loop ep lst acs (Some c)))) = 0%nat.
Proof.
  induction acs as [|a acs IH]; simpl; [done|].
  destruct (accept_step_cases ep lst a (Some c))
    as [(_ & ->)|[(_ & ? & _)|(_ & _ & ->)]]; [done|done|].
  destruct (accept_loop ep lst acs (Some c)) as [[cl tr] rest]. simpl in *.
  destruct IH as [-> Hr]. split; [done|]. exact Hr.
Qed.

Lemma accept_loop_admits (ep : Epoll.t) (lst : Listener.t) (a : accept_result)
    (acs : list accept_result) :
  0 ≤ acc_ret a →
  fst (fst (accept_loop ep lst (a :: acs) None))
  = Some (Client.mk (UniqueFd.mk (acc_ret a)))
  ∧ registrations (snd (fst (accept_loop ep lst (a :: acs) None))) = 1%nat.
Proof.
  intros Ha. simpl.
  destruct (accept_step_cases ep lst a None)
    as [(? & _)|[(_ & _ & ->)|(_ & [c ?] & _)]]; [lia| |done].
  pose proof (accept_loop_occupied ep lst acs (Client.mk (UniqueFd.mk (acc_ret a))))
    as [Hcl Hr].
  destruct (accept_loop ep lst acs _) as [[cl tr] rest]. simpl in *.
  split; [done|]. unfold registrations in *. simpl. by rewrite Hr.
Qed.

(** C1: a connection accepted while the slot is empty becomes the client:
    it is made non-blocking, registered, and announced as active; a
    connection accepted while the slot is occupied is closed at once, with a
    line saying so and no registration.  So one pass of the accept loop
    registers exactly one connection if it starts with an empty slot and
    accepts any, and none otherwise; and at every point of every run the
    lines announcing an active client outnumber the lines reporting its
    removal by 0 or 1. *)
Theorem admission_policy :
  (∀ ep lst a, 0 ≤ acc_ret a →
     accept_step ep lst a None
     = (Continue, Some (Client.mk (UniqueFd.mk (acc_ret a))),
        [SysAccept (Listener.fd lst) (acc_ret a); Out LNewConnection;
         SysFcntlGetfl (acc_ret a) (getfl_ret (acc_nonblock a));
         SysFcntlSetfl (acc_ret a) (Z.lor (getfl_ret (acc_nonblock a)) O_NONBLOCK)
           (setfl_ret (acc_nonblock a));
         SysEpollAdd (Epoll.fd ep) (acc_ret a); Out LActive]))
  ∧ (∀ ep lst a c, 0 ≤ acc_ret a →
       accept_step ep lst a (Some c)
       = (Continue, Some c,
          [SysAccept (Listener.fd lst) (acc_ret a); Out LNewConnection;
           Out LRejected; SysClose (acc_ret a)]))
  ∧ (∀ ep lst a acs, 0 ≤ acc_ret a →
       fst (fst (accept_loop ep lst (a :: acs) None))
       = Some (Client.mk (UniqueFd.mk (acc_ret a)))
       ∧ registrations (snd (fst (accept_loop ep lst (a :: acs) None))) = 1%nat)
  ∧ (∀ ep lst acs c,
       fst (fst (accept_loop ep lst acs (Some c))) = Some c
       ∧ registrations (snd (fst (accept_loop ep lst acs (Some c)))) = 0%nat)
  ∧ (∀ argv k ws p tr1 tr2,
       trace (main argv k ws p) = tr1 ++ tr2 → 0 ≤ live_clients 0 tr1 ≤ 1).
Proof.
  split_and!.
  - intros ep lst a Ha.
    destruct (accept_step_cases ep lst a None)
      as [(? & _)|[(_ & _ & ->)|(_ & [c ?] & _)]]; [lia|done|done].
  - intros ep lst a c Ha.
    destruct (accept_step_cases ep lst a (Some c))
      as [(? & _)|[(_ & ? & _)|(_ & _ & ->)]]; [lia|done|done].
  - apply accept_loop_admits.
  - apply accept_loop_occupied.
  - intros argv k ws p tr1 tr2 Htr.
    pose proof (main_walk argv k ws p) as Hw.
    rewrite Htr, walk_app in Hw. apply andb_prop in Hw as [Hw _].
    apply walk_range; [lia|done].
Qed.

Lemma admission_policy_witness :
  let ep := Epoll.mk (UniqueFd.mk 5) in
  let lst := Listener.mk (UniqueFd.mk 4) in
  fst (fst (accept_loop ep lst [accepted 6; accepted 7; accepted 8] None))
  = Some (Client.mk (UniqueFd.mk 6))
  ∧ accept_step ep lst (accepted 7) (Some (Client.mk (UniqueFd.mk 6)))
    = (Continue, Some (Client.mk (UniqueFd.mk 6)),
       [SysAccept 4 7; Out LNewConnection; Out LRejected; SysClose 7])
  ∧ 0 ≤ live_clients 0
          (take 19 (trace (main argv_9090 boot_ok waits_client_then_term
                             script_client_then_term))) ≤ 1.
Proof.
  intros ep lst.
  destruct admission_policy as (_ & Hrej & Hloop & _ & Hrun).
  split; [|split].
  - apply (Hloop ep lst (accepted 6)). simpl. lia.
  - apply (Hrej ep lst (accepted 7)). simpl. lia.
  - apply (Hrun argv_9090 boot_ok waits_client_then_term script_client_then_term _
             (drop 19 (trace (main argv_9090 boot_ok waits_client_then_term
                                script_client_then_term)))).
    symmetry. apply take_drop.
Defined.

(** ** Reuse of the slot *)

Lemma no_accept_app (tr1 tr2 : list event) :
  no_accept (tr1 ++ tr2) = no_accept tr1 && no_accept tr2.
Proof. apply forallb_app. Qed.

Lemma admits_first_skip (ep : Z) (tr1 tr2 : list event) :
  no_accept tr1 = true → admits_first ep (tr1 ++ tr2) = admits_first ep tr2.
Proof.
  induction tr1 as [|e tr1 IH]; simpl; [done|].
  intros H. apply andb_prop in H as [He Htr]. rewrite <- (IH Htr).
  destruct e; try done. simpl in He. by destruct (0 <=? ret).
Qed.

Lemma no_accept_admits (ep : Z) (tr : list event) :
  no_accept tr = true → admits_first ep tr = true.
Proof.
  intros H. rewrite <- (app_nil_r tr). by rewrite admits_first_skip.
Qed.

Lemma admission_app (ep nf : Z) (tr1 tr2 : list event) :
  admission ep nf tr1 = true → admission ep nf (tr1 ++ tr2) = true.
Proof.
  unfold admission.
  repeat (match goal with
          | |- context [match ?x with _ => _ end] =>
              is_var x; destruct x; simpl; try done
          end).
Qed.

Lemma admits_first_app (ep : Z) (tr1 tr2 : list event) :
  no_accept tr1 = false → admits_first ep tr1 = true →
  admits_first ep (tr1 ++ tr2) = true.
Proof.
  induction tr1 as [|e tr1 IH]; simpl; [done|].
  destruct e; simpl; try (by apply IH).
  destruct (0 <=? ret); simpl; [intros _|by apply IH].
  apply admission_app.
Qed.

Lemma first_accept_admitted_app (ep : Z) (w1 w2 w3 : bool) (t1 t2 : list event) :
  first_accept_admitted ep w1 t1 w2 → first_accept_admitted ep w2 t2 w3 →
  first_accept_admitted ep w1 (t1 ++ t2) w3.
Proof.
  unfold first_accept_admitted. rewrite no_accept_app.
  destruct w1; [|by intros -> ->].
  destruct (no_accept t1) eqn:H1; simpl.
  - intros ->. destruct (no_accept t2); [done|].
    intros [H ->]. by rewrite admits_first_skip.
  - intros [H ->] ->. split; [|done]. by apply admits_first_app.
Qed.

(** The meaning of [admits_first]: the events that follow the first
    successful [accept] are those of an admission. *)
Lemma admits_first_spec (ep : Z) (tr1 tr2 : list event) (l nf : Z) :
  admits_first ep (tr1 ++ SysAccept l nf :: tr2) = true →
  no_accept tr1 = true → 0 ≤ nf →
  ∃ g r tr3,
    tr2 = [Out LNewConnection; SysFcntlGetfl nf g;
           SysFcntlSetfl nf (Z.lor g O_NONBLOCK) r; SysEpollAdd ep nf; Out LActive]
          ++ tr3.
Proof.
  intros H Hno Hnf. rewrite admits_first_skip in H by done.
  simpl in H. rewrite (proj2 (Z.leb_le _ _) Hnf) in H.
  unfold admission in H.
  repeat (match type of H with
          | context [match ?x with _ => _ end] =>
              is_var x; destruct x; simpl in H; try done
          end).
  repeat (apply andb_prop in H as [H ?]).
  repeat match goal with E : (_ =? _) = true |- _ => apply Z.eqb_eq in E end.
  subst. eauto.
Qed.

Section Watch.

Variables (sfd : SignalFd.t) (lst : Listener.t) (ep : Epoll.t).

Let J := first_accept_admitted (Epoll.fd ep).

Lemma watch_nil w : J w [] w.
Proof. by destruct w. Qed.

Lemma watch_quiet w cl b (tr : list event) :
  no_accept tr = true → watched_slot w cl b →
  ∃ w', J w tr w' ∧ watched_slot w' cl b.
Proof.
  intros Hq HR. exists w. split; [|done].
  unfold J, first_accept_admitted. rewrite Hq. by destruct w.
Qed.

Lemma watch_accept w cl b a :
  watched_slot w cl b →
  ∃ w', J w (snd (accept_step ep lst a cl)) w'
        ∧ watched_slot w' (snd (fst (accept_step ep lst a cl))) b.
Proof.
  intros HR.
  destruct (accept_step_cases ep lst a cl)
    as [(Hlt & ->)|[(Hge & -> & ->)|(Hge & [c ->] & ->)]]; cbn [fst snd].
  - apply watch_quiet; [|done]. simpl.
    by rewrite (proj2 (Z.leb_gt _ _) Hlt).
  - exists false. split; [|done]. unfold J, first_accept_admitted.
    destruct w; [|done]. simpl. rewrite (proj2 (Z.leb_le _ _) Hge). simpl.
    by rewrite !Z.eqb_refl.
  - exists false. split; [|done]. unfold J, first_accept_admitted.
    destruct w; [|done]. by specialize (HR eq_refl).
Qed.

Lemma watch_recv w c b r :
  watched_slot w (Some c) b →
  ∃ w', J w (snd (recv_step ep c r)) w'
        ∧ watched_slot w' (snd (fst (recv_step ep c r))) b.
Proof.
  intros HR. exists false. split; [|done].
  unfold J, first_accept_admitted. destruct w; [|done]. by specialize (HR eq_refl).
Qed.

Lemma for_loop_watch (i todo : nat) (st : loop_state) (p : pending) :
  client st = None →
  admits_first (Epoll.fd ep) (snd (for_loop sfd lst ep i todo st p)) = true
  ∧ (no_accept (snd (for_loop sfd lst ep i todo st p)) = true →
     client (fst (fst (for_loop sfd lst ep i todo st p))) = None).
Proof.
  intros Hcl.
  destruct (for_loop_sim J watched_slot sfd lst ep watch_nil
              (first_accept_admitted_app (Epoll.fd ep)))
    with (todo := todo) (i := i) (st := st) (p := p) (s := true)
    as (w' & HJ & HR); try done.
  - intros. by apply watch_quiet.
  - intros. by apply watch_quiet.
  - apply watch_accept.
  - apply watch_recv.
  - by intros _.
  - unfold J, first_accept_admitted in HJ.
    destruct (no_accept _) eqn:Hq.
    + subst w'. split; [by apply no_accept_admits|]. intros _. by apply HR.
    + by destruct HJ as [-> _].
Qed.

Lemma main_loop_watch (ws : list wait_result) (st : loop_state) (p : pending) :
  client st = None →
  admits_first (Epoll.fd ep) (snd (main_loop sfd lst ep ws st p)) = true.
Proof.
  intros Hcl.
  destruct (main_loop_sim J watched_slot sfd lst ep watch_nil
              (first_accept_admitted_app (Epoll.fd ep)))
    with (ws := ws) (st := st) (p := p) (s := true)
    as (w' & HJ & HR); try done.
  - intros. by apply watch_quiet.
  - intros. by apply watch_quiet.
  - intros. by apply watch_quiet.
  - apply watch_accept.
  - apply watch_recv.
  - by intros _.
  - unfold J, first_accept_admitted in HJ.
    destruct (no_accept _) eqn:Hq; [by apply no_accept_admits|].
    by destruct HJ as [-> _].
Qed.

End Watch.

(** ** Reuse of the slot after a removal *)

Lemma readmits_app (ep : Z) (w w2 : bool) (t1 t2 : list event) :
  readmits ep w t1 = Some w2 → readmits ep w (t1 ++ t2) = readmits ep w2 t2.
Proof.
  revert w. induction t1 as [|e t1 IH]; intros w; simpl.
  { by intros [= ->]. }
  destruct e as [l| | | | | | | | | | | | | | |x nf|]; try apply IH.
  - destruct l; apply IH.
  - destruct (0 <=? nf); [|apply IH].
    destruct w; simpl; [|apply IH].
    destruct (admission ep nf t1) eqn:Ha; simpl; [|done].
    rewrite (admission_app _ _ _ t2 Ha). simpl. apply IH.
Qed.

Lemma readmits_quiet (ep : Z) (w : bool) (tr : list event) :
  forallb quiet tr = true → readmits ep w tr = Some w.
Proof.
  induction tr as [|e tr IH]; simpl; [done|].
  intros H. apply andb_prop in H as [He Htr]. specialize (IH Htr).
  destruct e as [l| | | | | | | | | | | | | | |x nf|]; try done.
  - by destruct l.
  - unfold quiet in He. simpl in He. by destruct (0 <=? nf).
Qed.

Lemma readmits_suffix (ep : Z) (w w' : bool) (t1 t2 : list event) :
  readmits ep w (t1 ++ t2) = Some w' → ∃ w1, readmits ep w1 t2 = Some w'.
Proof.
  revert w. induction t1 as [|e t1 IH]; intros w; simpl; [by exists w|].
  destruct e as [l| | | | | | | | | | | | | | |x nf|]; try apply IH.
  - destruct l; apply IH.
  - destruct (0 <=? nf); [|apply IH].
    destruct (w && negb _); [done|apply IH].
Qed.

(** While the watch is set, the next connection accepted is admitted. *)
Lemma readmits_next (ep : Z) (w' : bool) (tr2 tr3 : list event) (l nf : Z) :
  no_accept tr2 = true → 0 ≤ nf →
  readmits ep true (tr2 ++ SysAccept l nf :: tr3) = Some w' →
  admission ep nf tr3 = true.
Proof.
  intros Hno Hnf. induction tr2 as [|e tr2 IH]; simpl.
  - rewrite (proj2 (Z.leb_le _ _) Hnf). by destruct (admission ep nf tr3).
  - simpl in Hno. apply andb_prop in Hno as [He Hno]. specialize (IH Hno).
    destruct e as [l'| | | | | | | | | | | | | | |x nf'|]; try apply IH.
    + destruct l'; apply IH.
    + simpl in He. destruct (0 <=? nf'); [done|apply IH].
Qed.

Lemma admission_spec (ep nf : Z) (tr : list event) :
  admission ep nf tr = true →
  ∃ g r tr',
    tr = [Out LNewConnection; SysFcntlGetfl nf g;
          SysFcntlSetfl nf (Z.lor g O_NONBLOCK) r; SysEpollAdd ep nf; Out LActive]
         ++ tr'.
Proof.
  intros H. unfold admission in H.
  repeat (match type of H with
          | context [match ?x with _ => _ end] =>
              is_var x; destruct x; simpl in H; try done
          end).
  repeat (apply andb_prop in H as [H ?]).
  repeat match goal with E : (_ =? _) = true |- _ => apply Z.eqb_eq in E end.
  subst. eauto.
Qed.

(** What [readmits] says of a trace: the connection accepted next after a
    removal is admitted. *)
Lemma readmits_spec (ep : Z) (w w' : bool) (tr1 tr2 tr3 : list event)
    (e : event) (l nf : Z) :
  readmits ep w (tr1 ++ e :: tr2 ++ SysAccept l nf :: tr3) = Some w' →
  is_removal e = true → no_accept tr2 = true → 0 ≤ nf →
  ∃ g r tr4,
    tr3 = [Out LNewConnection; SysFcntlGetfl nf g;
           SysFcntlSetfl nf (Z.lor g O_NONBLOCK) r; SysEpollAdd ep nf; Out LActive]
          ++ tr4.
Proof.
  intros H He Hno Hnf. apply readmits_suffix in H as [w1 H].
  apply admission_spec.
  apply (readmits_next ep w' tr2 tr3 l nf Hno Hnf).
  destruct e as [[]| | | | | | | | | | | | | | | |]; try done.
Qed.

Section Reuse.

Variables (sfd : SignalFd.t) (lst : Listener.t) (ep : Epoll.t).

Let J (w : bool) (tr : list event) (w' : bool) : Prop :=
  readmits (Epoll.fd ep) w tr = Some w'.

Lemma reuse_quiet w cl b (tr : list event) :
  forallb quiet tr = true → watched_slot w cl b →
  ∃ w', J w tr w' ∧ watched_slot w' cl b.
Proof.
  intros Hq HR. exists w. split; [|done]. by apply readmits_quiet.
Qed.

Lemma reuse_accept w cl b a :
  watched_slot w cl b →
  ∃ w', J w (snd (accept_step ep lst a cl)) w'
        ∧ watched_slot w' (snd (fst (accept_step ep lst a cl))) b.
Proof.
  intros HR.
  destruct (accept_step_cases ep lst a cl)
    as [(Hlt & ->)|[(Hge & -> & ->)|(Hge & [c ->] & ->)]]; cbn [fst snd].
  - apply reuse_quiet; [|done]. unfold quiet. simpl.
    by rewrite (proj2 (Z.leb_gt _ _) Hlt).
  - exists false. split; [|done]. unfold J. simpl.
    rewrite (proj2 (Z.leb_le _ _) Hge). unfold admission.
    rewrite !Z.eqb_refl. simpl. by rewrite andb_false_r.
  - exists false. split; [|done]. unfold J. simpl.
    rewrite (proj2 (Z.leb_le _ _) Hge).
    destruct w; [|done]. by specialize (HR eq_refl).
Qed.

Lemma reuse_recv w c b r :
  watched_slot w (Some c) b →
  ∃ w', J w (snd (recv_step ep c r)) w'
        ∧ watched_slot w' (snd (fst (recv_step ep c r))) b.
Proof.
  intros HR. assert (w = false) as ->.
  { destruct w; [|done]. by specialize (HR eq_refl). }
  destruct (recv_step_cases ep c r)
    as [(_ & ->)|[(_ & ->)|[(_ & _ & ->)|(_ & _ & _ & ->)]]]; cbn [fst snd].
  - by apply reuse_quiet.
  - exists true. split; [|done]. unfold J, client_close.
    by destruct (_ =? _).
  - by apply reuse_quiet.
  - exists true. split; [|done]. unfold J, client_close.
    by destruct (_ =? _).
Qed.

Lemma reuse_signal w cl b signo :
  watched_slot w cl b →
  ∃ w', J w [SysRead (SignalFd.fd sfd) sizeof_siginfo; Out (signal_line signo)] w'
        ∧ watched_slot w' cl (b || (signo =? SIGTERM)).
Proof.
  intros HR. exists w. split; [|done]. apply readmits_quiet.
  unfold signal_line. simpl. by repeat destruct (_ =? _).
Qed.

(** From any state of the loop, the trace of the loop readmits. *)
Lemma main_loop_readmits (ws : list wait_result) (st : loop_state) (p : pending) :
  ∃ w', readmits (Epoll.fd ep) false (snd (main_loop sfd lst ep ws st p)) = Some w'.
Proof.
  destruct (main_loop_sim J watched_slot sfd lst ep)
    with (ws := ws) (st := st) (p := p) (s := false)
    as (w' & HJ & _); try done.
  - intros s1 s2 s3 t1 t2 H1 H2. unfold J in *. by rewrite (readmits_app _ _ _ _ _ H1).
  - intros. by apply reuse_quiet.
  - intros. by apply reuse_quiet.
  - apply reuse_signal.
  - apply reuse_accept.
  - apply reuse_recv.
  - by exists w'.
Qed.

End Reuse.

Lemma quiet_startup (tr : list event) :
  forallb startup_event tr = true → forallb quiet tr = true.
Proof.
  induction tr as [|e tr IH]; simpl; [done|].
  intros H. apply andb_prop in H as [He Htr]. rewrite (IH Htr), andb_true_r.
  by destruct e.
Qed.

Lemma quiet_close (tr : list event) :
  forallb is_close tr = true → forallb quiet tr = true.
Proof.
  induction tr as [|e tr IH]; simpl; [done|].
  intros H. apply andb_prop in H as [He Htr]. rewrite (IH Htr), andb_true_r.
  by destruct e.
Qed.

(** The trace of any run readmits. *)
Lemma main_readmits (argv : list string) (k : boot) (ws : list wait_result)
    (p : pending) :
  ∃ w', readmits (epoll_create_ret k) false (trace (main argv k ws p)) = Some w'.
Proof.
  destruct (main_cases argv k ws p) as (sfd & lst & ep & tr_ctor & Hc & Hm).
  pose proof (construct_startup_events (select_port argv) k) as Hq.
  rewrite Hc in Hq. simpl in Hq. apply quiet_startup in Hq.
  pose proof (construct_fst (select_port argv) k) as Hfst.
  rewrite Hc in Hfst. simpl in Hfst. injection Hfst as _ _ Hep.
  assert (Epoll.fd ep = epoll_create_ret k) as Hfd by by subst ep.
  destruct Hm as [(_ & _ & ->)|(_ & tr_loop & Hm)]; cbn [trace].
  { exists false. apply readmits_quiet. rewrite forallb_app, Hq. simpl.
    apply quiet_close, teardown_all_close. }
  assert (readmits (epoll_create_ret k) false
            (tr_ctor ++ announce sfd lst ep (select_port argv)) = Some false) as Hstart.
  { apply readmits_quiet. by rewrite forallb_app, Hq. }
  pose proof (main_loop_readmits sfd lst ep ws initial_state p) as [w' Hloop].
  rewrite Hfd in Hloop.
  cbn zeta in Hm.
  destruct Hm as [(st & q & Hl & _ & _ & ->)|(Hl & _ & ->)];
    rewrite Hl in Hloop; cbn [fst snd] in Hloop; cbn [trace]; exists w'.
  - rewrite (app_assoc tr_ctor), <- (app_assoc (tr_ctor ++ _)).
    rewrite (readmits_app _ _ _ _ _ Hstart), (readmits_app _ _ _ _ _ Hloop).
    apply readmits_quiet. simpl. apply quiet_close, teardown_all_close.
  - rewrite (app_assoc tr_ctor). by rewrite (readmits_app _ _ _ _ _ Hstart).
Qed.

Lemma recv_loop_removes (ep : Epoll.t) (c : Client.t) (r : recv_result)
    (rs : list recv_result) :
  recv_ret r = 0
  ∨ (recv_ret r < 0 ∧ recv_errno r ≠ EAGAIN ∧ recv_errno r ≠ EWOULDBLOCK) →
  fst (fst (recv_loop ep c (r :: rs))) = None.
Proof.
  intros H. rewrite recv_loop_cons.
  destruct (recv_step_cases ep c r)
    as [(? & _)|[(_ & ->)|[(? & He & _)|(_ & _ & _ & ->)]]]; try done.
  - lia.
  - destruct H as [?|(_ & ? & ?)]; [lia|]. by destruct He.
Qed.

(** The loop stores what the receive loop leaves: after the event of a
    client that is removed, the slot of the loop state is empty. *)
Lemma dispatch_removes (sfd : SignalFd.t) (lst : Listener.t) (ep : Epoll.t)
    (st : loop_state) (p : pending) (c : Client.t) (r : recv_result)
    (rs : list recv_result) :
  client st = Some c →
  Client.fd c ≠ SignalFd.fd sfd → Client.fd c ≠ Listener.fd lst →
  recvs p = r :: rs →
  recv_ret r = 0
  ∨ (recv_ret r < 0 ∧ recv_errno r ≠ EAGAIN ∧ recv_errno r ≠ EWOULDBLOCK) →
  client (fst (fst (dispatch sfd lst ep (Client.fd c) st p))) = None.
Proof.
  intros Hcl Hs Hl Hrs Hr. unfold dispatch.
  rewrite (proj2 (Z.eqb_neq _ _) Hs), (proj2 (Z.eqb_neq _ _) Hl), Hcl, Z.eqb_refl, Hrs.
  pose proof (recv_loop_removes ep c r rs Hr) as Hnone.
  by destruct (recv_loop ep c (r :: rs)) as [[cl tr] rest]; simpl in *; subst.
Qed.

(** A removal line is written by the receive loop exactly when [recv]
    returned zero or failed with an error other than would-block. *)
Lemma recv_step_removal (ep : Epoll.t) (c : Client.t) (r : recv_result) :
  existsb is_removal (snd (recv_step ep c r)) = true
  ↔ recv_ret r = 0
    ∨ (recv_ret r < 0 ∧ recv_errno r ≠ EAGAIN ∧ recv_errno r ≠ EWOULDBLOCK).
Proof.
  destruct (recv_step_cases ep c r)
    as [(? & ->)|[(? & ->)|[(? & He & ->)|(? & ? & ? & ->)]]]; cbn [fst snd];
    simpl; split; try done; try lia; try (by left); try (by right).
Qed.

(** C6: when a receive returns zero or fails with an error other than
    would-block, the line that reports the removal is written and the slot
    is empty afterwards, in what the receive loop returns and in the state
    of the loop after the event.  In the trace of any run, and of the loop
    from any state, the connection accepted next after such a line is
    admitted: its [accept] is followed by the line about a new connection,
    the two [fcntl]s, its registration, and the line that declares it
    active.  From any point at which the slot is empty, through the rest of
    the batch and the rest of the run, the slot stays empty until a
    connection is accepted, and the first connection accepted is
    admitted. *)
Theorem slot_reuse :
  (∀ ep c r rs,
     recv_ret r = 0
     ∨ (recv_ret r < 0 ∧ recv_errno r ≠ EAGAIN ∧ recv_errno r ≠ EWOULDBLOCK) →
     fst (fst (recv_loop ep c (r :: rs))) = None)
  ∧ (∀ ep c r,
       existsb is_removal (snd (recv_step ep c r)) = true
       ↔ recv_ret r = 0
         ∨ (recv_ret r < 0 ∧ recv_errno r ≠ EAGAIN ∧ recv_errno r ≠ EWOULDBLOCK))
  ∧ (∀ sfd lst ep st p c r rs,
       client st = Some c →
       Client.fd c ≠ SignalFd.fd sfd → Client.fd c ≠ Listener.fd lst →
       recvs p = r :: rs →
       recv_ret r = 0
       ∨ (recv_ret r < 0 ∧ recv_errno r ≠ EAGAIN ∧ recv_errno r ≠ EWOULDBLOCK) →
       client (fst (fst (dispatch sfd lst ep (Client.fd c) st p))) = None)
  ∧ (∀ argv k ws p tr1 e tr2 l nf tr3,
       trace (main argv k ws p) = tr1 ++ e :: tr2 ++ SysAccept l nf :: tr3 →
       e = Out LClosed ∨ e = Out LRecvError →
       no_accept tr2 = true → 0 ≤ nf →
       ∃ g r tr4,
         tr3 = [Out LNewConnection; SysFcntlGetfl nf g;
                SysFcntlSetfl nf (Z.lor g O_NONBLOCK) r;
                SysEpollAdd (epoll_create_ret k) nf; Out LActive] ++ tr4)
  ∧ (∀ sfd lst ep ws st p tr1 e tr2 l nf tr3,
       snd (main_loop sfd lst ep ws st p) = tr1 ++ e :: tr2 ++ SysAccept l nf :: tr3 →
       e = Out LClosed ∨ e = Out LRecvError →
       no_accept tr2 = true → 0 ≤ nf →
       ∃ g r tr4,
         tr3 = [Out LNewConnection; SysFcntlGetfl nf g;
                SysFcntlSetfl nf (Z.lor g O_NONBLOCK) r;
                SysEpollAdd (Epoll.fd ep) nf; Out LActive] ++ tr4)
  ∧ (∀ sfd lst ep i todo st p,
       client st = None →
       admits_first (Epoll.fd ep) (snd (for_loop sfd lst ep i todo st p)) = true
       ∧ (no_accept (snd (for_loop sfd lst ep i todo st p)) = true →
          client (fst (fst (for_loop sfd lst ep i todo st p))) = None))
  ∧ (∀ sfd lst ep ws st p,
       client st = None →
       admits_first (Epoll.fd ep) (snd (main_loop sfd lst ep ws st p)) = true)
  ∧ (∀ ep tr1 l nf tr2,
       admits_first ep (tr1 ++ SysAccept l nf :: tr2) = true →
       no_accept tr1 = true → 0 ≤ nf →
       ∃ g r tr3,
         tr2 = [Out LNewConnection; SysFcntlGetfl nf g;
                SysFcntlSetfl nf (Z.lor g O_NONBLOCK) r; SysEpollAdd ep nf;
                Out LActive] ++ tr3).
Proof.
  split_and!.
  - apply recv_loop_removes.
  - apply recv_step_removal.
  - apply dispatch_removes.
  - intros argv k ws p tr1 e tr2 l nf tr3 Htr He Hno Hnf.
    destruct (main_readmits argv k ws p) as [w' Hw]. rewrite Htr in Hw.
    apply (readmits_spec _ _ _ _ _ _ _ _ _ Hw); [|done..].
    by destruct He as [->| ->].
  - intros sfd lst ep ws st p tr1 e tr2 l nf tr3 Htr He Hno Hnf.
    destruct (main_loop_readmits sfd lst ep ws st p) as [w' Hw]. rewrite Htr in Hw.
    apply (readmits_spec _ _ _ _ _ _ _ _ _ Hw); [|done..].
    by destruct He as [->| ->].
  - apply for_loop_watch.
  - apply main_loop_watch.
  - intros ep tr1 l nf tr2. apply admits_first_spec.
Qed.

Lemma slot_reuse_witness :
  let run := trace (main argv_9090 boot_ok waits_reconnect script_reconnect) in
  let sfd := SignalFd.mk [SIGHUP; SIGTERM] (UniqueFd.mk 3) in
  let lst := Listener.mk (UniqueFd.mk 4) in
  let ep := Epoll.mk (UniqueFd.mk 5) in
  let c := Client.mk (UniqueFd.mk 6) in
  let st := {| client := Some c; stop := false; events := [6; 0; 0; 0; 0; 0; 0; 0] |} in
  let st0 := {| client := None; stop := false; events := [6; 3; 4; 0; 0; 0; 0; 0] |} in
  let p0 := {| sigreads := [signal SIGHUP]; accepts := [accepted 6; accepted 7];
               recvs := [] |} in
  run = take 24 run ++ Out LClosed
          :: [SysEpollDel 5 6; SysClose 6; SysEpollWait 5 8 (-1) 1]
          ++ SysAccept 4 6 :: drop 29 run
  ∧ (∃ g r tr4,
       drop 29 run
       = [Out LNewConnection; SysFcntlGetfl 6 g;
          SysFcntlSetfl 6 (Z.lor g O_NONBLOCK) r; SysEpollAdd 5 6; Out LActive]
         ++ tr4)
  ∧ fst (fst (recv_loop ep c [received 0])) = None
  ∧ fst (fst (recv_loop ep c [recv_failed 104])) = None
  ∧ client (fst (fst (dispatch sfd lst ep 6 st
                        {| sigreads := []; accepts := []; recvs := [received 0] |})))
    = None
  ∧ admits_first 5 (snd (for_loop sfd lst ep 0 3 st0 p0)) = true.
Proof.
  intros run sfd lst ep c st st0 p0.
  destruct slot_reuse as (Hgone & _ & Hstore & Hrun & _ & Hbatch & _ & _).
  assert (run = take 24 run ++ Out LClosed
                  :: [SysEpollDel 5 6; SysClose 6; SysEpollWait 5 8 (-1) 1]
                  ++ SysAccept 4 6 :: drop 29 run) as Hsplit
    by (vm_compute; reflexivity).
  split_and!.
  - exact Hsplit.
  - apply (Hrun argv_9090 boot_ok waits_reconnect script_reconnect
             (take 24 run) (Out LClosed)
             [SysEpollDel 5 6; SysClose 6; SysEpollWait 5 8 (-1) 1] 4 6 (drop 29 run)).
    + exact Hsplit.
    + by left.
    + reflexivity.
    + lia.
  - apply Hgone. left. reflexivity.
  - apply Hgone. right. split_and!; [reflexivity|discriminate|discriminate].
  - apply (Hstore sfd lst ep st _ c (received 0) []).
    + reflexivity.
    + discriminate.
    + discriminate.
    + reflexivity.
    + left. reflexivity.
  - apply (Hbatch sfd lst ep 0%nat 3%nat st0 p0). reflexivity.
Defined.

(** ** Deregistration and release *)

Lemma kreplay_app (ep : Z) (k : kernel) (tr1 tr2 : list event) :
  kreplay ep k (tr1 ++ tr2) = kreplay ep (kreplay ep k tr1) tr2.
Proof. apply fold_left_app. Qed.

Lemma always_app (ok : kernel → event → bool) (ep : Z) (k : kernel)
    (tr1 tr2 : list event) :
  always ok ep k (tr1 ++ tr2)
  = always ok ep k tr1 && always ok ep (kreplay ep k tr1) tr2.
Proof.
  revert k. induction tr1 as [|e tr1 IH]; intros k; simpl; [done|].
  by rewrite IH, andb_assoc.
Qed.

Lemma followed_nil (ep : Z) (s : option kernel) : followed ep s [] s.
Proof. by destruct s. Qed.

Lemma followed_app (ep : Z) (s1 s2 s3 : option kernel) (t1 t2 : list event) :
  followed ep s1 t1 s2 → followed ep s2 t2 s3 → followed ep s1 (t1 ++ t2) s3.
Proof.
  unfold followed, well_allocated, disciplined.
  destruct s1 as [k|]; [|by intros -> ->].
  rewrite !always_app, kreplay_app.
  destruct (always allocation_ok ep k t1); simpl; [|by intros -> ->].
  intros [-> ->].
  destruct (always allocation_ok ep (kreplay ep k t1) t2); simpl; [|done].
  by intros [-> ->].
Qed.

Lemma inert_kstep (ep : Z) (k : kernel) (e : event) :
  inert e = true →
  kstep ep k e = k ∧ allocation_ok k e = true ∧ closes_registered k e = false.
Proof. by destruct e. Qed.

Lemma followed_inert (ep : Z) (k : kernel) (tr : list event) :
  forallb inert tr = true → followed ep (Some k) tr (Some k).
Proof.
  intros Hall. unfold followed, well_allocated, disciplined.
  assert (∀ ok, (∀ e, inert e = true → ok k e = true) →
            always ok ep k tr = true ∧ kreplay ep k tr = k) as H.
  { intros ok Hok. induction tr as [|e tr IH]; simpl; [done|].
    simpl in Hall. apply andb_prop in Hall as [He Hall].
    destruct (inert_kstep ep k e He) as (-> & _ & _).
    rewrite (Hok e He). simpl. by apply IH. }
  destruct (H allocation_ok) as [-> ->]; [intros e He; by apply inert_kstep|].
  split; [|done].
  apply H. intros e He. by destruct (inert_kstep ep k e He) as (_ & _ & ->).
Qed.

Section Kernel.

Variables (sfd : SignalFd.t) (lst : Listener.t) (ep : Epoll.t).

Let J := followed (Epoll.fd ep).
Let R := fits (SignalFd.fd sfd) (Listener.fd lst) (Epoll.fd ep).

Lemma kernel_quiet s cl b (tr : list event) :
  forallb inert tr = true → R s cl b → ∃ s', J s tr s' ∧ R s' cl b.
Proof.
  intros Hq HR. exists s. split; [|done].
  destruct s as [k|]; [by apply followed_inert|done].
Qed.

Lemma kernel_accept s cl b a :
  R s cl b →
  ∃ s', J s (snd (accept_step ep lst a cl)) s'
        ∧ R s' (snd (fst (accept_step ep lst a cl))) b.
Proof.
  intros HR. destruct s as [k|]; [|by exists None].
  destruct (accept_step_cases ep lst a cl)
    as [(Hlt & ->)|[(Hge & -> & ->)|(Hge & [c ->] & ->)]]; cbn [fst snd];
    unfold J, followed, well_allocated, disciplined, allocation_ok; simpl.
  - rewrite (proj2 (Z.leb_gt _ _) Hlt). simpl. rewrite orb_false_r.
    destruct (acc_ret a =? -1); [by exists (Some k)|by exists None].
  - destruct (Z.eqb_spec (acc_ret a) (-1)) as [Hm|_]; [lia|].
    rewrite (proj2 (Z.leb_le _ _) Hge). simpl.
    case_bool_decide as Hfresh; simpl; [|by exists None].
    rewrite !decide_True by done. simpl.
    eexists. split; [split; reflexivity|].
    destruct HR as (Hi & Ho & Hep). simpl in *.
    unfold R, fits, registered_as, Client.fd. simpl.
    split_and!; set_solver.
  - destruct (Z.eqb_spec (acc_ret a) (-1)) as [Hm|_]; [lia|].
    rewrite (proj2 (Z.leb_le _ _) Hge). simpl.
    case_bool_decide as Hfresh; simpl; [|by exists None].
    destruct HR as (Hi & Ho & Hep). simpl in *.
    assert (acc_ret a ≠ Epoll.fd ep) by set_solver.
    rewrite decide_False by done.
    rewrite bool_decide_eq_false_2 by set_solver. simpl.
    eexists. split; [split; reflexivity|].
    unfold R, fits, registered_as. simpl.
    split_and!; set_solver.
Qed.

Lemma kernel_recv s c b r :
  R s (Some c) b →
  ∃ s', J s (snd (recv_step ep c r)) s'
        ∧ R s' (snd (fst (recv_step ep c r))) b.
Proof.
  intros HR. destruct s as [k|]; [|by exists None].
  destruct (recv_step_cases ep c r)
    as [(_ & ->)|[(_ & ->)|[(_ & _ & ->)|(_ & _ & _ & ->)]]]; cbn [fst snd];
    try (by apply kernel_quiet).
  all: destruct HR as (Hi & Ho & Hep); simpl in Hi, Ho, Hep.
  all: assert (Client.fd c ≠ Epoll.fd ep) by set_solver.
  all: unfold J, followed, well_allocated, disciplined, allocation_ok, client_close.
  all: destruct (Client.fd c =? -1); simpl.
  all: rewrite ?decide_True by done; rewrite ?decide_False by done; simpl.
  all: rewrite ?bool_decide_eq_false_2 by set_solver; simpl.
  all: eexists; (split; [split; reflexivity|]).
  all: unfold R, fits, registered_as; simpl.
  all: split_and!; set_solver.
Qed.

Lemma main_loop_kernel (ws : list wait_result) (st : loop_state) (p : pending)
    (k : kernel) :
  registered_as (SignalFd.fd sfd) (Listener.fd lst) (Epoll.fd ep) k (client st) →
  ∃ s', followed (Epoll.fd ep) (Some k) (snd (main_loop sfd lst ep ws st p)) s'
        ∧ match fst (main_loop sfd lst ep ws st p) with
          | Some (st', _) =>
              fits (SignalFd.fd sfd) (Listener.fd lst) (Epoll.fd ep) s' (client st') true
          | None => True
          end.
Proof.
  intros HR.
  destruct (main_loop_sim J R sfd lst ep (followed_nil (Epoll.fd ep))
              (followed_app (Epoll.fd ep)))
    with (ws := ws) (st := st) (p := p) (s := Some k) as (s' & HJ & HR'); try done.
  - intros. by apply kernel_quiet.
  - intros. by apply kernel_quiet.
  - intros. apply kernel_quiet; [|done]. unfold signal_line.
    by repeat destruct (_ =? _).
  - apply kernel_accept.
  - apply kernel_recv.
  - exists s'. split; [done|].
    destruct (fst (main_loop sfd lst ep ws st p)) as [[st' q]|]; [|done].
    by destruct HR' as [HR' _].
Qed.

End Kernel.

(** The constructors when every call they look at succeeds. *)
Lemma construct_valid (port : Z) (k : boot) :
  signalfd_ret k ≠ -1 →
  0 ≤ Listener.socket_ret (listener_boot k) →
  0 ≤ Listener.bind_ret (listener_boot k) →
  0 ≤ Listener.listen_ret (listener_boot k) →
  construct port k
  = (SignalFd.mk [SIGHUP; SIGTERM] (UniqueFd.mk (signalfd_ret k)),
     Listener.mk (UniqueFd.mk (Listener.socket_ret (listener_boot k))),
     Epoll.mk (UniqueFd.mk (epoll_create_ret k)),
     [SysSigprocmask [SIGHUP; SIGTERM];
      SysSignalfd [SIGHUP; SIGTERM] (signalfd_ret k)]
       ++ snd (Listener.create port (listener_boot k))
       ++ [SysEpollCreate (epoll_create_ret k)]).
Proof.
  intros Hs Hsock Hbind Hlisten. unfold construct.
  rewrite listener_create_succeeds by done. reflexivity.
Qed.

Lemma startup_kernel (port : Z) (k : boot) (o : gset Z) :
  signalfd_ret k ≠ -1 →
  0 ≤ Listener.socket_ret (listener_boot k) →
  0 ≤ Listener.bind_ret (listener_boot k) →
  0 ≤ Listener.listen_ret (listener_boot k) →
  epoll_create_ret k ≠ -1 →
  let '(sfd, lst, ep, tr_ctor) := construct port k in
  ∃ s', followed (epoll_create_ret k) (Some (fresh_kernel o))
          (tr_ctor ++ announce sfd lst ep port) s'
        ∧ fits (signalfd_ret k) (Listener.socket_ret (listener_boot k))
            (epoll_create_ret k) s' None false.
Proof.
  intros Hs Hsock Hbind Hlisten Hep.
  rewrite construct_valid by done.
  rewrite listener_create_succeeds by done.
  unfold followed, well_allocated, disciplined, allocation_ok, announce. simpl.
  unfold Epoll.fd, SignalFd.fd, Listener.fd, UniqueFd.get. simpl.
  destruct (Z.eqb_spec (signalfd_ret k) (-1)) as [|_]; [done|].
  destruct (Z.eqb_spec (epoll_create_ret k) (-1)) as [|_]; [done|].
  destruct (Z.eqb_spec (Listener.socket_ret (listener_boot k)) (-1)) as [|_]; [lia|].
  rewrite (proj2 (Z.leb_le _ _) Hsock). simpl.
  destruct (Z.leb_spec 0 (signalfd_ret k)); simpl; [|by exists None].
  case_bool_decide as H1; simpl; [|by exists None].
  case_bool_decide as H2; simpl; [|by exists None].
  destruct (Z.leb_spec 0 (epoll_create_ret k)); simpl; [|by exists None].
  case_bool_decide as H3; simpl; [|by exists None].
  rewrite !decide_True by done. simpl.
  eexists. split; [split; reflexivity|].
  unfold fits, registered_as. simpl. split_and!; set_solver.
Qed.

Lemma disciplined_unregistered (ep : Z) (k : kernel) (tr : list event) :
  interest k = ∅ → outside_loop tr = true → disciplined ep k tr = true.
Proof.
  unfold disciplined. revert k.
  induction tr as [|e tr IH]; intros k Hk Hout; simpl; [done|].
  simpl in Hout. apply andb_prop in Hout as [He Hout].
  assert (closes_registered k e = false) as ->.
  { destruct e; try done. simpl. rewrite Hk. by apply bool_decide_eq_false_2. }
  simpl. apply IH; [|done].
  destruct e; try done; simpl.
  - rewrite Hk. case_decide; set_solver.
  - by destruct (0 <=? ret).
  - by destruct (0 <=? ret).
  - by destruct (0 <=? ret).
Qed.

Lemma teardown_valid (sigs : list Z) (r1 s r3 : Z) (cl : option Client.t) :
  r1 ≠ -1 → s ≠ -1 → r3 ≠ -1 →
  teardown (SignalFd.mk sigs (UniqueFd.mk r1)) (Listener.mk (UniqueFd.mk s))
    (Epoll.mk (UniqueFd.mk r3)) cl
  = slot_destroy cl ++ [SysClose r3; SysClose s; SysClose r1].
Proof.
  intros H1 H2 H3. unfold teardown, Epoll.destroy, Listener.destroy,
    SignalFd.destroy, UniqueFd.destroy. simpl.
  destruct (Z.eqb_spec r1 (-1)), (Z.eqb_spec s (-1)), (Z.eqb_spec r3 (-1)); done.
Qed.

(** The numbers behind a start that did not fail. *)
Lemma startup_ok_facts (port : Z) (k : boot) :
  SignalFd.valid (fst (SignalFd.create [SIGHUP; SIGTERM] (signalfd_ret k)))
  && Listener.valid (fst (Listener.create port (listener_boot k)))
  && Epoll.valid (fst (Epoll.create (epoll_create_ret k))) = true →
  signalfd_ret k ≠ -1
  ∧ 0 ≤ Listener.socket_ret (listener_boot k)
  ∧ 0 ≤ Listener.bind_ret (listener_boot k)
  ∧ 0 ≤ Listener.listen_ret (listener_boot k)
  ∧ epoll_create_ret k ≠ -1.
Proof.
  intros Hv. pose proof (startup_fails_iff port k) as Hf. rewrite Hv in Hf.
  assert (¬ (signalfd_ret k = -1
             ∨ (Listener.socket_ret (listener_boot k) < 0
                ∨ Listener.bind_ret (listener_boot k) < 0
                ∨ Listener.listen_ret (listener_boot k) < 0)
             ∨ epoll_create_ret k = -1)) as Hn.
  { intros H. by apply Hf in H. }
  lia.
Qed.

(** What the kernel's side looks like when the loop of a run that started
    well is over, or the script has run out. *)
Lemma serve_kernel (argv : list string) (k : boot) (ws : list wait_result)
    (p : pending) (o : gset Z) :
  let ep := epoll_create_ret k in
  let K := fresh_kernel o in
  let running := snd (serve argv k ws p) in
  fst (serve argv k ws p) ≠ Failed →
  well_allocated ep K running = true →
  disciplined ep K running = true
  ∧ ∀ st, fst (serve argv k ws p) = Stopped st →
          registered_as (signalfd_ret k) (Listener.socket_ret (listener_boot k)) ep
            (kreplay ep K running) (client st).
Proof.
  intros ep K running Hph Hwa. subst running.
  destruct (main_cases argv k ws p) as (sfd & lst & ep' & tr_ctor & Hc & Hm).
  destruct Hm as [(_ & Hs & _)|(Hv & tr_loop & Hm)]; [by rewrite Hs in Hph|].
  pose proof (construct_fst (select_port argv) k) as Hfst.
  rewrite Hc in Hfst. simpl in Hfst. injection Hfst as Hsfd Hlst Hep.
  rewrite Hsfd, Hlst, Hep in Hv. clear Hsfd Hlst Hep.
  destruct (startup_ok_facts _ _ Hv) as (H1 & H2 & H3 & H4 & H5). clear Hv.
  pose proof (startup_kernel (select_port argv) k o H1 H2 H3 H4 H5) as Hstart.
  rewrite Hc in Hstart. destruct Hstart as (s1 & HJ1 & HR1).
  rewrite construct_valid in Hc by done. injection Hc as <- <- <- Htr.
  set (sfd := SignalFd.mk [SIGHUP; SIGTERM] (UniqueFd.mk (signalfd_ret k))) in *.
  set (lst := Listener.mk (UniqueFd.mk (Listener.socket_ret (listener_boot k)))) in *.
  set (ep' := Epoll.mk (UniqueFd.mk (epoll_create_ret k))) in *.
  set (boot_tr := tr_ctor ++ announce sfd lst ep' (select_port argv)) in *.
  assert (∀ ph, serve argv k ws p = (ph, boot_tr ++ tr_loop) →
          snd (main_loop sfd lst ep' ws initial_state p) = tr_loop →
          disciplined ep K (snd (serve argv k ws p)) = true
          ∧ ∀ st, fst (main_loop sfd lst ep' ws initial_state p) = Some st →
                  registered_as (signalfd_ret k)
                    (Listener.socket_ret (listener_boot k)) ep
                    (kreplay ep K (snd (serve argv k ws p))) (client (fst st)))
    as Hgen.
  { intros ph Hs Hl. rewrite Hs in Hwa |- *. cbn [snd] in Hwa |- *.
    unfold well_allocated, disciplined in *.
    rewrite always_app in Hwa. apply andb_prop in Hwa as [Hwa1 Hwa2].
    unfold followed, well_allocated in HJ1. fold K ep in HJ1. rewrite Hwa1 in HJ1.
    destruct HJ1 as [Hd1 ->]. simpl in HR1.
    destruct (main_loop_kernel sfd lst ep' ws initial_state p
                (kreplay ep K boot_tr) HR1) as (s2 & HJ2 & HR2).
    rewrite Hl in HJ2. unfold followed, well_allocated in HJ2.
    change (Epoll.fd ep') with ep in HJ2.
    rewrite Hwa2 in HJ2. destruct HJ2 as [Hd2 ->].
    rewrite always_app, kreplay_app. unfold disciplined in Hd1, Hd2.
    rewrite Hd1, Hd2. split; [done|].
    intros [st q] Hst. rewrite Hst in HR2. exact HR2. }
  unfold boot_tr in Hgen. rewrite <- app_assoc in Hgen.
  destruct Hm as [(st & q & Hl & _ & Hs & _)|(Hl & Hs & _)].
  - destruct (Hgen (Stopped st) Hs) as [Hd Hreg]; [by rewrite Hl|].
    split; [done|]. intros st' Hst'. rewrite Hs in Hst'. simpl in Hst'.
    inversion Hst'; subst st'. apply (Hreg (st, q)). by rewrite Hl.
  - destruct (Hgen Waiting Hs) as [Hd _]; [by rewrite Hl|].
    split; [done|]. intros st' Hst'. by rewrite Hs in Hst'.
Qed.

Lemma leave_stopped (argv : list string) (k : boot) (st : loop_state) :
  signalfd_ret k ≠ -1 →
  0 ≤ Listener.socket_ret (listener_boot k) →
  0 ≤ Listener.bind_ret (listener_boot k) →
  0 ≤ Listener.listen_ret (listener_boot k) →
  epoll_create_ret k ≠ -1 →
  (∀ x, x ∈ slot_fds (client st) → 0 ≤ x) →
  snd (leave argv k (Stopped st))
  = Out LStopped
    :: map SysClose
         (match client st with Some c => [Client.fd c] | None => [] end
          ++ [epoll_create_ret k; Listener.socket_ret (listener_boot k);
              signalfd_ret k]).
Proof.
  intros H1 H2 H3 H4 H5 Hslot. unfold leave.
  rewrite construct_valid by done. simpl.
  rewrite teardown_valid by (done || lia).
  destruct (client st) as [c|]; [|done].
  rewrite slot_destroy_Some, client_close_valid; [done|].
  assert (0 ≤ Client.fd c) by (apply Hslot; simpl; set_solver). lia.
Qed.

(** C5, as stated, fails on the shutdown path: a client that is still
    connected when SIGTERM arrives is closed by its destructor while its
    identifier is in the interest list; no deregistration precedes the
    close. *)
Lemma client_closed_while_registered :
  let r := main argv_9090 boot_ok waits_client_then_term script_client_then_term in
  exit_code r = Some 0
  ∧ trace r
    = [SysSigprocmask [1; 15]; SysSignalfd [1; 15] 3; SysSocket 4;
       SysSetsockopt 4 0; SysBind 4 9090 0; SysListen 4 0; SysFcntlGetfl 4 2;
       SysFcntlSetfl 4 2050 0; SysEpollCreate 5; SysEpollAdd 5 3; SysEpollAdd 5 4;
       Out (LListening 9090);
       SysEpollWait 5 8 (-1) 1; SysAccept 4 6; Out LNewConnection;
       SysFcntlGetfl 6 2; SysFcntlSetfl 6 2050 0; SysEpollAdd 5 6; Out LActive;
       SysAccept 4 (-1);
       SysEpollWait 5 8 (-1) 1; SysRead 3 128; Out LSigTerm; SysRead 3 (-1);
       Out LStopped; SysClose 6; SysClose 5; SysClose 4; SysClose 3]
  ∧ well_allocated 5 (fresh_kernel {[0; 1; 2]}) (trace r) = true
  ∧ disciplined 5 (fresh_kernel {[0; 1; 2]}) (trace r) = false
  ∧ 6 ∈ interest (kreplay 5 (fresh_kernel {[0; 1; 2]}) (take 25 (trace r)))
  ∧ nth 25 (trace r) (Out LStopped) = SysClose 6.
Proof.
  intros r. subst r. split_and!.
  - vm_compute. reflexivity.
  - vm_compute. reflexivity.
  - vm_compute. reflexivity.
  - vm_compute. reflexivity.
  - apply (bool_decide_eq_true_1 _). vm_compute. reflexivity.
  - vm_compute. reflexivity.
Qed.

(** C5 (amended): as long as the loop runs, no identifier is closed while
    it is registered: the client's identifier is deregistered before the
    slot is emptied, and a rejected connection was never registered (for
    every run in which the kernel hands out only identifiers that are not
    open).  A start that fails registers nothing.  On the way out after
    SIGTERM, nothing is deregistered: the destructors close the client's
    identifier, if a client is still connected, while it is registered; then
    the epoll instance; then the listening socket and the signalfd. *)
Theorem release_discipline (argv : list string) (k : boot)
    (ws : list wait_result) (p : pending) (o : gset Z) :
  let ep := epoll_create_ret k in
  let K := fresh_kernel o in
  let running := snd (serve argv k ws p) in
  let r := main argv k ws p in
  well_allocated ep K running = true →
  disciplined ep K running = true
  ∧ (fst (serve argv k ws p) = Waiting → trace r = running)
  ∧ (fst (serve argv k ws p) = Failed → disciplined ep K (trace r) = true)
  ∧ (∀ st, fst (serve argv k ws p) = Stopped st →
       trace r
       = running
           ++ Out LStopped
              :: map SysClose
                   (match client st with Some c => [Client.fd c] | None => [] end
                    ++ [ep; Listener.socket_ret (listener_boot k); signalfd_ret k])
       ∧ (disciplined ep K (trace r) = true ↔ client st = None)).
Proof.
  intros ep K running r Hwa. subst running r.
  rewrite main_unfold. cbn [trace].
  destruct (fst (serve argv k ws p)) as [|st|] eqn:Hph.
  - pose proof (main_failed argv k ws p Hph) as (_ & Hout & _).
    rewrite main_unfold in Hout. cbn [trace] in Hout. rewrite Hph in Hout.
    pose proof Hout as Hout'.
    rewrite outside_loop_app in Hout'. apply andb_prop in Hout' as [Hrun _].
    split_and!; try done.
    + by apply disciplined_unregistered.
    + intros _. by apply disciplined_unregistered.
  - destruct (serve_kernel argv k ws p o) as [Hd Hreg];
      [by rewrite Hph|done|].
    specialize (Hreg st Hph). fold ep K in Hd, Hreg.
    assert (SignalFd.valid (fst (SignalFd.create [SIGHUP; SIGTERM] (signalfd_ret k)))
            && Listener.valid
                 (fst (Listener.create (select_port argv) (listener_boot k)))
            && Epoll.valid (fst (Epoll.create (epoll_create_ret k))) = true) as Hv.
    { destruct (_ && _) eqn:E; [done|].
      apply serve_failed_iff with (ws := ws) (p := p) in E. congruence. }
    destruct (startup_ok_facts _ _ Hv) as (H1 & H2 & H3 & H4 & H5).
    destruct Hreg as (Hi & Ho & Hne1 & Hne2 & Hep & Hs1 & Hs2 & Hpos).
    rewrite leave_stopped by done.
    split_and!; try done.
    intros st' [= <-]. split; [done|].
    unfold disciplined in *. rewrite always_app, Hd. simpl.
    set (K2 := kreplay ep K (snd (serve argv k ws p))) in *.
    destruct (client st) as [c|]; simpl in *.
    + rewrite bool_decide_eq_true_2 by set_solver. simpl. split; done.
    + rewrite bool_decide_eq_false_2 by set_solver. simpl.
      rewrite decide_True by done.
      rewrite bool_decide_eq_false_2 by set_solver. simpl.
      rewrite bool_decide_eq_false_2; [done|].
      case_decide; set_solver.
  - destruct (serve_kernel argv k ws p o) as [Hd _];
      [by rewrite Hph|done|].
    split_and!; try done. intros _.
    unfold leave. destruct (construct _ _) as [[[? ?] ?] ?]. simpl.
    by rewrite app_nil_r.
Qed.

Lemma release_discipline_witness :
  disciplined (epoll_create_ret boot_ok) (fresh_kernel {[0; 1; 2]})
    (snd (serve argv_9090 boot_ok waits_client_then_term script_client_then_term))
  = true.
Proof.
  refine (proj1 (release_discipline argv_9090 boot_ok waits_client_then_term
                   script_client_then_term {[0; 1; 2]} _)).
  vm_compute. reflexivity.
Defined.

(** * Further properties *)

(** ** The port is always a valid one *)

(** Whatever the arguments, the port the server listens on lies in
    1..65535. *)
Theorem select_port_range (argv : list string) : 1 ≤ select_port argv ≤ 65535.
Proof.
  rewrite select_port_eq. destruct argv as [|a0 [|a rest]]; try lia.
  case_decide; lia.
Qed.

(** ** Draining the client *)

Lemma recv_step_chunk (ep : Epoll.t) (c : Client.t) (r : recv_result) :
  0 < recv_ret r → recv_step ep c r = (Continue, Some c, chunk_events c r).
Proof.
  intros H. destruct (recv_step_cases ep c r)
    as [(_ & ->)|[(? & _)|[(? & _)|(? & _)]]]; try lia. done.
Qed.

Lemma recv_step_breaks (ep : Epoll.t) (c : Client.t) (r : recv_result) :
  recv_ret r ≤ 0 → fst (fst (recv_step ep c r)) = Break.
Proof.
  intros H. destruct (recv_step_cases ep c r)
    as [(? & _)|[(_ & ->)|[(_ & _ & ->)|(_ & _ & _ & ->)]]]; try lia; done.
Qed.

(** Every chunk that is ready is received in the same pass: the receive loop
    goes through all the positive results at the front of the stream, logs
    each with its size, in order, and only then acts on the first result
    that is not positive; the results after that one are left for a later
    pass. *)
Theorem recv_loop_exhausts (ep : Epoll.t) (c : Client.t)
    (chunks : list recv_result) (r : recv_result) (rs : list recv_result) :
  Forall (λ x, 0 < recv_ret x) chunks → recv_ret r ≤ 0 →
  recv_loop ep c (chunks ++ r :: rs)
  = (snd (fst (recv_step ep c r)),
     flat_map (chunk_events c) chunks ++ snd (recv_step ep c r), rs)
  ∧ lines (flat_map (chunk_events c) chunks)
    = map (λ x, LReceived (recv_ret x)) chunks.
Proof.
  intros Hpos Hr. induction Hpos as [|x chunks Hx _ [IH1 IH2]].
  - split; [|done]. cbn [app flat_map]. rewrite recv_loop_cons.
    pose proof (recv_step_breaks ep c r Hr) as Hb.
    by destruct (recv_step ep c r) as [[[|] cl] tr].
  - split.
    + cbn [app flat_map]. rewrite recv_loop_cons, recv_step_chunk by done.
      rewrite IH1. by rewrite app_assoc.
    + cbn [flat_map]. unfold lines in *. rewrite omap_app, IH2. done.
Qed.

Lemma recv_loop_exhausts_witness :
  let ep := Epoll.mk (UniqueFd.mk 5) in
  let c := Client.mk (UniqueFd.mk 6) in
  recv_loop ep c ([received 3; received 4] ++ recv_failed EAGAIN :: [received 9])
  = (Some c,
     [SysRecv 6 4096 3; Out (LReceived 3); SysRecv 6 4096 4; Out (LReceived 4);
      SysRecv 6 4096 (-1)],
     [received 9]).
Proof.
  intros ep c.
  refine (proj1 (recv_loop_exhausts ep c [received 3; received 4]
                   (recv_failed EAGAIN) [received 9] _ _)).
  - repeat constructor.
  - simpl. lia.
Defined.

(** When the stream holds nothing but chunks, the loop receives them all
    and ends on the would-block result, the client still in the slot. *)
Theorem recv_loop_all_chunks (ep : Epoll.t) (c : Client.t)
    (chunks : list recv_result) :
  Forall (λ x, 0 < recv_ret x) chunks →
  recv_loop ep c chunks
  = (Some c,
     flat_map (chunk_events c) chunks ++ [SysRecv (Client.fd c) buf_size (-1)], []).
Proof.
  intros Hpos. induction Hpos as [|x chunks Hx _ IH]; [done|].
  rewrite recv_loop_cons, recv_step_chunk by done. rewrite IH.
  cbn [flat_map]. by rewrite app_assoc.
Qed.

Lemma recv_loop_all_chunks_witness :
  let ep := Epoll.mk (UniqueFd.mk 5) in
  let c := Client.mk (UniqueFd.mk 6) in
  recv_loop ep c [received 3; received 4]
  = (Some c,
     [SysRecv 6 4096 3; Out (LReceived 3); SysRecv 6 4096 4; Out (LReceived 4);
      SysRecv 6 4096 (-1)],
     []).
Proof.
  intros ep c.
  refine (recv_loop_all_chunks ep c [received 3; received 4] _).
  repeat constructor.
Defined.

(** ** Accounting for accepted connections *)

Lemma closes_app (tr1 tr2 : list event) : closes (tr1 ++ tr2) = closes tr1 ++ closes tr2.
Proof. apply omap_app. Qed.

Lemma adds_app (tr1 tr2 : list event) : adds (tr1 ++ tr2) = adds tr1 ++ adds tr2.
Proof. apply omap_app. Qed.

Lemma accept_loop_cons (ep : Epoll.t) (lst : Listener.t) (a : accept_result)
    (acs : list accept_result) (cl : option Client.t) :
  accept_loop ep lst (a :: acs) cl
  = match accept_step ep lst a cl with
    | (Continue, cl', tr) =>
        let '(cl'', tr', rest) := accept_loop ep lst acs cl' in
        (cl'', tr ++ tr', rest)
    | (Break, cl', tr) => (cl', tr, acs)
    end.
Proof. reflexivity. Qed.

(** One pass of the accept loop accounts for every connection it accepts:
    it takes connections until a call of [accept] fails, whatever the
    error; the first one becomes the client if the slot was empty, every
    other one is closed, in the order accepted, and only the one that became
    the client is registered.  The results after the failing call are left
    for a later pass. *)
Theorem accept_loop_accounts (ep : Epoll.t) (lst : Listener.t)
    (acs : list accept_result) (cl : option Client.t) :
  fst (fst (accept_loop ep lst acs cl))
  = match cl, accepted_fds acs with
    | Some c, _ => Some c
    | None, x :: _ => Some (Client.mk (UniqueFd.mk x))
    | None, [] => None
    end
  ∧ closes (snd (fst (accept_loop ep lst acs cl)))
    = match cl with Some _ => accepted_fds acs | None => tail (accepted_fds acs) end
  ∧ adds (snd (fst (accept_loop ep lst acs cl)))
    = match cl with Some _ => [] | None => take 1 (accepted_fds acs) end
  ∧ snd (accept_loop ep lst acs cl) = unaccepted acs.
Proof.
  revert cl. induction acs as [|a acs IH]; intros cl.
  - simpl. by destruct cl.
  - rewrite accept_loop_cons. cbn [accepted_fds unaccepted].
    destruct (accept_step_cases ep lst a cl)
      as [(Hlt & ->)|[(Hge & -> & ->)|(Hge & [c ->] & ->)]].
    + rewrite (proj2 (Z.ltb_lt _ _) Hlt). by destruct cl.
    + rewrite (proj2 (Z.ltb_ge _ _) Hge).
      destruct (IH (Some (Client.mk (UniqueFd.mk (acc_ret a)))))
        as (IH1 & IH2 & IH3 & IH4).
      destruct (accept_loop ep lst acs _) as [[cl' tr'] rest].
      cbn [fst snd] in *. rewrite closes_app, adds_app, IH2, IH3. by subst.
    + rewrite (proj2 (Z.ltb_ge _ _) Hge).
      destruct (IH (Some c)) as (IH1 & IH2 & IH3 & IH4).
      destruct (accept_loop ep lst acs _) as [[cl' tr'] rest].
      cbn [fst snd] in *. rewrite closes_app, adds_app, IH2, IH3. by subst.
Qed.

(** ** Waits that report nothing *)

Lemma main_loop_running (sfd : SignalFd.t) (lst : Listener.t) (ep : Epoll.t)
    (w : wait_result) (ws : list wait_result) (st : loop_state) (p : pending) :
  stop st = false →
  main_loop sfd lst ep (w :: ws) st p
  = (fst (main_loop sfd lst ep ws (fst (fst (loop_body sfd lst ep w st p)))
            (snd (fst (loop_body sfd lst ep w st p)))),
     snd (loop_body sfd lst ep w st p)
       ++ snd (main_loop sfd lst ep ws (fst (fst (loop_body sfd lst ep w st p)))
                 (snd (fst (loop_body sfd lst ep w st p))))).
Proof.
  intros Hs. simpl. rewrite Hs.
  destruct (loop_body sfd lst ep w st p) as [[st1 p1] tr]. simpl.
  by destruct (main_loop sfd lst ep ws st1 p1).
Qed.

Lemma loop_body_idle (sfd : SignalFd.t) (lst : Listener.t) (ep : Epoll.t)
    (w : wait_result) (st : loop_state) (p : pending) :
  wait_ret w ≤ 0 →
  loop_body sfd lst ep w st p
  = (set_events (events_after ep [w] (events st)) st, p, [wait_event ep w]).
Proof.
  intros H. unfold loop_body. simpl. by rewrite (proj2 (Z.leb_le _ _) H).
Qed.

(** A wait that returns zero or fails (an interrupted call, a spurious
    wake-up) changes nothing but the array the kernel may have written to:
    after any number of such waits the loop goes on from the same slot, the
    same stop flag and the same pending work, having made no call other than
    the waits. *)
Theorem main_loop_idle (sfd : SignalFd.t) (lst : Listener.t) (ep : Epoll.t)
    (idle ws : list wait_result) (st : loop_state) (p : pending) :
  stop st = false → Forall (λ w, wait_ret w ≤ 0) idle →
  main_loop sfd lst ep (idle ++ ws) st p
  = (fst (main_loop sfd lst ep ws
            (set_events (events_after ep idle (events st)) st) p),
     map (wait_event ep) idle
       ++ snd (main_loop sfd lst ep ws
                 (set_events (events_after ep idle (events st)) st) p)).
Proof.
  intros Hs Hidle. revert st Hs.
  induction Hidle as [|w idle Hw _ IH]; intros st Hs.
  - cbn [app map events_after fold_left].
    replace (set_events (events st) st) with st by by destruct st.
    by destruct (main_loop sfd lst ep ws st p).
  - cbn [app map]. rewrite main_loop_running by done.
    rewrite loop_body_idle by done. cbn [fst snd].
    rewrite IH by done. done.
Qed.

Lemma main_loop_idle_witness :
  let sfd := SignalFd.mk [SIGHUP; SIGTERM] (UniqueFd.mk 3) in
  let lst := Listener.mk (UniqueFd.mk 4) in
  let ep := Epoll.mk (UniqueFd.mk 5) in
  snd (main_loop sfd lst ep
         ([{| wait_ret := -1; wait_events := [] |};
           {| wait_ret := 0; wait_events := [] |}] ++ [])
         initial_state nothing_pending)
  = [SysEpollWait 5 8 (-1) (-1); SysEpollWait 5 8 (-1) 0].
Proof.
  intros sfd lst ep.
  rewrite (main_loop_idle sfd lst ep
             [{| wait_ret := -1; wait_events := [] |};
              {| wait_ret := 0; wait_events := [] |}] [] initial_state
             nothing_pending).
  - reflexivity.
  - reflexivity.
  - repeat constructor; simpl; lia.
Defined.

(** ** What the output looks like *)

Lemma lines_app (tr1 tr2 : list event) : lines (tr1 ++ tr2) = lines tr1 ++ lines tr2.
Proof. apply omap_app. Qed.

Lemma lines_nil (P : event → bool) (tr : list event) :
  (∀ l, P (Out l) = false) → forallb P tr = true → lines tr = [].
Proof.
  intros HP. induction tr as [|e tr IH]; simpl; [done|].
  intros H. apply andb_prop in H as [He Htr]. unfold lines in *. simpl.
  destruct e; try (by apply IH). by rewrite HP in He.
Qed.

Lemma lines_loop (tr : list event) :
  forallb loop_may_emit tr = true →
  Forall (λ l, l ≠ LStopped ∧ ∀ port, l ≠ LListening port) (lines tr).
Proof.
  induction tr as [|e tr IH]; simpl; [by constructor|].
  intros H. apply andb_prop in H as [He Htr]. unfold lines in *. simpl.
  destruct e; try (by apply IH).
  constructor; [|by apply IH]. by destruct l.
Qed.

(** The output of a run is framed: a start that fails prints nothing; any
    other run prints the line with the port first, and a run that exits
    prints the line about stopping last; neither line occurs anywhere
    else. *)
Theorem output_framing (argv : list string) (k : boot) (ws : list wait_result)
    (p : pending) :
  let r := main argv k ws p in
  (exit_code r = Some 1 → lines (trace r) = [])
  ∧ (exit_code r ≠ Some 1 →
     ∃ mid,
       lines (trace r)
       = LListening (select_port argv) :: mid
           ++ (if decide (exit_code r = Some 0) then [LStopped] else [])
       ∧ Forall (λ l, l ≠ LStopped ∧ ∀ port, l ≠ LListening port) mid).
Proof.
  intros r. subst r.
  destruct (main_cases argv k ws p) as (sfd & lst & ep & tr_ctor & Hc & Hm).
  pose proof (construct_startup_events (select_port argv) k) as Hctor.
  rewrite Hc in Hctor. simpl in Hctor.
  apply (lines_nil startup_event) in Hctor; [|done].
  assert (Hdown : ∀ cl, lines (teardown sfd lst ep cl) = []).
  { intros cl. apply (lines_nil is_close); [done|apply teardown_all_close]. }
  destruct Hm as [(_ & _ & ->)|(_ & tr_loop & [(st & q & Hl & _ & _ & ->)|(Hl & _ & ->)])];
    cbn [trace exit_code]; rewrite ?lines_app, ?Hctor, ?Hdown.
  - split; [done|]. intros H. by destruct H.
  - split; [done|]. intros _. exists (lines tr_loop). split; [done|].
    apply lines_loop.
    pose proof (main_loop_emits sfd lst ep ws initial_state p) as He.
    by rewrite Hl in He.
  - split; [done|]. intros _. exists (lines tr_loop). split.
    + simpl. by rewrite app_nil_r.
    + apply lines_loop.
      pose proof (main_loop_emits sfd lst ep ws initial_state p) as He.
      by rewrite Hl in He.
Qed.

Lemma output_framing_witness :
  lines (trace (main argv_9090 boot_bind_fails waits_client_then_term
                  script_client_then_term)) = [].
Proof.
  refine (proj1 (output_framing argv_9090 boot_bind_fails waits_client_then_term
                   script_client_then_term) _).
  reflexivity.
Defined.

(** ** No wait once termination is requested *)

Lemma no_wait_after_term_app (seen : bool) (tr1 tr2 : list event) :
  no_wait_after_term seen (tr1 ++ tr2)
  = no_wait_after_term seen tr1 && no_wait_after_term (seen || saw_term tr1) tr2.
Proof.
  revert seen. induction tr1 as [|e tr1 IH]; intros seen; simpl.
  - by rewrite orb_false_r.
  - rewrite IH, andb_assoc, orb_assoc. done.
Qed.

Lemma no_wait_no_waits (seen : bool) (tr : list event) :
  forallb (λ e, negb (is_wait e)) tr = true → no_wait_after_term seen tr = true.
Proof.
  revert seen. induction tr as [|e tr IH]; intros seen; simpl; [done|].
  intros H. apply andb_prop in H as [He Htr]. rewrite IH by done.
  destruct (is_wait e); [done|]. by rewrite andb_false_r.
Qed.

Lemma no_wait_after_seen (tr : list event) :
  no_wait_after_term true tr = true → forallb (λ e, negb (is_wait e)) tr = true.
Proof.
  induction tr as [|e tr IH]; simpl; [done|].
  intros H. apply andb_prop in H as [He Htr]. by rewrite He, IH.
Qed.

(** What the check means: nothing after the SIGTERM line is a wait. *)
Lemma no_wait_after_term_spec (seen : bool) (tr1 tr2 : list event) :
  no_wait_after_term seen (tr1 ++ Out LSigTerm :: tr2) = true →
  forallb (λ e, negb (is_wait e)) tr2 = true.
Proof.
  rewrite no_wait_after_term_app. intros H. apply andb_prop in H as [_ H].
  simpl in H. rewrite andb_false_r, orb_true_r in H. simpl in H.
  by apply no_wait_after_seen.
Qed.

Lemma for_loop_no_wait (sfd : SignalFd.t) (lst : Listener.t) (ep : Epoll.t)
    (i todo : nat) (st : loop_state) (p : pending) :
  forallb (λ e, negb (is_wait e)) (snd (for_loop sfd lst ep i todo st p)) = true.
Proof.
  destruct (for_loop_sim
              (λ (_ : unit) tr _, forallb (λ e, negb (is_wait e)) tr = true)
              (λ _ _ _, True) sfd lst ep) with (todo := todo) (i := i) (st := st)
              (p := p) (s := tt) as (_ & H & _); try done.
  - intros _ _ _ t1 t2 H1 H2. by rewrite forallb_app, H1, H2.
  - intros _ cl b a _. exists tt. split; [|done].
    destruct (accept_step_cases ep lst a cl)
      as [(_ & ->)|[(_ & _ & ->)|(_ & _ & ->)]]; done.
  - intros _ c b r _. exists tt. split; [|done].
    destruct (recv_step_cases ep c r)
      as [(_ & ->)|[(_ & ->)|[(_ & _ & ->)|(_ & _ & _ & ->)]]]; try done.
    all: simpl; unfold client_close; by destruct (_ =? _).
Qed.

Lemma loop_body_no_wait_after_term (sfd : SignalFd.t) (lst : Listener.t)
    (ep : Epoll.t) (w : wait_result) (st : loop_state) (p : pending) :
  no_wait_after_term false (snd (loop_body sfd lst ep w st p)) = true.
Proof.
  unfold loop_body. simpl. destruct (wait_ret w <=? 0); [done|].
  pose proof (for_loop_no_wait sfd lst ep 0 (Z.to_nat (wait_ret w))
                (set_events (take (Z.to_nat events_size) (wait_events w)
                               ++ drop (length (take (Z.to_nat events_size)
                                                  (wait_events w))) (events st)) st)
                p) as H.
  destruct (for_loop _ _ _ _ _ _ _) as [[st2 p2] tr]. simpl in *.
  by apply no_wait_no_waits.
Qed.

Lemma main_loop_no_wait_after_term (sfd : SignalFd.t) (lst : Listener.t)
    (ep : Epoll.t) (ws : list wait_result) (st : loop_state) (p : pending) :
  stop st = false →
  no_wait_after_term false (snd (main_loop sfd lst ep ws st p)) = true.
Proof.
  revert st p. induction ws as [|w ws IH]; intros st p Hs.
  - simpl. by rewrite Hs.
  - rewrite main_loop_running by done. cbn [snd].
    rewrite no_wait_after_term_app, loop_body_no_wait_after_term. simpl.
    pose proof (main_loop_stop sfd lst ep [w] st p Hs) as Hstop.
    rewrite main_loop_running in Hstop by done. cbn [fst snd] in Hstop.
    destruct (loop_body sfd lst ep w st p) as [[st1 p1] tr]. cbn [fst snd] in *.
    simpl in Hstop. destruct (stop st1) eqn:Hs1.
    + destruct ws; simpl; by rewrite Hs1.
    + simpl in Hstop. rewrite app_nil_r in Hstop. rewrite Hstop. by apply IH.
Qed.

Lemma forallb_weaken (P Q : event → bool) (tr : list event) :
  (∀ e, P e = true → Q e = true) → forallb P tr = true → forallb Q tr = true.
Proof.
  intros HPQ. rewrite !forallb_forall. intros H e Hin. apply HPQ. by apply H.
Qed.

(** Once the line about SIGTERM has been written the process waits no
    more: in the trace of any run, no call of [epoll_wait] comes after that
    line. *)
Theorem no_wait_once_stopping (argv : list string) (k : boot)
    (ws : list wait_result) (p : pending) (tr1 tr2 : list event) :
  trace (main argv k ws p) = tr1 ++ Out LSigTerm :: tr2 →
  forallb (λ e, negb (is_wait e)) tr2 = true.
Proof.
  intros Htr. apply (no_wait_after_term_spec false tr1). rewrite <- Htr. clear Htr.
  destruct (main_cases argv k ws p) as (sfd & lst & ep & tr_ctor & Hc & Hm).
  pose proof (construct_startup_events (select_port argv) k) as Hctor.
  rewrite Hc in Hctor. simpl in Hctor.
  assert (Hc1 : no_wait_after_term false tr_ctor = true).
  { apply no_wait_no_waits. apply (forallb_weaken startup_event); [|exact Hctor].
    by intros []. }
  assert (Hc2 : saw_term tr_ctor = false) by by apply (saw_term_false startup_event).
  assert (Hdown : ∀ b cl, no_wait_after_term b (teardown sfd lst ep cl) = true).
  { intros b cl. apply no_wait_no_waits.
    apply (forallb_weaken is_close); [by intros []|apply teardown_all_close]. }
  pose proof (main_loop_no_wait_after_term sfd lst ep ws initial_state p eq_refl)
    as Hloop.
  destruct Hm as [(_ & _ & ->)|(_ & tr_loop & [(st & q & Hl & _ & _ & ->)|(Hl & _ & ->)])];
    cbn [trace]; try (rewrite Hl in Hloop; cbn [snd] in Hloop);
    rewrite ?no_wait_after_term_app, ?Hc1, ?Hc2, ?Hdown; try done.
  simpl. rewrite Hloop. simpl. by rewrite andb_false_r.
Qed.

Lemma no_wait_once_stopping_witness :
  forallb (λ e, negb (is_wait e))
    [SysRead 3 (-1); Out LStopped; SysClose 6; SysClose 5; SysClose 4; SysClose 3]
  = true.
Proof.
  refine (no_wait_once_stopping argv_9090 boot_ok waits_client_then_term
            script_client_then_term
            (take 22 (trace (main argv_9090 boot_ok waits_client_then_term
                               script_client_then_term)))
            [SysRead 3 (-1); Out LStopped; SysClose 6; SysClose 5; SysClose 4;
             SysClose 3] _).
  vm_compute. reflexivity.
Defined.

(** ** The array of ready entries *)

Lemma dispatch_events (sfd : SignalFd.t) (lst : Listener.t) (ep : Epoll.t) (x : Z)
    (st : loop_state) (p : pending) :
  events (fst (fst (dispatch sfd lst ep x st p))) = events st.
Proof.
  unfold dispatch. destruct (x =? SignalFd.fd sfd).
  { by destruct (SignalFd.drain_and_handle sfd (sigreads p)) as [[b tr] rest]. }
  destruct (x =? Listener.fd lst).
  { by destruct (accept_loop ep lst (accepts p) (client st)) as [[cl tr] rest]. }
  destruct (client st) as [c|]; [|done].
  destruct (x =? Client.fd c); [|done].
  by destruct (recv_loop ep c (recvs p)) as [[cl tr] rest].
Qed.

Lemma for_loop_dispatch_all (sfd : SignalFd.t) (lst : Listener.t) (ep : Epoll.t)
    (todo i : nat) (st : loop_state) (p : pending) :
  (i + todo ≤ length (events st))%nat →
  for_loop sfd lst ep i todo st p
  = dispatch_all sfd lst ep (take todo (drop i (events st))) st p.
Proof.
  revert i st p. induction todo as [|todo IH]; intros i st p Hlen; [done|].
  assert (i < length (events st))%nat as Hi by lia.
  destruct (lookup_lt_is_Some_2 _ _ Hi) as [x Hx].
  rewrite (drop_S _ _ _ Hx). cbn [take for_loop dispatch_all].
  rewrite (nth_lookup_Some _ _ 0 _ Hx).
  pose proof (dispatch_events sfd lst ep x st p) as He.
  destruct (dispatch sfd lst ep x st p) as [[st1 p1] tr1]. simpl in He.
  rewrite IH by (rewrite He; lia). by rewrite He.
Qed.

(** The loop handles exactly the identifiers the kernel reported, in
    order: when a wait returns [n] > 0 entries (at most the size of the
    array, and the kernel wrote that many), the pass dispatches on the
    first [n] identifiers written by this wait and reads no entry left in
    the array by an earlier one. *)
Theorem loop_body_ready (sfd : SignalFd.t) (lst : Listener.t) (ep : Epoll.t)
    (w : wait_result) (st : loop_state) (p : pending) :
  0 < wait_ret w → wait_ret w ≤ events_size →
  (Z.to_nat (wait_ret w) ≤ length (wait_events w))%nat →
  loop_body sfd lst ep w st p
  = (fst (dispatch_all sfd lst ep (take (Z.to_nat (wait_ret w)) (wait_events w))
            (set_events (events_after ep [w] (events st)) st) p),
     wait_event ep w
       :: snd (dispatch_all sfd lst ep
                 (take (Z.to_nat (wait_ret w)) (wait_events w))
                 (set_events (events_after ep [w] (events st)) st) p)).
Proof.
  intros Hpos Hcap Hwritten. unfold loop_body. cbn [Epoll.wait events_after fold_left fst snd].
  rewrite (proj2 (Z.leb_gt _ _) Hpos).
  set (written := take (Z.to_nat events_size) (wait_events w)).
  assert (Z.to_nat (wait_ret w) ≤ length written)%nat as Hn.
  { unfold written. rewrite length_take. unfold events_size in *. lia. }
  rewrite for_loop_dispatch_all
    by (cbn [events set_events]; rewrite length_app; lia).
  cbn [events set_events]. rewrite drop_0.
  rewrite take_app_le by done.
  assert (take (Z.to_nat (wait_ret w)) written
          = take (Z.to_nat (wait_ret w)) (wait_events w)) as ->.
  { unfold written. rewrite take_take. f_equal. unfold events_size in *. lia. }
  by destruct (dispatch_all _ _ _ _ _ _) as [[st2 p2] tr].
Qed.

Lemma loop_body_ready_witness :
  let sfd := SignalFd.mk [SIGHUP; SIGTERM] (UniqueFd.mk 3) in
  let lst := Listener.mk (UniqueFd.mk 4) in
  let ep := Epoll.mk (UniqueFd.mk 5) in
  let st := {| client := None; stop := false; events := [3; 3; 3; 3; 0; 0; 0; 0] |} in
  snd (loop_body sfd lst ep {| wait_ret := 1; wait_events := [4] |} st
         {| sigreads := []; accepts := [accepted 6]; recvs := [] |})
  = [SysEpollWait 5 8 (-1) 1; SysAccept 4 6; Out LNewConnection; SysFcntlGetfl 6 2;
     SysFcntlSetfl 6 2050 0; SysEpollAdd 5 6; Out LActive; SysAccept 4 (-1)].
Proof.
  intros sfd lst ep st.
  rewrite (loop_body_ready sfd lst ep {| wait_ret := 1; wait_events := [4] |}).
  - reflexivity.
  - reflexivity.
  - discriminate.
  - simpl. lia.
Defined.

(** ** Identifiers are used while open, and given back *)

Lemma followed_by_nil ok (ep : Z) (s : option kernel) : followed_by ok ep s [] s.
Proof. by destruct s. Qed.

Lemma followed_by_app ok (ep : Z) (s1 s2 s3 : option kernel) (t1 t2 : list event) :
  followed_by ok ep s1 t1 s2 → followed_by ok ep s2 t2 s3 →
  followed_by ok ep s1 (t1 ++ t2) s3.
Proof.
  unfold followed_by, well_allocated.
  destruct s1 as [k|]; [|by intros -> ->].
  rewrite !always_app, kreplay_app.
  destruct (always allocation_ok ep k t1); simpl; [|by intros -> ->].
  intros [-> ->].
  destruct (always allocation_ok ep (kreplay ep k t1) t2); simpl; [|done].
  by intros [-> ->].
Qed.

Ltac solve_checks :=
  repeat (apply andb_true_intro; split);
  try reflexivity;
  try (apply bool_decide_eq_true_2; set_solver).

Section Orderly.

Variables (sfd : SignalFd.t) (lst : Listener.t) (ep : Epoll.t) (o : gset Z).

Let J := followed_by orderly (Epoll.fd ep).
Let R := fits_exactly (SignalFd.fd sfd) (Listener.fd lst) (Epoll.fd ep) o.

Lemma orderly_wait s cl b w out :
  R s cl b → ∃ s', J s (snd (Epoll.wait ep w out events_size (-1))) s' ∧ R s' cl b.
Proof.
  intros HR. exists s. split; [|done]. destruct s as [k|]; [|done].
  destruct HR as ((Hi & Ho & _) & Hop & _).
  unfold J, followed_by, well_allocated, orderly, uses_open. simpl.
  split; [|done]. solve_checks.
Qed.

Lemma orderly_read s cl b ret (tr : list event) :
  forallb inert tr = true → forallb (λ e, bool_decide (operands e = [])) tr = true →
  R s cl b → ∃ s', J s (SysRead (SignalFd.fd sfd) ret :: tr) s' ∧ R s' cl b.
Proof.
  intros Hq Hno HR. exists s. split; [|done]. destruct s as [k|]; [|done].
  destruct HR as ((Hi & Ho & _) & Hop & _).
  unfold J, followed_by, well_allocated. simpl.
  assert (∀ ok, (∀ e, inert e = true → operands e = [] → ok k e = true) →
            always ok (Epoll.fd ep) k tr = true
            ∧ kreplay (Epoll.fd ep) k tr = k) as H.
  { intros ok Hok. clear Hi Ho Hop. induction tr as [|e tr IH]; simpl; [done|].
    simpl in Hq, Hno. apply andb_prop in Hq as [He Hq].
    apply andb_prop in Hno as [Hn Hno]. apply bool_decide_eq_true in Hn.
    destruct (inert_kstep (Epoll.fd ep) k e He) as (-> & _ & _).
    rewrite (Hok e He Hn). simpl. by apply IH. }
  destruct (H allocation_ok) as [-> ->];
    [intros e He _; by apply inert_kstep|].
  destruct (H orderly) as [-> _].
  { intros e He Hn. unfold orderly, uses_open. rewrite Hn. by destruct e. }
  split; [|done]. unfold orderly, uses_open. simpl. solve_checks.
Qed.

Lemma orderly_accept s cl b a :
  R s cl b →
  ∃ s', J s (snd (accept_step ep lst a cl)) s'
        ∧ R s' (snd (fst (accept_step ep lst a cl))) b.
Proof.
  intros HR. destruct s as [k|]; [|by exists None].
  destruct HR as ((Hi & Ho & Hne1 & Hne2 & He3 & Hs1 & Hs2 & Hpos)
                  & Hop & Ho1 & Ho2 & Ho3 & Ho4 & Hne).
  destruct k as [ko ki]. simpl in Hi, Ho, Hop. subst ko ki.
  destruct (accept_step_cases ep lst a cl)
    as [(Hlt & ->)|[(Hge & -> & ->)|(Hge & [c ->] & ->)]]; cbn [fst snd];
    unfold J, followed_by, well_allocated, allocation_ok; simpl.
  - rewrite (proj2 (Z.leb_gt _ _) Hlt). simpl. rewrite orb_false_r.
    destruct (acc_ret a =? -1); [|by exists None].
    eexists. split; [split; [|reflexivity]|].
    + unfold orderly, uses_open. simpl. solve_checks.
    + unfold R, fits_exactly, registered_as. simpl. split_and!; try done.
  - destruct (Z.eqb_spec (acc_ret a) (-1)) as [Hm|_]; [lia|].
    rewrite (proj2 (Z.leb_le _ _) Hge). simpl.
    case_bool_decide as Hfresh; simpl; [|by exists None].
    rewrite !decide_True by done. simpl in *.
    eexists. split; [split; [|reflexivity]|].
    + unfold orderly, uses_open. simpl. clear Hpos Ho4 Ho. solve_checks.
    + unfold R, fits_exactly, registered_as, Client.fd. simpl.
      clear Ho. split_and!; try done; try set_solver.
  - destruct (Z.eqb_spec (acc_ret a) (-1)) as [Hm|_]; [lia|].
    rewrite (proj2 (Z.leb_le _ _) Hge). simpl.
    case_bool_decide as Hfresh; simpl; [|by exists None].
    simpl in *.
    assert (acc_ret a ≠ Epoll.fd ep) by (clear -Hfresh; set_solver).
    rewrite decide_False by done.
    eexists. split; [split; [|reflexivity]|].
    + unfold orderly, uses_open. simpl. clear Hpos Ho4 Ho. solve_checks.
    + unfold R, fits_exactly, registered_as. simpl.
      clear Ho. split_and!; try done; try set_solver.
Qed.

Lemma orderly_recv s c b r :
  R s (Some c) b →
  ∃ s', J s (snd (recv_step ep c r)) s'
        ∧ R s' (snd (fst (recv_step ep c r))) b.
Proof.
  intros HR. destruct s as [k|]; [|by exists None].
  pose proof HR as ((Hi & Ho & Hne1 & Hne2 & He3 & Hs1 & Hs2 & Hpos)
                    & Hop & Ho1 & Ho2 & Ho3 & Ho4 & Hne).
  destruct k as [ko ki]. simpl in Hi, Ho, Hop, He3, Hs1, Hs2, Hpos, Ho4.
  subst ko ki.
  assert (0 ≤ Client.fd c) as Hc0 by (apply Hpos; set_solver).
  assert (Client.fd c ∉ o) as Hco by (apply Ho4; set_solver).
  assert (Client.fd c ≠ Epoll.fd ep) as Hce by set_solver.
  assert (Client.fd c ≠ SignalFd.fd sfd) as Hcs by set_solver.
  assert (Client.fd c ≠ Listener.fd lst) as Hcl by set_solver.
  clear Hpos Ho4 He3 Hs1 Hs2 Ho.
  destruct (recv_step_cases ep c r)
    as [(_ & ->)|[(_ & ->)|[(_ & _ & ->)|(_ & _ & _ & ->)]]]; cbn [fst snd];
    unfold J, followed_by, well_allocated, allocation_ok, client_close.
  all: destruct (Z.eqb_spec (Client.fd c) (-1)) as [Hm|_]; [lia|]; simpl.
  all: rewrite ?decide_True by done; rewrite ?decide_False by done; simpl.
  all: eexists; (split; [split; [|reflexivity]|]).
  all: try exact HR.
  all: clear HR.
  all: lazymatch goal with
       | |- _ = true => unfold orderly, uses_open; simpl; solve_checks
       | |- _ => unfold R, fits_exactly, registered_as; simpl;
                 split_and!; try done; try set_solver
       end.
Qed.

Lemma main_loop_orderly (ws : list wait_result) (st : loop_state) (p : pending)
    (k : kernel) :
  R (Some k) (client st) (stop st) →
  ∃ s', J (Some k) (snd (main_loop sfd lst ep ws st p)) s'
        ∧ match fst (main_loop sfd lst ep ws st p) with
          | Some (st', _) => R s' (client st') true
          | None => True
          end.
Proof.
  intros HR.
  destruct (main_loop_sim J R sfd lst ep (followed_by_nil orderly (Epoll.fd ep))
              (followed_by_app orderly (Epoll.fd ep)))
    with (ws := ws) (st := st) (p := p) (s := Some k) as (s' & HJ & HR'); try done.
  - apply orderly_wait.
  - intros s cl b ret _ H. by apply (orderly_read s cl b ret []).
  - intros s cl b signo H.
    by apply (orderly_read s cl b sizeof_siginfo [Out (signal_line signo)]).
  - apply orderly_accept.
  - apply orderly_recv.
  - exists s'. split; [done|].
    destruct (fst (main_loop sfd lst ep ws st p)) as [[st' q]|]; [|done].
    by destruct HR' as [HR' _].
Qed.

End Orderly.

(** ** The whole run, on the kernel's side *)

Lemma leads_nil (ep : Z) (k : kernel) (Q : kernel → Prop) : Q k → leads ep k [] Q.
Proof. by intros HQ _. Qed.

Lemma leads_app (ep : Z) (k : kernel) (t1 t2 : list event) (Q1 Q2 : kernel → Prop) :
  leads ep k t1 Q1 → (∀ k1, Q1 k1 → leads ep k1 t2 Q2) → leads ep k (t1 ++ t2) Q2.
Proof.
  unfold leads, well_allocated. intros H1 H2. rewrite !always_app, kreplay_app.
  intros Hwa. apply andb_prop in Hwa as [Hwa1 Hwa2].
  destruct (H1 Hwa1) as [-> HQ1]. by apply H2.
Qed.

Lemma leads_weaken (ep : Z) (k : kernel) (tr : list event) (Q1 Q2 : kernel → Prop) :
  leads ep k tr Q1 → (∀ k1, Q1 k1 → Q2 k1) → leads ep k tr Q2.
Proof. intros H HQ Hwa. destruct (H Hwa) as [? ?]. eauto. Qed.

(** What the allocation rule says about one result. *)
Lemma allocation_fact (r : Z) (X : gset Z) :
  (r =? -1) || (0 <=? r) && bool_decide (r ∉ X) = true →
  (r = -1 ∧ (0 <=? r) = false)
  ∨ ((0 <=? r) = true ∧ 0 ≤ r ∧ r ≠ -1 ∧ r ∉ X).
Proof.
  destruct (Z.eqb_spec r (-1)) as [->|Hne]; simpl; [by left|].
  intros H. apply andb_prop in H as [H1 H2]. apply bool_decide_eq_true in H2.
  right. split_and!; try done. by apply Z.leb_le.
Qed.

Ltac alloc_case r k :=
  unfold leads, well_allocated, allocation_ok, orderly, uses_open; simpl;
  intros Hwa; rewrite ?andb_true_r in Hwa;
  destruct (allocation_fact r (opened k) Hwa) as [[-> ->]|(-> & ? & ? & ?)];
  [split; [done|by left]|split; [done|by right]].

Lemma leads_signalfd (ep : Z) (k : kernel) (sigs : list Z) (r : Z) :
  leads ep k [SysSigprocmask sigs; SysSignalfd sigs r]
    (λ k', (r = -1 ∧ k' = k)
           ∨ (0 ≤ r ∧ r ≠ -1 ∧ (r ∉ opened k)
              ∧ k' = {| opened := opened k ∪ {[r]}; interest := interest k |})).
Proof. alloc_case r k. Qed.

Lemma leads_socket (ep : Z) (k : kernel) (r : Z) :
  leads ep k [SysSocket r]
    (λ k', (r = -1 ∧ k' = k)
           ∨ (0 ≤ r ∧ r ≠ -1 ∧ (r ∉ opened k)
              ∧ k' = {| opened := opened k ∪ {[r]}; interest := interest k |})).
Proof. alloc_case r k. Qed.

Lemma leads_epoll_create (ep : Z) (k : kernel) (r : Z) :
  leads ep k [SysEpollCreate r]
    (λ k', (r = -1 ∧ k' = k)
           ∨ (0 ≤ r ∧ r ≠ -1 ∧ (r ∉ opened k)
              ∧ k' = {| opened := opened k ∪ {[r]}; interest := interest k |})).
Proof. alloc_case r k. Qed.

(** Calls that operate on open identifiers and change nothing. *)
Lemma leads_inert (ep : Z) (k : kernel) (tr : list event) :
  forallb inert tr = true →
  Forall (λ e, Forall (λ x, x ∈ opened k) (operands e)) tr →
  leads ep k tr (λ k', k' = k).
Proof.
  intros Hq Hops _. unfold orderly, uses_open.
  induction Hops as [|e tr He _ IH]; simpl; [done|].
  simpl in Hq. apply andb_prop in Hq as [Hi Hq].
  destruct (inert_kstep ep k e Hi) as (-> & _ & _).
  destruct (IH Hq) as [-> ->]. split; [|done].
  rewrite !andb_true_r. apply andb_true_intro. split.
  - apply forallb_forall. intros x Hx. apply bool_decide_eq_true_2.
    rewrite List.Forall_forall in He. by apply He.
  - by destruct e.
Qed.

Lemma leads_close (ep : Z) (k : kernel) (x : Z) :
  x ∈ opened k →
  leads ep k [SysClose x]
    (λ k', opened k' = opened k ∖ {[x]}
           ∧ interest k' = if decide (x = ep) then ∅ else interest k ∖ {[x]}).
Proof.
  intros Hx _. unfold orderly, uses_open. simpl.
  by rewrite bool_decide_eq_true_2.
Qed.

Lemma leads_add (ep : Z) (k : kernel) (x : Z) :
  ep ∈ opened k → x ∈ opened k → x ∉ interest k →
  leads ep k [SysEpollAdd ep x]
    (λ k', k' = {| opened := opened k; interest := interest k ∪ {[x]} |}).
Proof.
  intros He Hx Hn _. unfold orderly, uses_open. simpl.
  rewrite !bool_decide_eq_true_2 by done. by rewrite decide_True.
Qed.

Lemma holding_eq (o X Y : gset Z) (k : kernel) : X = Y → holding o X k → holding o Y k.
Proof. by intros ->. Qed.

Lemma owned_mk (r : Z) :
  owned (UniqueFd.mk r) = if decide (r = -1) then ∅ else {[r]}.
Proof.
  unfold owned, UniqueFd.valid, UniqueFd.get. simpl.
  destruct (Z.eqb_spec r (-1)); by case_decide.
Qed.

(** Taking a new identifier into the set the program holds. *)
Lemma holding_take (o X : gset Z) (k : kernel) (r : Z) :
  holding o X k → r ∉ opened k →
  holding o (X ∪ {[r]}) {| opened := opened k ∪ {[r]}; interest := interest k |}
  ∧ {[r]} ## X.
Proof.
  intros (Hi & Ho & Hd) Hr. rewrite Ho in Hr. unfold holding. simpl.
  rewrite Ho. clear Ho. split_and!; [done|set_solver..].
Qed.

Lemma create_sfd_holding (ep : Z) (o X : gset Z) (k : kernel) (sigs : list Z) (r : Z) :
  holding o X k →
  leads ep k (snd (SignalFd.create sigs r))
    (λ k', holding o (X ∪ owned (SignalFd.fd_ (fst (SignalFd.create sigs r)))) k'
           ∧ owned (SignalFd.fd_ (fst (SignalFd.create sigs r))) ## X).
Proof.
  intros Hh. simpl. rewrite owned_mk.
  eapply leads_weaken; [apply leads_signalfd|].
  intros k1 [[-> ->]|(H0 & Hne & Hfresh & ->)].
  - rewrite decide_True by done. split; [|set_solver].
    eapply holding_eq; [|exact Hh]. set_solver.
  - rewrite decide_False by done. by apply holding_take.
Qed.

Lemma create_ep_holding (ep : Z) (o X : gset Z) (k : kernel) (r : Z) :
  holding o X k →
  leads ep k (snd (Epoll.create r))
    (λ k', holding o (X ∪ owned (Epoll.ep_ (fst (Epoll.create r)))) k'
           ∧ owned (Epoll.ep_ (fst (Epoll.create r))) ## X).
Proof.
  intros Hh. simpl. rewrite owned_mk.
  eapply leads_weaken; [apply leads_epoll_create|].
  intros k1 [[-> ->]|(H0 & Hne & Hfresh & ->)].
  - rewrite decide_True by done. split; [|set_solver].
    eapply holding_eq; [|exact Hh]. set_solver.
  - rewrite decide_False by done. by apply holding_take.
Qed.

(** A socket that is opened, used and closed again. *)
Lemma socket_given_back (ep : Z) (o X : gset Z) (k : kernel) (s : Z)
    (uses : list event) :
  holding o X k → 0 ≤ s →
  forallb inert uses = true →
  Forall (λ e, operands e = [s]) uses →
  leads ep k ([SysSocket s] ++ uses ++ [SysClose s]) (holding o X).
Proof.
  intros Hh Hs Hq Hops.
  eapply leads_app; [apply leads_socket|].
  intros k1 [[? _]|(_ & _ & Hfresh & ->)]; [lia|].
  eapply leads_app.
  { apply leads_inert; [done|].
    eapply List.Forall_impl; [|exact Hops]. simpl. intros e ->.
    constructor; [set_solver|constructor]. }
  intros k2 ->.
  eapply leads_weaken; [apply leads_close; set_solver|].
  simpl. intros k3 [Ho3 Hi3]. destruct Hh as (Hi & Ho & Hd).
  rewrite Ho in Hfresh. unfold holding. rewrite Ho3, Hi3, Hi, Ho. clear Ho3 Hi3 Hi Ho.
  split_and!; [case_decide; set_solver|set_solver|done].
Qed.

Lemma create_lst_holding (ep : Z) (o X : gset Z) (k : kernel) (port : Z)
    (b : Listener.boot) :
  holding o X k →
  leads ep k (snd (Listener.create port b))
    (λ k', holding o (X ∪ owned (Listener.fd_ (fst (Listener.create port b)))) k'
           ∧ owned (Listener.fd_ (fst (Listener.create port b))) ## X).
Proof.
  intros Hh.
  assert (owned UniqueFd.empty = ∅) as Hempty by done.
  destruct (Z.lt_ge_cases (Listener.socket_ret b) 0) as [Hs|Hs].
  { rewrite listener_create_socket_fails by done. cbn [fst snd Listener.fd_].
    rewrite Hempty. eapply leads_weaken; [apply leads_socket|].
    intros k1 [[_ ->]|(? & _)]; [|lia]. split; [|set_solver].
    eapply holding_eq; [|exact Hh]. set_solver. }
  destruct (Z.lt_ge_cases (Listener.bind_ret b) 0) as [Hb|Hb].
  { rewrite listener_create_bind_fails by done. cbn [fst snd Listener.fd_].
    rewrite Hempty.
    eapply leads_weaken.
    - apply (socket_given_back ep o X k (Listener.socket_ret b)
               [SysSetsockopt (Listener.socket_ret b) (Listener.setsockopt_ret b);
                SysBind (Listener.socket_ret b) port (Listener.bind_ret b)]);
        try done. by repeat constructor.
    - intros k1 Hk1. split; [|set_solver].
      eapply holding_eq; [|exact Hk1]. set_solver. }
  destruct (Z.lt_ge_cases (Listener.listen_ret b) 0) as [Hl|Hl].
  { rewrite listener_create_listen_fails by done. cbn [fst snd Listener.fd_].
    rewrite Hempty.
    eapply leads_weaken.
    - apply (socket_given_back ep o X k (Listener.socket_ret b)
               [SysSetsockopt (Listener.socket_ret b) (Listener.setsockopt_ret b);
                SysBind (Listener.socket_ret b) port (Listener.bind_ret b);
                SysListen (Listener.socket_ret b) (Listener.listen_ret b)]);
        try done. by repeat constructor.
    - intros k1 Hk1. split; [|set_solver].
      eapply holding_eq; [|exact Hk1]. set_solver. }
  rewrite listener_create_succeeds by done. cbn [fst snd Listener.fd_].
  rewrite owned_mk, decide_False by lia.
  eapply (leads_app _ _ [SysSocket _] (_ :: _)); [apply leads_socket|].
  intros k1 [[? _]|(_ & _ & Hfresh & ->)]; [lia|].
  eapply leads_weaken.
  { apply leads_inert; [done|]. repeat constructor; simpl; set_solver. }
  intros k2 ->. by apply holding_take.
Qed.

Lemma destroy_holding (ep : Z) (o X : gset Z) (k : kernel) (h : UniqueFd.t) :
  holding o X k → owned h ⊆ X →
  leads ep k (UniqueFd.destroy h) (holding o (X ∖ owned h)).
Proof.
  intros Hh Hsub. unfold UniqueFd.destroy, owned, UniqueFd.valid, UniqueFd.get in *.
  simpl. destruct (negb (UniqueFd.fd_ h =? -1)).
  - destruct Hh as (Hi & Ho & Hd).
    eapply leads_weaken; [apply leads_close; rewrite Ho; set_solver|].
    simpl. intros k1 [Ho1 Hi1]. unfold holding.
    rewrite Ho1, Hi1, Hi, Ho. clear Ho1 Hi1 Hi Ho.
    split_and!; [case_decide; set_solver|set_solver|set_solver].
  - apply leads_nil. eapply holding_eq; [|exact Hh]. set_solver.
Qed.

Lemma construct_snd (port : Z) (b : boot) :
  snd (construct port b)
  = snd (SignalFd.create [SIGHUP; SIGTERM] (signalfd_ret b))
      ++ snd (Listener.create port (listener_boot b))
      ++ snd (Epoll.create (epoll_create_ret b)).
Proof.
  unfold construct. destruct (SignalFd.create _ _), (Listener.create _ _).
  reflexivity.
Qed.

Lemma fresh_kernel_holding (o : gset Z) : holding o ∅ (fresh_kernel o).
Proof. unfold holding, fresh_kernel. simpl. split_and!; set_solver. Qed.

(** The three constructors, from a kernel in which the program holds
    nothing. *)
Lemma construct_holding (ep : Z) (o : gset Z) (port : Z) (b : boot) :
  let S := owned (SignalFd.fd_ (fst (SignalFd.create [SIGHUP; SIGTERM] (signalfd_ret b)))) in
  let L := owned (Listener.fd_ (fst (Listener.create port (listener_boot b)))) in
  let E := owned (Epoll.ep_ (fst (Epoll.create (epoll_create_ret b)))) in
  leads ep (fresh_kernel o) (snd (construct port b))
    (λ k', holding o (S ∪ L ∪ E) k' ∧ L ## S ∧ E ## S ∪ L).
Proof.
  intros S L E. rewrite construct_snd.
  eapply leads_app;
    [apply (create_sfd_holding ep o ∅); apply fresh_kernel_holding|].
  intros k1 [Hh1 _].
  eapply leads_app; [eapply create_lst_holding; exact Hh1|].
  intros k2 [Hh2 Hd2].
  eapply leads_weaken; [eapply create_ep_holding; exact Hh2|].
  intros k3 [Hh3 Hd3]. fold S L E in Hh2, Hd2, Hh3, Hd3 |- *.
  split_and!.
  - eapply holding_eq; [|exact Hh3]. clear. set_solver.
  - clear -Hd2. set_solver.
  - clear -Hd3. set_solver.
Qed.

(** A start followed at once by the destructors gives everything back. *)
Lemma construct_teardown_leads (ep : Z) (o : gset Z) (port : Z) (b : boot)
    (sfd : SignalFd.t) (lst : Listener.t) (e : Epoll.t) (tr : list event) :
  construct port b = (sfd, lst, e, tr) →
  leads ep (fresh_kernel o) (tr ++ teardown sfd lst e None)
    (λ k', opened k' = o ∧ interest k' = ∅).
Proof.
  intros Hc.
  pose proof (construct_holding ep o port b) as Hctor.
  pose proof (construct_fst port b) as Hfst.
  rewrite Hc in Hctor, Hfst. simpl in Hctor, Hfst.
  injection Hfst as -> -> ->.
  eapply leads_app; [exact Hctor|].
  intros k1 (Hh & Hd1 & Hd2). unfold teardown, slot_destroy. cbn [app].
  unfold Epoll.destroy, Listener.destroy, SignalFd.destroy.
  eapply leads_app; [eapply destroy_holding; [exact Hh|clear; set_solver]|].
  intros k2 Hh2.
  eapply leads_app; [eapply destroy_holding; [exact Hh2|]|].
  { clear -Hd2. set_solver. }
  intros k3 Hh3.
  eapply leads_weaken; [eapply destroy_holding; [exact Hh3|]|].
  { clear -Hd1 Hd2. set_solver. }
  intros k4 (Hi & Ho & _). split; [|done]. rewrite Ho. clear. set_solver.
Qed.

(** A start in which every call succeeds leaves the kernel as the loop
    expects it. *)
Lemma valid_start_leads (o : gset Z) (port : Z) (b : boot) :
  signalfd_ret b ≠ -1 →
  0 ≤ Listener.socket_ret (listener_boot b) →
  0 ≤ Listener.bind_ret (listener_boot b) →
  0 ≤ Listener.listen_ret (listener_boot b) →
  epoll_create_ret b ≠ -1 →
  leads (epoll_create_ret b) (fresh_kernel o)
    (snd (construct port b)
       ++ announce (fst (fst (fst (construct port b))))
            (snd (fst (fst (construct port b)))) (snd (fst (construct port b))) port)
    (λ k', fits_exactly (signalfd_ret b) (Listener.socket_ret (listener_boot b))
             (epoll_create_ret b) o (Some k') None false).
Proof.
  intros H1 H2 H3 H4 H5.
  pose proof (construct_holding (epoll_create_ret b) o port b) as Hctor.
  simpl in Hctor. rewrite listener_create_succeeds in Hctor by done.
  cbn [fst snd Listener.fd_] in Hctor. rewrite !owned_mk in Hctor.
  rewrite !decide_False in Hctor by (done || lia).
  rewrite construct_valid by done. cbn [fst snd].
  rewrite construct_valid in Hctor by done. cbn [fst snd] in Hctor.
  set (r1 := signalfd_ret b) in *.
  set (s := Listener.socket_ret (listener_boot b)) in *.
  set (r3 := epoll_create_ret b) in *.
  eapply leads_app; [exact Hctor|].
  intros [ko ki] ((Hi & Ho & Hd) & Hd1 & Hd2). simpl in Hi, Ho. subst ko ki.
  unfold announce, Epoll.add_in, Epoll.fd, SignalFd.fd, Listener.fd, UniqueFd.get.
  cbn [app Epoll.ep_ SignalFd.fd_ Listener.fd_ UniqueFd.fd_].
  assert (s ≠ r1) by (clear -Hd1; set_solver).
  assert (r3 ≠ r1) by (clear -Hd2; set_solver).
  assert (r3 ≠ s) by (clear -Hd2; set_solver).
  assert ((r1 ∉ o) ∧ (s ∉ o) ∧ (r3 ∉ o)) as (? & ? & ?) by (clear -Hd; set_solver).
  clear Hd Hd1 Hd2 Hctor.
  intros _. unfold orderly, uses_open. simpl.
  rewrite !decide_True by done. simpl. split.
  - solve_checks.
  - unfold fits_exactly, registered_as. simpl. split_and!; try done; set_solver.
Qed.

Lemma loop_leads (sfd : SignalFd.t) (lst : Listener.t) (ep : Epoll.t) (o : gset Z)
    (ws : list wait_result) (st : loop_state) (p : pending) (k : kernel) :
  fits_exactly (SignalFd.fd sfd) (Listener.fd lst) (Epoll.fd ep) o (Some k)
    (client st) (stop st) →
  leads (Epoll.fd ep) k (snd (main_loop sfd lst ep ws st p))
    (λ k', match fst (main_loop sfd lst ep ws st p) with
           | Some (st', _) =>
               fits_exactly (SignalFd.fd sfd) (Listener.fd lst) (Epoll.fd ep) o
                 (Some k') (client st') true
           | None => True
           end).
Proof.
  intros HR Hwa.
  destruct (main_loop_orderly sfd lst ep o ws st p k HR) as (s' & HJ & HR').
  unfold followed_by in HJ. rewrite Hwa in HJ. destruct HJ as [Hal ->].
  split; [done|]. exact HR'.
Qed.

(** Leaving after the loop: the destructors close what is still open. *)
Lemma exit_leads (o : gset Z) (sigs : list Z) (r1 s r3 : Z) (cl : option Client.t)
    (b : bool) (k : kernel) :
  fits_exactly r1 s r3 o (Some k) cl b → r1 ≠ -1 → s ≠ -1 → r3 ≠ -1 →
  leads r3 k
    ([Out LStopped]
       ++ teardown (SignalFd.mk sigs (UniqueFd.mk r1)) (Listener.mk (UniqueFd.mk s))
            (Epoll.mk (UniqueFd.mk r3)) cl)
    (λ k', opened k' = o ∧ interest k' = ∅).
Proof.
  intros ((Hi & Ho & Hne1 & Hne2 & He3 & Hs1 & Hs2 & Hpos)
          & Hop & Ho1 & Ho2 & Ho3 & Ho4 & Hne) Hv1 Hv2 Hv3.
  destruct k as [ko ki]. simpl in Hi, Ho, Hop. subst ko ki.
  rewrite teardown_valid by done.
  intros _. unfold orderly, uses_open.
  destruct cl as [c|].
  - simpl in Hpos, Ho4, He3, Hs1, Hs2, Ho.
    assert (0 ≤ Client.fd c) as Hc0 by (apply Hpos; set_solver).
    assert (Client.fd c ∉ o) as Hco by (apply Ho4; set_solver).
    assert (Client.fd c ≠ r3) as Hce by set_solver.
    assert (Client.fd c ≠ r1) as Hcs by set_solver.
    assert (Client.fd c ≠ s) as Hcl by set_solver.
    clear Hpos Ho4 He3 Hs1 Hs2 Ho.
    rewrite slot_destroy_Some, client_close_valid by lia. simpl.
    rewrite ?decide_True by done; rewrite ?decide_False by done. simpl.
    split; [solve_checks|]. split; [set_solver|].
    rewrite ?decide_True by done; rewrite ?decide_False by done. set_solver.
  - simpl in *. clear Hpos Ho4 He3 Hs1 Hs2 Ho.
    rewrite ?decide_True by done; rewrite ?decide_False by done. simpl.
    split; [solve_checks|]. split; [set_solver|].
    rewrite ?decide_True by done; rewrite ?decide_False by done. set_solver.
Qed.

(** The three ways a run can go, put together. *)
Lemma main_leads (argv : list string) (b : boot) (ws : list wait_result)
    (p : pending) (o : gset Z) :
  leads (epoll_create_ret b) (fresh_kernel o) (trace (main argv b ws p))
    (λ k', exit_code (main argv b ws p) ≠ None → k' = fresh_kernel o).
Proof.
  assert (∀ k' : kernel, opened k' = o ∧ interest k' = ∅ → k' = fresh_kernel o)
    as Hback.
  { intros [ko ki] [Ho Hi]. simpl in Ho, Hi. by subst. }
  destruct (main_cases argv b ws p) as (sfd & lst & ep & tr_ctor & Hc & Hm).
  destruct Hm as [(_ & _ & ->)|(Hv & tr_loop & Hm)].
  { cbn [trace exit_code]. eapply leads_weaken.
    - eapply construct_teardown_leads. exact Hc.
    - intros k' Hk' _. by apply Hback. }
  pose proof (construct_fst (select_port argv) b) as Hfst.
  rewrite Hc in Hfst. simpl in Hfst. injection Hfst as Hsfd Hlst Hep.
  rewrite Hsfd, Hlst, Hep in Hv. clear Hsfd Hlst Hep.
  destruct (startup_ok_facts _ _ Hv) as (H1 & H2 & H3 & H4 & H5). clear Hv.
  pose proof (valid_start_leads o (select_port argv) b H1 H2 H3 H4 H5) as Hstart.
  rewrite Hc in Hstart. cbn [fst snd] in Hstart.
  rewrite construct_valid in Hc by done. injection Hc as <- <- <- _.
  set (r1 := signalfd_ret b) in *.
  set (s := Listener.socket_ret (listener_boot b)) in *.
  set (r3 := epoll_create_ret b) in *.
  set (sfd := SignalFd.mk [SIGHUP; SIGTERM] (UniqueFd.mk r1)) in *.
  set (lst := Listener.mk (UniqueFd.mk s)) in *.
  set (ep := Epoll.mk (UniqueFd.mk r3)) in *.
  pose proof (λ k, loop_leads sfd lst ep o ws initial_state p k) as Hloop.
  change (Epoll.fd ep) with r3 in Hloop.
  change (SignalFd.fd sfd) with r1 in Hloop.
  change (Listener.fd lst) with s in Hloop.
  cbn [client stop initial_state] in Hloop.
  cbn zeta in Hm.
  destruct Hm as [(st & q & Hl & _ & _ & ->)|(Hl & _ & ->)];
    rewrite Hl in Hloop; cbn [fst snd] in Hloop; cbn [trace exit_code].
  - rewrite (app_assoc tr_ctor), <- (app_assoc (tr_ctor ++ _)).
    eapply leads_app; [exact Hstart|]. intros k1 Hk1.
    eapply leads_app; [exact (Hloop k1 Hk1)|]. intros k2 Hk2.
    eapply leads_weaken.
    + eapply exit_leads; [exact Hk2|done|subst s; lia|done].
    + intros k' Hk' _. by apply Hback.
  - rewrite (app_assoc tr_ctor).
    eapply leads_app; [exact Hstart|]. intros k1 Hk1.
    eapply leads_weaken; [exact (Hloop k1 Hk1)|]. by intros k' _ Hn.
Qed.

(** Whatever the kernel answers, as long as it hands out identifiers by its
    rule, every call of a run is made on identifiers that are open at that
    moment, nothing is registered twice and nothing is deregistered that is
    not registered: no identifier is used after it is closed or closed
    twice. *)
Theorem run_orderly (argv : list string) (b : boot) (ws : list wait_result)
    (p : pending) (o : gset Z) :
  well_allocated (epoll_create_ret b) (fresh_kernel o) (trace (main argv b ws p)) = true →
  always orderly (epoll_create_ret b) (fresh_kernel o) (trace (main argv b ws p)) = true.
Proof. intros Hwa. by destruct (main_leads argv b ws p o Hwa). Qed.

Lemma run_orderly_witness :
  well_allocated (epoll_create_ret boot_ok) (fresh_kernel {[0; 1; 2]})
    (trace (main argv_9090 boot_ok waits_client_then_term script_client_then_term))
  = true
  ∧ always orderly (epoll_create_ret boot_ok) (fresh_kernel {[0; 1; 2]})
      (trace (main argv_9090 boot_ok waits_client_then_term script_client_then_term))
    = true.
Proof.
  split; [vm_compute; reflexivity|].
  refine (run_orderly argv_9090 boot_ok waits_client_then_term
            script_client_then_term {[0; 1; 2]} _).
  vm_compute. reflexivity.
Defined.

(** A run that exits, with either code, leaves the kernel as it found it:
    every identifier the program opened is closed again and the interest
    list is empty. *)
Theorem run_releases_everything (argv : list string) (b : boot)
    (ws : list wait_result) (p : pending) (o : gset Z) (c : Z) :
  well_allocated (epoll_create_ret b) (fresh_kernel o) (trace (main argv b ws p)) = true →
  exit_code (main argv b ws p) = Some c →
  kreplay (epoll_create_ret b) (fresh_kernel o) (trace (main argv b ws p))
  = fresh_kernel o.
Proof.
  intros Hwa Hc. destruct (main_leads argv b ws p o Hwa) as [_ Hk].
  apply Hk. by rewrite Hc.
Qed.

Lemma run_releases_everything_witness :
  exit_code (main argv_9090 boot_ok waits_client_then_term script_client_then_term)
  = Some 0
  ∧ kreplay (epoll_create_ret boot_ok) (fresh_kernel {[0; 1; 2]})
      (trace (main argv_9090 boot_ok waits_client_then_term script_client_then_term))
    = fresh_kernel {[0; 1; 2]}.
Proof.
  split; [vm_compute; reflexivity|].
  refine (run_releases_everything argv_9090 boot_ok waits_client_then_term
            script_client_then_term {[0; 1; 2]} 0 _ _).
  - vm_compute. reflexivity.
  - vm_compute. reflexivity.
Defined.
